(** * media.py: the download-then-upload task orchestrator

    A shallow embedding of [src/media.py] (a Telegram bot that fetches a
    video with yt-dlp and publishes it to Google Drive) together with the
    properties its specification states about it.

    Conventions of the embedding:
    - a Python [str] is a Rocq [string] (or its [list ascii]) whose
      characters are the code points below 256; text read from the
      retrieval process is taken after decoding;
    - a Python [float] is an IEEE binary64 value, a [spec_float] with
      precision 53 and maximal exponent 1024;
    - the three module-level dictionaries and the file system form the
      [world]; a coroutine is a function of the world that also returns the
      events it emitted and either a value or a raised exception;
    - everything that the program awaits is answered by an environment
      record, which also says which other handlers ran in the meantime. *)

From Stdlib Require Import ZArith Ascii String List Bool Lia SpecFloat.
From stdpp Require Import base gmap strings list sorting.

Open Scope Z_scope.

(** ** Text *)

Module Text.

Definition chars := list ascii.

Definition of_string (s : string) : chars := list_ascii_of_string s.
Definition to_string (l : chars) : string := string_of_list_ascii l.

Definition code (c : ascii) : N := N_of_ascii c.

Definition in_range (lo hi : N) (c : ascii) : bool :=
  (lo <=? code c)%N && (code c <=? hi)%N.

(** [str.isspace] / [\s]: TAB..CR, FS..US, space, NEL and NBSP. *)
Definition is_space (c : ascii) : bool :=
  in_range 9 13 c || in_range 28 32 c
  || (code c =? 133)%N || (code c =? 160)%N.

(** [\d]: the decimal digits ([0-9] are the only ones below 256). *)
Definition is_digit (c : ascii) : bool := in_range 48 57 c.

(** [str.isalnum]: letters and numeric characters below 256. *)
Definition is_alnum (c : ascii) : bool :=
  is_digit c || in_range 65 90 c || in_range 97 122 c
  || (code c =? 170)%N || in_range 178 179 c || (code c =? 181)%N
  || in_range 185 186 c || in_range 188 190 c
  || in_range 192 214 c || in_range 216 246 c || in_range 248 255 c.

(** [\w]: alphanumeric or underscore. *)
Definition is_word (c : ascii) : bool := is_alnum c || (code c =? 95)%N.

Definition is_one_of (s : string) (c : ascii) : bool :=
  existsb (Ascii.eqb c) (of_string s).

(** [c in s] *)
Definition contains_char (c : ascii) (s : chars) : bool :=
  existsb (Ascii.eqb c) s.

(** [s.split(d)]: never empty. *)
Fixpoint split_on (d : ascii) (s : chars) : list chars :=
  match s with
  | [] => [[]]
  | c :: s' =>
      if Ascii.eqb c d then [] :: split_on d s'
      else match split_on d s' with
           | seg :: segs => (c :: seg) :: segs
           | [] => [[c]]
           end
  end.

(** [s.split(d)[-1]] *)
Definition last_segment (d : ascii) (s : chars) : chars :=
  List.last (split_on d s) [].

(** [s.split(d, 1)[1]]; [None] stands for the IndexError. *)
Fixpoint after_first (d : ascii) (s : chars) : option chars :=
  match s with
  | [] => None
  | c :: s' => if Ascii.eqb c d then Some s' else after_first d s'
  end.

Fixpoint lstrip (s : chars) : chars :=
  match s with
  | c :: s' => if is_space c then lstrip s' else s
  | [] => []
  end.

(** [s.strip()] *)
Definition strip (s : chars) : chars := rev (lstrip (rev (lstrip s))).

Fixpoint starts_with (p s : chars) : bool :=
  match p, s with
  | [], _ => true
  | a :: p', b :: s' => Ascii.eqb a b && starts_with p' s'
  | _ :: _, [] => false
  end.

(** [s.replace(old, new)] for a non-empty [old]: the occurrences are
    taken from the left and do not overlap; [skip] counts the characters
    of the occurrence being replaced that are still to be dropped. *)
Fixpoint replace_from (old new s : chars) (skip : nat) : chars :=
  match s with
  | [] => []
  | c :: s' =>
      match skip with
      | S n => replace_from old new s' n
      | O => if starts_with old s
             then new ++ replace_from old new s' (length old - 1)
             else c :: replace_from old new s' 0
      end
  end.

Definition replace (old new s : chars) : chars := replace_from old new s 0.

(** [os.path.basename] on POSIX: what follows the last slash. *)
Definition basename (s : chars) : chars := last_segment "/"%char s.

End Text.

(** ** Regular expressions

    The patterns of the source are built from literals, character classes,
    concatenation, alternation, optional parts, capture groups and greedy
    repetition of a single character class.  The matcher is the
    backtracking one of Python's [re]: alternatives are tried from the
    left, quantifiers take as much as they can and give back one character
    at a time, and the first way of matching that lets the rest of the
    pattern succeed wins. *)

Module Re.
Import Text.

Inductive regex :=
| Str (l : chars)                 (* a literal sequence *)
| Class (p : ascii -> bool)       (* one character of a class *)
| Cat (r1 r2 : regex)
| Alt (r1 r2 : regex)             (* r1|r2 *)
| Opt (r : regex)                 (* r? *)
| Many0 (p : ascii -> bool)       (* [..]* *)
| Many1 (p : ascii -> bool)       (* [..]+ *)
| Group (i : nat) (r : regex).    (* the i-th capture group *)

(** The words of a pattern, independently of any matching strategy. *)
Inductive lang : regex -> chars -> Prop :=
| lang_str l : lang (Str l) l
| lang_class p c : p c = true -> lang (Class p) [c]
| lang_cat r1 r2 m1 m2 :
    lang r1 m1 -> lang r2 m2 -> lang (Cat r1 r2) (m1 ++ m2)
| lang_alt_l r1 r2 m : lang r1 m -> lang (Alt r1 r2) m
| lang_alt_r r1 r2 m : lang r2 m -> lang (Alt r1 r2) m
| lang_opt_skip r : lang (Opt r) []
| lang_opt_take r m : lang r m -> lang (Opt r) m
| lang_many0 p m : forallb p m = true -> lang (Many0 p) m
| lang_many1 p c m :
    p c = true -> forallb p m = true -> lang (Many1 p) (c :: m)
| lang_group i r m : lang r m -> lang (Group i r) m.

(** Group 0 is the whole match, as in [match.group(0)]. *)
Definition groups := list (option chars).

Section Matcher.
Context {R : Type}.

Fixpoint match_str (l s : chars) (k : chars -> option R) : option R :=
  match l with
  | [] => k s
  | a :: l' =>
      match s with
      | b :: s' => if Ascii.eqb a b then match_str l' s' k else None
      | [] => None
      end
  end.

(** Greedy repetition: first the longest run, then shorter ones. *)
Fixpoint many (p : ascii -> bool) (s : chars) (k : chars -> option R)
  : option R :=
  match s with
  | c :: s' =>
      if p c
      then match many p s' k with
           | Some x => Some x
           | None => k s
           end
      else k s
  | [] => k []
  end.

Fixpoint match_re (r : regex) (s : chars) (g : groups)
    (k : chars -> groups -> option R) {struct r} : option R :=
  match r with
  | Str l => match_str l s (fun rest => k rest g)
  | Class p =>
      match s with
      | c :: s' => if p c then k s' g else None
      | [] => None
      end
  | Cat r1 r2 => match_re r1 s g (fun s1 g1 => match_re r2 s1 g1 k)
  | Alt r1 r2 =>
      match match_re r1 s g k with
      | Some x => Some x
      | None => match_re r2 s g k
      end
  | Opt r1 =>
      match match_re r1 s g k with
      | Some x => Some x
      | None => k s g
      end
  | Many0 p => many p s (fun rest => k rest g)
  | Many1 p =>
      match s with
      | c :: s' => if p c then many p s' (fun rest => k rest g) else None
      | [] => None
      end
  | Group i r1 =>
      match_re r1 s g
        (fun rest g' =>
           k rest (<[i := Some (take (length s - length rest) s)]> g'))
  end.
End Matcher.

(** A match anchored at the head of [s]: what is left of [s] and the
    groups. [n] is the number of capture groups of the pattern. *)
Definition match_here (r : regex) (n : nat) (s : chars)
  : option (chars * groups) :=
  match_re r s (replicate (S n) None)
    (fun rest g =>
       Some (rest, <[O := Some (take (length s - length rest) s)]> g)).

(** [re.search]: the leftmost position with a match. *)
Fixpoint search (r : regex) (n : nat) (s : chars) : option groups :=
  match match_here r n s with
  | Some (_, g) => Some g
  | None =>
      match s with
      | [] => None
      | _ :: s' => search r n s'
      end
  end.

(** [match.group(i)] *)
Definition group (g : groups) (i : nat) : chars :=
  match g !! i with
  | Some (Some x) => x
  | _ => []
  end.

(** [pattern.sub(repl, s)] for a replacement without group references:
    matches are taken from the left and do not overlap; after an empty
    match the scan copies one character.  [skip] counts the characters of
    the current match still to be dropped. *)
Fixpoint sub_from (r : regex) (n : nat) (repl s : chars) (skip : nat)
  : chars :=
  match s with
  | [] =>
      match skip, match_here r n [] with
      | O, Some _ => repl
      | _, _ => []
      end
  | c :: s' =>
      match skip with
      | S j => sub_from r n repl s' j
      | O =>
          match match_here r n s with
          | Some (rest, _) =>
              match (length s - length rest)%nat with
              | O => repl ++ c :: sub_from r n repl s' 0
              | S j => repl ++ sub_from r n repl s' j
              end
          | None => c :: sub_from r n repl s' 0
          end
      end
  end.

Definition sub (r : regex) (n : nat) (repl s : chars) : chars :=
  sub_from r n repl s 0.

End Re.

(** ** The two patterns of the source *)

Import Text Re.

(** [r'(/mpd-cenc\.ism)/(web|ctv)?(\.mpd)'] *)
Definition mediaset_pattern : regex :=
  Cat (Group 1 (Str (of_string "/mpd-cenc.ism")))
  (Cat (Str (of_string "/"))
  (Cat (Opt (Group 2 (Alt (Str (of_string "web")) (Str (of_string "ctv")))))
       (Group 3 (Str (of_string ".mpd"))))).

Definition mediaset_replacement : chars := of_string "/main.ism/picky.m3u8".

(** [transform_mediaset_url] (lines 64-69); the log line is left out. *)
Definition transform_mediaset_url (url : string) : string :=
  match search mediaset_pattern 3 (of_string url) with
  | Some _ =>
      to_string (sub mediaset_pattern 3 mediaset_replacement (of_string url))
  | None => url
  end.

(** [r'\[download\]\s+([0-9.]+)\%\s+of\s+~?\s*([\d.]+\w+)\s+at\s+([\d.]+\w+/s)\s+ETA\s+([\d:]+)'] *)
Definition digit_or_dot (c : ascii) : bool := is_digit c || Ascii.eqb c ".".
Definition digit_or_colon (c : ascii) : bool := is_digit c || Ascii.eqb c ":".

Definition progress_pattern : regex :=
  Cat (Str (of_string "[download]"))
  (Cat (Many1 is_space)
  (Cat (Group 1 (Many1 (is_one_of "0123456789.")))
  (Cat (Str (of_string "%"))
  (Cat (Many1 is_space)
  (Cat (Str (of_string "of"))
  (Cat (Many1 is_space)
  (Cat (Opt (Str (of_string "~")))
  (Cat (Many0 is_space)
  (Cat (Group 2 (Cat (Many1 digit_or_dot) (Many1 is_word)))
  (Cat (Many1 is_space)
  (Cat (Str (of_string "at"))
  (Cat (Many1 is_space)
  (Cat (Group 3 (Cat (Many1 digit_or_dot)
                (Cat (Many1 is_word) (Str (of_string "/s")))))
  (Cat (Many1 is_space)
  (Cat (Str (of_string "ETA"))
  (Cat (Many1 is_space)
       (Group 4 (Many1 digit_or_colon)))))))))))))))))).

(** ** Python numbers *)

Module Py.

Inductive exn :=
| ValueError
| OverflowError
| ZeroDivisionError
| IndexError
| FileNotFoundError
| NoSuchProcess                  (* psutil.NoSuchProcess *)
| External (what : string).      (* raised by a library or a service *)

Inductive result (A : Type) :=
| Ok (a : A)
| Raise (e : exn).
Arguments Ok {A} a.
Arguments Raise {A} e.

Definition prec : Z := 53.
Definition emax : Z := 1024.

Inductive number :=
| Int (z : Z)
| Float (f : spec_float).

(** The binary64 value nearest to [p/q] (ties to even), for [0 <= p] and
    [0 < q]. *)
Definition nearest_ratio (p q : Z) : spec_float :=
  if p =? 0 then S754_zero false
  else let '(m, e, l) := SFdiv_core_binary prec emax p 0 q 0 in
       binary_round_aux prec emax false m e l.

Definition finite_or_overflow (f : spec_float) : result spec_float :=
  match f with
  | S754_infinity _ => Raise OverflowError
  | _ => Ok f
  end.

(** [float(n)] for an [int]. *)
Definition float_of_int (n : Z) : result spec_float :=
  finite_or_overflow (binary_normalize prec emax n 0 false).

(** [a / b] on two [int]s: the correctly rounded quotient. *)
Definition int_truediv (a b : Z) : result spec_float :=
  if b =? 0 then Raise ZeroDivisionError
  else
    let f := nearest_ratio (Z.abs a) (Z.abs b) in
    let negative :=
      if a =? 0 then b <? 0 else Z.sgn a * Z.sgn b =? -1 in
    finite_or_overflow (if negative then SFopp f else f).

Definition is_zero (f : spec_float) : bool :=
  match f with S754_zero _ => true | _ => false end.

(** [x / y] on two [float]s. *)
Definition float_div (x y : spec_float) : result spec_float :=
  if is_zero y then Raise ZeroDivisionError
  else Ok (SFdiv prec emax x y).

Definition float_mul (x y : spec_float) : spec_float := SFmul prec emax x y.
Definition float_sub (x y : spec_float) : spec_float := SFsub prec emax x y.

(** [x > 0] *)
Definition float_pos (x : spec_float) : bool := SFltb (S754_zero false) x.

(** [int(x)] on a [float]: truncation towards zero. *)
Definition int_of_float (x : spec_float) : result Z :=
  match x with
  | S754_zero _ => Ok 0
  | S754_infinity _ => Raise OverflowError
  | S754_nan => Raise ValueError
  | S754_finite s m e =>
      let a := match e with
               | Z.neg k => Z.shiftr (Z.pos m) (Z.pos k)
               | _ => Z.shiftl (Z.pos m) e
               end in
      Ok (if s then - a else a)
  end.

Definition digit_value (c : ascii) : Z := Z.of_N (Text.code c) - 48.

Definition decimal_value (ds : Text.chars) : Z :=
  fold_left (fun acc c => 10 * acc + digit_value c) ds 0.

Fixpoint span_digits (s : Text.chars) : Text.chars * Text.chars :=
  match s with
  | c :: s' =>
      if Text.is_digit c
      then let '(ds, rest) := span_digits s' in (c :: ds, rest)
      else ([], s)
  | [] => ([], [])
  end.

(** [float(s)] on the words that group 1 of the progress pattern can
    hold (digits and dots): digits with at most one dot and at least one
    digit, anything else is a ValueError.  The value is the binary64
    number nearest to the decimal, infinity when it is too large. *)
Definition float_of_str (s : Text.chars) : result spec_float :=
  let '(ip, rest) := span_digits s in
  match rest with
  | [] =>
      match ip with
      | [] => Raise ValueError
      | _ => Ok (nearest_ratio (decimal_value ip) 1)
      end
  | c :: fp =>
      if Ascii.eqb c "." && forallb Text.is_digit fp
         && negb (Nat.eqb (length ip + length fp) 0)
      then Ok (nearest_ratio (decimal_value (ip ++ fp))
                             (10 ^ Z.of_nat (length fp)))
      else Raise ValueError
  end.

Definition hundred : spec_float := binary_normalize prec emax 100 0 false.

End Py.

Import Py.

(** ** Helpers of the source (lines 53-54) *)

(** [create_progress_bar]: twenty cells, [true] for a filled one. *)
Definition create_progress_bar (percentage : Z) : list bool :=
  map (fun i => Z.of_nat i <? percentage / 5) (seq 0 20).

(** ** Progress of the two phases *)

(** Lines 226-230: the frame is searched for the progress pattern and the
    percentage is [int(float(match.group(1)))]. *)
Record snapshot := Snapshot {
  snap_percent : Z;
  snap_size : string;
  snap_rate : string;
  snap_eta : string;
}.

Definition parse_download_line (line : chars) : result (option snapshot) :=
  match search progress_pattern 4 line with
  | None => Ok None
  | Some g =>
      match float_of_str (group g 1) with
      | Raise e => Raise e
      | Ok f =>
          match int_of_float f with
          | Raise e => Raise e
          | Ok pct =>
              Ok (Some (Snapshot pct (to_string (group g 2))
                                 (to_string (group g 3))
                                 (to_string (group g 4))))
          end
      end
  end.

(** Lines 157-162: the speed and the percentage of an upload status. *)
Definition upload_speed (bytes_done previous_bytes_done : Z)
    (elapsed_time : spec_float) : result number :=
  let bytes_since_last := bytes_done - previous_bytes_done in
  if float_pos elapsed_time
  then match float_of_int bytes_since_last with
       | Raise e => Raise e
       | Ok b => match float_div b elapsed_time with
                 | Raise e => Raise e
                 | Ok f => Ok (Float f)
                 end
       end
  else Ok (Int 0).

Definition upload_percentage (bytes_done bytes_total : Z) : result Z :=
  match int_truediv bytes_done bytes_total with
  | Raise e => Raise e
  | Ok q => int_of_float (float_mul q hundred)
  end.

Definition parse_upload_status (bytes_done bytes_total previous_bytes_done : Z)
    (elapsed_time : spec_float) : result (Z * number) :=
  match upload_speed bytes_done previous_bytes_done elapsed_time with
  | Raise e => Raise e
  | Ok speed =>
      match upload_percentage bytes_done bytes_total with
      | Raise e => Raise e
      | Ok percentage => Ok (percentage, speed)
      end
  end.

(** ** The world, the events and the coroutine monad *)

(** A [Message] is identified by its [message_id], a subprocess by its
    pid. *)
Definition response := gmap string string.

(** What is shown to the operator; one constructor per message template
    of the source, holding what the template interpolates. *)
Inductive text :=
| TStarting (file_name : string)                              (* l.195 *)
| TDownloading (file_name : string) (bar : list bool) (pct : Z)
    (size speed eta : string)                                 (* l.233-238 *)
| TDownloadComplete (file_name : string)                      (* l.256 *)
| TCompleted (file_name : string)
    (view_link file_id : option string)                       (* l.262-269 *)
| TDownloadError (file_name : string) (stderr_text : string)  (* l.273 *)
| TUnexpected (file_name : string) (e : exn)                  (* l.278 *)
| TAuthFailed                                                 (* l.133 *)
| TUploading (name : string) (bar : list bool) (pct : Z)
    (uploaded total : Z) (speed : number)                     (* l.164-169 *)
| TUploadError (name : string) (e : exn)                      (* l.185 *)
| TCancelled (name : string)                                  (* l.372 *)
| TAlreadyFinished                                            (* l.374 *)
| TNoActiveDownload.                                          (* l.376 *)

Inductive log_line :=
| LUploadStart (name task_id : string)                        (* l.139 *)
| LUploadCancelled (task_id : string)                         (* l.151 *)
| LUploadProgressNotShown (task_id : string) (e : exn)        (* l.174 *)
| LUploadError (task_id : string) (e : exn)                   (* l.182 *)
| LToolStart (task_id : string) (cmd : list string)           (* l.207 *)
| LCancelledWhileDownloading (task_id : string)               (* l.217 *)
| LDownloadProgressNotShown (task_id : string) (e : exn)      (* l.244 *)
| LCancelledAfterDownload (task_id : string)                  (* l.250 *)
| LTaskError (task_id : string) (e : exn)                     (* l.276 *)
| LTempFileRemoved (file task_id : string)                    (* l.283 *)
| LProcessCancelled (task_id : string)                        (* l.366 *)
| LProcessGone (task_id : string)                             (* l.368 *)
| LHandlerError (e : exn).                                    (* l.379 *)

Inductive event :=
| EvEdit (message : Z) (t : text) (delivered : bool)  (* msg.edit_text *)
| EvAnswer (delivered : bool)                         (* query.answer *)
| EvQueryEdit (t : text) (delivered : bool)     (* query.edit_message_text *)
| EvLog (l : log_line)
| EvSpawn (cmd : list string)          (* asyncio.create_subprocess_exec *)
| EvAuthenticate                       (* authenticate_drive *)
| EvUploadRequest (name file : string) (* service.files().create *)
| EvNextChunk                          (* request.next_chunk *)
| EvTerminate (pid : Z)                (* terminate() of psutil *)
| EvRemove (file : string).            (* os.remove *)

Record world := World {
  active_processes : gmap string (Z * string);
  progress_messages : gmap string Z;
  files : gset string;                  (* the paths that exist *)
}.

Definition M (A : Type) : Type := world -> result A * world * list event.

Definition ret {A} (a : A) : M A := fun w => (Ok a, w, []).

Definition raise {A} (e : exn) : M A := fun w => (Raise e, w, []).

Definition bind {A B} (m : M A) (f : A -> M B) : M B :=
  fun w =>
    match m w with
    | (Ok a, w1, ev1) => let '(r, w2, ev2) := f a w1 in (r, w2, ev1 ++ ev2)
    | (Raise e, w1, ev1) => (Raise e, w1, ev1)
    end.

Notation "'let!' x ':=' m 'in' k" := (bind m (fun x => k))
  (at level 10, x pattern, m at level 100, k at level 200).
Notation "m '>>' k" := (bind m (fun _ => k))
  (at level 100, k at level 200, right associativity).

(** [try: m except Exception as e: h e] *)
Definition try_except {A} (m : M A) (h : exn -> M A) : M A :=
  fun w =>
    match m w with
    | (Ok a, w1, ev1) => (Ok a, w1, ev1)
    | (Raise e, w1, ev1) => let '(r, w2, ev2) := h e w1 in (r, w2, ev1 ++ ev2)
    end.

(** [try: m finally: f]; what [f] raises replaces the outcome of [m]. *)
Definition finally {A} (m : M A) (f : M unit) : M A :=
  fun w =>
    let '(r, w1, ev1) := m w in
    match f w1 with
    | (Ok _, w2, ev2) => (r, w2, ev1 ++ ev2)
    | (Raise e, w2, ev2) => (Raise e, w2, ev1 ++ ev2)
    end.

Definition lift {A} (r : result A) : M A := fun w => (r, w, []).

Definition emit (e : event) : M unit := fun w => (Ok tt, w, [e]).

Definition log (l : log_line) : M unit := emit (EvLog l).

Definition get : M world := fun w => (Ok w, w, []).

Definition put (w : world) : M unit := fun _ => (Ok tt, w, []).

(** [task_id in active_processes] *)
Definition is_active (task_id : string) : M bool :=
  let! w := get in ret (bool_decide (is_Some (active_processes w !! task_id))).

(** [task_id in progress_messages] *)
Definition has_progress_message (task_id : string) : M bool :=
  let! w := get in ret (bool_decide (is_Some (progress_messages w !! task_id))).

(** [active_processes[task_id] = v] *)
Definition set_active (task_id : string) (v : Z * string) : M unit :=
  let! w := get in
  put (World (<[task_id := v]> (active_processes w))
             (progress_messages w) (files w)).

(** [active_processes.pop(task_id, None)] *)
Definition pop_active (task_id : string) : M (option (Z * string)) :=
  let! w := get in
  put (World (delete task_id (active_processes w))
             (progress_messages w) (files w)) >>
  ret (active_processes w !! task_id).

(** [progress_messages.pop(task_id, None)] *)
Definition pop_progress_message (task_id : string) : M (option Z) :=
  let! w := get in
  put (World (active_processes w)
             (delete task_id (progress_messages w)) (files w)) >>
  ret (progress_messages w !! task_id).

(** [os.path.exists(path)] *)
Definition path_exists (path : string) : M bool :=
  let! w := get in ret (bool_decide (path ∈ files w)).

(** [os.remove(path)] of a path that exists.  The removal itself is taken
    to succeed here; where the cancel handler removes the partial file
    ([remove_partial]) the call may also raise. *)
Definition remove (path : string) : M unit :=
  let! w := get in
  put (World (active_processes w) (progress_messages w)
             (files w ∖ {[path]})) >>
  emit (EvRemove path).

(** *** The cancel handler (lines 353-376)

    The handler is run as one step: what it does after popping the two
    entries (signals, the file, the message) does not depend on what the
    task does while the handler waits for the process to exit.

    A callback query brings its data and, for each call the handler makes
    to the outside, how that call ends: the acknowledgement, the calls to
    psutil inside the [try] of lines 361-368 (the lookup of the pid, the
    descendants found by [children(recursive=True)] with the end of
    [terminate()] on each of them, [terminate()] on the process itself,
    [process.wait()]), [os.remove] and the edit of the message. *)
Record cancel_query := CancelQuery {
  cq_data : string;
  cq_answer : result unit;              (* l.355 *)
  cq_lookup : result unit;              (* l.362, psutil.Process(pid) *)
  cq_children : result (list (Z * result unit));      (* l.363 *)
  cq_parent : result unit;              (* l.364, parent.terminate() *)
  cq_wait : result unit;                (* l.365 *)
  cq_remove : result unit;              (* l.370 *)
  cq_edit : result unit;                (* l.372, 374 or 376 *)
}.

Definition delivered {A} (r : result A) : bool :=
  match r with Ok _ => true | Raise _ => false end.

Definition cancel_task_id (data : string) : result string :=
  match after_first "_" (of_string data) with
  | Some t => Ok (to_string t)
  | None => Raise IndexError
  end.

Definition cancelled_name (filename : string) : string :=
  to_string (replace (of_string ".mp4") [] (basename (of_string filename))).

(** [p.terminate()]: the signal has been sent when the call returns. *)
Definition terminate (pid : Z) (r : result unit) : M unit :=
  lift r >> emit (EvTerminate pid).

(** [for child in parent.children(recursive=True): child.terminate()] *)
Fixpoint terminate_all (children : list (Z * result unit)) : M unit :=
  match children with
  | [] => ret tt
  | (child, r) :: rest => terminate child r >> terminate_all rest
  end.

(** Lines 361-368: the [try] and its [except psutil.NoSuchProcess], which
    catches that exception and lets every other one pass. *)
Definition teardown (q : cancel_query) (process : Z) (task_id : string)
  : M unit :=
  try_except
    (lift (cq_lookup q) >>
     let! children := lift (cq_children q) in
     terminate_all children >>
     terminate process (cq_parent q) >>
     lift (cq_wait q) >>
     log (LProcessCancelled task_id))
    (fun e =>
       match e with
       | NoSuchProcess => log (LProcessGone task_id)
       | _ => raise e
       end).

(** Lines 369-370: [if os.path.exists(filename): os.remove(filename)],
    where [os.remove] ends as the query says. *)
Definition remove_partial (q : cancel_query) (filename : string) : M unit :=
  let! there := path_exists filename in
  if there then lift (cq_remove q) >> remove filename else ret tt.

Definition cancel_any_download (q : cancel_query) : M unit :=
  emit (EvAnswer (delivered (cq_answer q))) >>
  lift (cq_answer q) >>
  let! task_id := lift (cancel_task_id (cq_data q)) in
  let! process_info := pop_active task_id in
  let! msg_to_edit := pop_progress_message task_id in
  match process_info with
  | Some (process, filename) =>
      teardown q process task_id >>
      remove_partial q filename >>
      match msg_to_edit with
      | Some m =>
          emit (EvEdit m (TCancelled (cancelled_name filename))
                       (delivered (cq_edit q))) >>
          lift (cq_edit q)
      | None => ret tt
      end
  | None =>
      match msg_to_edit with
      | Some m =>
          emit (EvEdit m TAlreadyFinished (delivered (cq_edit q))) >>
          lift (cq_edit q)
      | None =>
          emit (EvQueryEdit TNoActiveDownload (delivered (cq_edit q))) >>
          lift (cq_edit q)
      end
  end.

(** *** Awaiting

    While a coroutine is suspended other things happen: the operator's
    cancel callbacks are handled, and the retrieval process writes files.
    A handler that raises is reported by [error_handler] (line 379). *)
Inductive happening :=
| HCancel (q : cancel_query)
| HFile (path : string).            (* the path comes into existence *)

Definition happen (h : happening) : M unit :=
  match h with
  | HCancel q =>
      try_except (cancel_any_download q) (fun e => log (LHandlerError e))
  | HFile path =>
      let! w := get in
      put (World (active_processes w) (progress_messages w)
                 ({[path]} ∪ files w))
  end.

Record awaited (A : Type) := Awaited {
  meanwhile : list happening;
  outcome : result A;
}.
Arguments Awaited {A} meanwhile outcome.
Arguments meanwhile {A} a.
Arguments outcome {A} a.

Definition happen_all (hs : list happening) : M unit :=
  fold_right (fun h k => happen h >> k) (ret tt) hs.

Definition await {A} (a : awaited A) : M A :=
  happen_all (meanwhile a) >> lift (outcome a).

(** [await msg.edit_text(t, ...)] *)
Definition edit_text (message : Z) (t : text) (a : awaited unit) : M unit :=
  emit (EvEdit message t (delivered (outcome a))) >> await a.

(** *** The upload driver (lines 129-187)

    [authenticate_drive] is an outside collaborator: the environment says
    whether it returned a service.  The progress text shows the sizes and
    the speed through [human_readable_size], whose arithmetic
    ([math.log], [round]) is not embedded: the text holds the numbers, and
    the environment says whether the formatting raised ([cs_format]).
    [u_steps] are the calls of [next_chunk] that leave the upload
    unfinished; [u_last] is the call that returns the response of the
    storage service. *)
Record chunk_step (A : Type) := ChunkStep {
  cs_chunk : awaited A;                 (* l.154 *)
    cs_time : spec_float;                 (* l.157, time.time() *)
  cs_format : result unit;              (* l.164-169 *)
  cs_edit : awaited unit;               (* l.172 *)
}.
Arguments ChunkStep {A} cs_chunk cs_time cs_format cs_edit.
Arguments cs_chunk {A} c.
Arguments cs_time {A} c.
Arguments cs_format {A} c.
Arguments cs_edit {A} c.

Record upload_env := UploadEnv {
  u_auth : awaited bool;                (* l.131: a service was obtained *)
  u_auth_edit : awaited unit;           (* l.133 *)
  u_size : Z;                           (* media.size() *)
  u_start_time : spec_float;            (* l.146, time.time() *)
  u_steps : list (chunk_step (option Z));
  u_last : chunk_step (option Z * response);
  u_error_edit : awaited unit;          (* l.185 *)
}.

(** The loop condition of line 150. *)
Definition upload_cancelled (task_id : string) (message : Z) : M bool :=
  let! w := get in
  ret (negb (bool_decide (is_Some (active_processes w !! task_id)))
       && negb (bool_decide
                  (message ∈ (map_to_list (progress_messages w)).*2))).

(** Lines 171-174: the upload progress goes to the message; a failure of
    the edit is logged as a warning. *)
Definition notify_upload (message : Z) (task_id : string) (t : text)
    (edit : awaited unit) : M unit :=
  try_except (edit_text message t edit)
             (fun e => log (LUploadProgressNotShown task_id e)).

(** Lines 239-244: the same for the download progress. *)
Definition notify_download (message : Z) (task_id : string) (t : text)
    (edit : awaited unit) : M unit :=
  try_except (edit_text message t edit)
             (fun e => log (LDownloadProgressNotShown task_id e)).

(** Lines 156-177 for a status object: the new values of
    [last_uploaded_bytes] and [last_update_time]. *)
Definition show_upload_status (message : Z) (drive_file_name task_id : string)
    (size : Z) (status : option Z) (current_time : spec_float)
    (format : result unit) (edit : awaited unit) (last_uploaded_bytes : Z)
    (last_update_time : spec_float) : M (Z * spec_float) :=
  match status with
  | None => ret (last_uploaded_bytes, last_update_time)
  | Some resumable_progress =>
      let elapsed_time := float_sub current_time last_update_time in
      let! (percentage, speed) :=
        lift (parse_upload_status resumable_progress size
                                  last_uploaded_bytes elapsed_time) in
      lift format >>
      notify_upload message task_id
        (TUploading drive_file_name (create_progress_bar percentage)
                    percentage resumable_progress size speed) edit >>
      ret (resumable_progress, current_time)
  end.

Fixpoint upload_loop (u : upload_env) (message : Z)
    (drive_file_name task_id : string)
    (steps : list (chunk_step (option Z)))
    (last_uploaded_bytes : Z) (last_update_time : spec_float)
  : M (option response) :=
  let! cancelled := upload_cancelled task_id message in
  if cancelled then log (LUploadCancelled task_id) >> ret None
  else
    match steps with
    | step :: steps' =>
        emit EvNextChunk >>
        let! status := await (cs_chunk step) in
        let! (bytes, time) :=
          show_upload_status message drive_file_name task_id (u_size u)
            status (cs_time step) (cs_format step) (cs_edit step)
            last_uploaded_bytes last_update_time in
        upload_loop u message drive_file_name task_id steps' bytes time
    | [] =>
        emit EvNextChunk >>
        let! (status, response) := await (cs_chunk (u_last u)) in
        show_upload_status message drive_file_name task_id (u_size u)
          status (cs_time (u_last u)) (cs_format (u_last u))
          (cs_edit (u_last u))
          last_uploaded_bytes last_update_time >>
        ret (Some response)
    end.

Definition upload_with_progress (u : upload_env) (message : Z)
    (file_path drive_file_name task_id : string) : M (option response) :=
  try_except
    (emit EvAuthenticate >>
     let! service := await (u_auth u) in
     if negb service
     then edit_text message TAuthFailed (u_auth_edit u) >> ret None
     else
       (* MediaFileUpload opens the file *)
       let! there := path_exists file_path in
       if negb there then raise FileNotFoundError
       else
         log (LUploadStart drive_file_name task_id) >>
         emit (EvUploadRequest drive_file_name file_path) >>
         upload_loop u message drive_file_name task_id (u_steps u)
                     0 (u_start_time u))
    (fun e =>
       log (LUploadError task_id e) >>
       let! shown := has_progress_message task_id in
       (if shown
        then try_except
               (edit_text message (TUploadError drive_file_name e)
                          (u_error_edit u))
               (fun _ => ret tt)
        else ret tt) >>
       ret None).

(** *** The task (lines 189-283) *)
Record read_step := ReadStep {
  rs_read : awaited (option string);    (* l.220-222 *)
  rs_edit : awaited unit;               (* l.240 *)
}.

Record env := Env {
  e_start_edit : awaited unit;          (* l.194 *)
  e_spawn : awaited Z;                  (* l.208: the pid *)
  e_reads : list read_step;             (* the turns of the loop *)
  e_wait : awaited Z;                   (* l.247: the return code *)
  e_complete_edit : awaited unit;       (* l.256 *)
  e_upload : upload_env;                (* l.257 *)
  e_final_edit : awaited unit;          (* l.266 *)
  e_stderr : awaited string;            (* l.271, after decoding *)
  e_failure_edit : awaited unit;        (* l.273 *)
  e_error_edit : awaited unit;          (* l.278 *)
}.

Definition carriage_return : ascii := ascii_of_nat 13.

(** Lines 215-245.  A read returns [None] for the empty chunk that ends
    the output, and otherwise the text that the chunk decodes to; the
    output also ends when the turns are used up. *)
Fixpoint download_loop (message : Z) (file_name task_id : string)
    (reads : list read_step) (buffer : chars) (last_update_pct : Z)
  : M unit :=
  let! active := is_active task_id in
  if negb active then log (LCancelledWhileDownloading task_id)
  else
    match reads with
    | [] => ret tt
    | step :: reads' =>
        let! chunk := await (rs_read step) in
        match chunk with
        | None => ret tt
        | Some text =>
            let buffer := buffer ++ of_string text in
            if contains_char carriage_return buffer
            then
              let last_line := last_segment carriage_return buffer in
              let! found := lift (parse_download_line last_line) in
              let! pct :=
                match found with
                | Some snap =>
                    let pct := snap_percent snap in
                    if pct >? last_update_pct
                    then
                      notify_download message task_id
                        (TDownloading file_name (create_progress_bar pct)
                           pct (snap_size snap) (snap_rate snap)
                           (snap_eta snap))
                        (rs_edit step) >>
                      ret pct
                    else ret last_update_pct
                | None => ret last_update_pct
                end in
              download_loop message file_name task_id reads'
                            (last_segment carriage_return buffer) pct
            else
              download_loop message file_name task_id reads'
                            buffer last_update_pct
        end
    end.

(** Lines 255-273: what follows a download that was not cancelled. *)
Definition conclude_download (e : env) (message : Z)
    (file_name task_id output_filename : string) (returncode : Z) : M unit :=
  let! there := path_exists output_filename in
  if (returncode =? 0) && there
  then
    edit_text message (TDownloadComplete file_name) (e_complete_edit e) >>
    let! uploaded_file :=
      upload_with_progress (e_upload e) message
                           output_filename output_filename task_id in
    match uploaded_file with
    | Some r =>
        if bool_decide (r = ∅) then ret tt
        else edit_text message
               (TCompleted file_name (r !! "webViewLink") (r !! "id"))
               (e_final_edit e)
    | None => ret tt
    end
  else
    let! raw := await (e_stderr e) in
    let stderr_text := strip (of_string raw) in
    let! shown := has_progress_message task_id in
    if shown
    then edit_text message
           (TDownloadError file_name (to_string (take 1000 stderr_text)))
           (e_failure_edit e)
    else ret tt.

Definition command_line (quality_param : list string)
    (output_filename url_to_download : string) : list string :=
  ["yt-dlp"] ++ quality_param ++
  ["--remux-video"; "mp4";
   "--add-header"; "Origin: https://www.mediasetinfinity.es";
   "--add-header"; "Referer: https://www.mediasetinfinity.es";
   "-o"; output_filename; url_to_download].

(** Lines 194-211: the message is updated, the retrieval process is
    spawned and registered. *)
Definition start_download (e : env) (url : string)
    (quality_param : list string) (file_name task_id : string)
    (initial_msg : Z) (output_filename : string) : M unit :=
  edit_text initial_msg (TStarting file_name) (e_start_edit e) >>
  let url_to_download := transform_mediaset_url url in
  let cmd_list := command_line quality_param output_filename url_to_download in
  log (LToolStart task_id cmd_list) >>
  emit (EvSpawn cmd_list) >>
  let! process := await (e_spawn e) in
  set_active task_id (process, output_filename).

(** Lines 213-247: the output is followed until it ends, then the exit of
    the process is awaited; the value is the return code. *)
Definition watch_download (e : env) (file_name task_id : string)
    (initial_msg : Z) : M Z :=
  download_loop initial_msg file_name task_id (e_reads e) [] (-1) >>
  await (e_wait e).

(** Lines 194-273, the body of the [try]. *)
Definition pipeline (e : env) (url : string) (quality_param : list string)
    (file_name task_id : string) (initial_msg : Z) (output_filename : string)
  : M unit :=
  start_download e url quality_param file_name task_id initial_msg
                 output_filename >>
  let! returncode := watch_download e file_name task_id initial_msg in
  let! active := is_active task_id in
  if negb active then log (LCancelledAfterDownload task_id)
  else
    pop_active task_id >>
    conclude_download e initial_msg file_name task_id output_filename
                      returncode.

(** Lines 275-278. *)
Definition on_error (e : env) (file_name task_id : string) (initial_msg : Z)
    (err : exn) : M unit :=
  log (LTaskError task_id err) >>
  let! shown := has_progress_message task_id in
  if shown
  then edit_text initial_msg (TUnexpected file_name err) (e_error_edit e)
  else ret tt.

(** Lines 279-283. *)
Definition finalize (task_id output_filename : string) : M unit :=
  pop_progress_message task_id >>
  let! there := path_exists output_filename in
  if there
  then remove output_filename >>
       log (LTempFileRemoved output_filename task_id)
  else ret tt.

Definition download_and_upload_task (e : env) (chat_id : Z) (url : string)
    (quality_param : list string) (file_name task_id : string)
    (initial_msg : Z) : M unit :=
  let output_filename := (file_name +:+ ".mp4")%string in
  finally
    (try_except
       (pipeline e url quality_param file_name task_id initial_msg
                 output_filename)
       (on_error e file_name task_id initial_msg))
    (finalize task_id output_filename).

(** ** Notions used to state the properties *)

(** The three shapes of the streaming-manifest suffix that
    [mediaset_pattern] stands for. *)
Definition manifest_forms : list chars :=
  map of_string
    ["/mpd-cenc.ism/web.mpd"; "/mpd-cenc.ism/ctv.mpd"; "/mpd-cenc.ism/.mpd"].

(** [p in s] for two strings. *)
Fixpoint occurs (p s : chars) : bool :=
  starts_with p s
  || match s with
     | [] => false
     | _ :: s' => occurs p s'
     end.

Definition has_manifest (url : string) : bool :=
  existsb (fun p => occurs p (of_string url)) manifest_forms.

(** No position of [t] starts a match of the manifest pattern. *)
Fixpoint manifest_free (t : chars) : Prop :=
  match_here mediaset_pattern 3 t = None
  /\ match t with
     | [] => True
     | _ :: t' => manifest_free t'
     end.

(** No non-empty suffix of [m] can be laid over the head of the
    replacement text. *)
Fixpoint clear_of_replacement (m : chars) : bool :=
  match m with
  | [] => true
  | _ :: m' =>
      negb (starts_with m mediaset_replacement)
      && negb (starts_with mediaset_replacement m)
      && clear_of_replacement m'
  end.


(** *** The progress grammar of the specification

    The specification describes the frames by their parts: a percentage
    (a float), an approximate total size (human-readable, as in 123.4MB),
    a rate (human-readable, per second) and an ETA (H:MM:SS or MM:SS).
    The grammar below follows those words, not the pattern of line 227,
    with which it is compared: a figure is a float written with digits and
    at most one point, a size is a figure followed by a unit of letters, a
    rate is a size followed by /s, and the ETA is two or three fields of
    digits separated by colons.  The literal parts and the spacing are
    those of the frames that the retrieval process prints. *)
Definition is_letter (c : ascii) : bool :=
  in_range 65 90 c || in_range 97 122 c.

Definition figure : regex :=
  Alt (Cat (Many1 is_digit)
           (Opt (Cat (Str (of_string ".")) (Many0 is_digit))))
      (Cat (Str (of_string ".")) (Many1 is_digit)).

Definition human_size : regex := Cat figure (Many1 is_letter).

Definition clock : regex :=
  Cat (Many1 is_digit)
  (Cat (Str (of_string ":"))
  (Cat (Many1 is_digit)
       (Opt (Cat (Str (of_string ":")) (Many1 is_digit))))).

Definition progress_grammar : regex :=
  Cat (Str (of_string "[download]"))
  (Cat (Many1 is_space)
  (Cat figure
  (Cat (Str (of_string "%"))
  (Cat (Many1 is_space)
  (Cat (Str (of_string "of"))
  (Cat (Many1 is_space)
  (Cat (Opt (Str (of_string "~")))
  (Cat (Many0 is_space)
  (Cat human_size
  (Cat (Many1 is_space)
  (Cat (Str (of_string "at"))
  (Cat (Many1 is_space)
  (Cat (Cat human_size (Str (of_string "/s")))
  (Cat (Many1 is_space)
  (Cat (Str (of_string "ETA"))
  (Cat (Many1 is_space) clock)))))))))))))))).

(** A frame of the progress grammar occurs in the line. *)
Definition matches_progress_grammar (line : chars) : Prop :=
  exists pre m post, line = pre ++ m ++ post /\ lang progress_grammar m.

(** [float(n)] for the small integers used in examples. *)
Definition float_of (n : Z) : spec_float :=
  binary_normalize prec emax n 0 false.

(** ** Runs and what they are made to respect *)

Definition value {A} (x : result A * world * list event) : result A := x.1.1.
Definition state {A} (x : result A * world * list event) : world := x.1.2.
Definition events {A} (x : result A * world * list event) : list event := x.2.

(** A discipline relates the world before a piece of code to the world
    after it and to the events emitted in between.  It is lawful when it
    is closed under doing nothing and under sequencing, accepts the three
    kinds of update that code other than the registration of line 211
    makes to the world, and accepts the cancel handler. *)
Definition discipline := world -> world -> list event -> Prop.

Record lawful (rel : discipline) (allowed : event -> Prop) : Prop := Lawful {
  law_refl : forall w, rel w w [];
  law_trans : forall w1 w2 w3 ev1 ev2,
      rel w1 w2 ev1 -> rel w2 w3 ev2 -> rel w1 w3 (ev1 ++ ev2);
  law_emit : forall w ev, allowed ev -> rel w w [ev];
  law_pop_active : forall w k,
      rel w (World (delete k (active_processes w))
                   (progress_messages w) (files w)) [];
  law_progress : forall w pm,
      rel w (World (active_processes w) pm (files w)) [];
  law_files : forall w fs,
      rel w (World (active_processes w) (progress_messages w) fs) [];
  law_cancel : forall q w,
      rel w (state (cancel_any_download q w))
            (events (cancel_any_download q w));
  law_handler_error : forall e, allowed (EvLog (LHandlerError e));
}.

Definition obeys (rel : discipline) {A} (m : M A) : Prop :=
  forall w, rel w (state (m w)) (events (m w)).

(** Only events of a given kind are emitted. *)
Definition only (kind : event -> Prop) : discipline :=
  fun _ _ evs => Forall kind evs.

(** The task has no process entry and none of its processes is torn
    down: once the entry is gone this stays so, and as long as the entry
    is there no teardown has happened. *)
Definition no_teardown (task_id : string) (ev : event) : Prop :=
  match ev with
  | EvLog (LProcessCancelled t) | EvLog (LProcessGone t) => t <> task_id
  | _ => True
  end.

Definition entry_guarded (task_id : string) : discipline :=
  fun w w' evs =>
    (is_Some (active_processes w' !! task_id) ->
     is_Some (active_processes w !! task_id)
     /\ Forall (no_teardown task_id) evs)
    /\ (active_processes w !! task_id = None ->
        active_processes w' !! task_id = None
        /\ Forall (no_teardown task_id) evs).

(** The events by the part of the program that emits them. *)
Definition handler_event (ev : event) : bool :=
  match ev with
  | EvAnswer _ | EvQueryEdit _ _ | EvTerminate _ | EvRemove _ => true
  | EvLog (LProcessCancelled _) | EvLog (LProcessGone _)
  | EvLog (LHandlerError _) => true
  | EvEdit _ (TCancelled _) _ | EvEdit _ TAlreadyFinished _ => true
  | _ => false
  end.

Definition upload_driver_event (ev : event) : bool :=
  match ev with
  | EvAuthenticate | EvUploadRequest _ _ | EvNextChunk => true
  | EvLog (LUploadStart _ _) | EvLog (LUploadCancelled _)
  | EvLog (LUploadProgressNotShown _ _) | EvLog (LUploadError _ _) => true
  | EvEdit _ TAuthFailed _ | EvEdit _ (TUploading _ _ _ _ _ _) _
  | EvEdit _ (TUploadError _ _) _ => true
  | _ => false
  end.

Definition download_driver_event (ev : event) : bool :=
  match ev with
  | EvSpawn _ => true
  | EvLog (LToolStart _ _) | EvLog (LCancelledWhileDownloading _)
  | EvLog (LDownloadProgressNotShown _ _)
  | EvLog (LCancelledAfterDownload _) => true
  | EvEdit _ (TStarting _) _ | EvEdit _ (TDownloading _ _ _ _ _ _) _ => true
  | _ => false
  end.

Definition orchestrator_event (ev : event) : bool :=
  match ev with
  | EvRemove _ => true
  | EvLog (LTaskError _ _) | EvLog (LTempFileRemoved _ _) => true
  | EvEdit _ (TDownloadComplete _) _ | EvEdit _ (TCompleted _ _ _) _
  | EvEdit _ (TDownloadError _ _) _ | EvEdit _ (TUnexpected _ _) _ => true
  | _ => false
  end.

(** An event of an upload attempt: authentication, the creation of the
    upload request, a chunk transfer. *)
Definition upload_event (ev : event) : bool :=
  match ev with
  | EvAuthenticate | EvUploadRequest _ _ | EvNextChunk => true
  | _ => false
  end.

Definition transfer_event (ev : event) : bool :=
  match ev with
  | EvUploadRequest _ _ | EvNextChunk => true
  | _ => false
  end.


(** The cancel handler found the process of the task and tore it down. *)
Definition teardown_of (task_id : string) (ev : event) : bool :=
  match ev with
  | EvLog (LProcessCancelled t) | EvLog (LProcessGone t) =>
      bool_decide (t = task_id)
  | _ => false
  end.

(** The percentages of the download progress updates handed to the
    notifier, and of those that reached the operator. *)
Definition forwarded_percent (ev : event) : option Z :=
  match ev with
  | EvEdit _ (TDownloading _ _ pct _ _ _) _ => Some pct
  | _ => None
  end.

Definition rendered_percent (ev : event) : option Z :=
  match ev with
  | EvEdit _ (TDownloading _ _ pct _ _ _) true => Some pct
  | _ => None
  end.

Definition forwarded_percents (evs : list event) : list Z :=
  omap forwarded_percent evs.

Definition rendered_percents (evs : list event) : list Z :=
  omap rendered_percent evs.

(** The cancel handler in closed form, for an acknowledged query about
    task [t]: the outcome, the world and the events.

    The signals that reach the children (those before the first
    [terminate()] that raises) and how the loop over them ends. *)
Fixpoint signalled (children : list (Z * result unit)) : list event :=
  match children with
  | (child, Ok _) :: rest => EvTerminate child :: signalled rest
  | _ => []
  end.

Fixpoint signalling (children : list (Z * result unit)) : result unit :=
  match children with
  | [] => Ok tt
  | (_, Ok _) :: rest => signalling rest
  | (_, Raise e) :: _ => Raise e
  end.

(** The body of the [try] of lines 361-368. *)
Definition teardown_attempt (q : cancel_query) (t : string) (process : Z)
  : result unit * list event :=
  match cq_lookup q with
  | Raise e => (Raise e, [])
  | Ok _ =>
  match cq_children q with
  | Raise e => (Raise e, [])
  | Ok children =>
  match signalling children with
  | Raise e => (Raise e, signalled children)
  | Ok _ =>
  match cq_parent q with
  | Raise e => (Raise e, signalled children)
  | Ok _ =>
  match cq_wait q with
  | Raise e => (Raise e, signalled children ++ [EvTerminate process])
  | Ok _ =>
      (Ok tt,
       signalled children
       ++ [EvTerminate process; EvLog (LProcessCancelled t)])
  end end end end end.

Definition teardown_value (q : cancel_query) (t : string) (process : Z)
  : result unit :=
  match teardown_attempt q t process with
  | (Raise NoSuchProcess, _) => Ok tt
  | (r, _) => r
  end.

Definition teardown_events (q : cancel_query) (t : string) (process : Z)
  : list event :=
  match teardown_attempt q t process with
  | (Raise NoSuchProcess, evs) => evs ++ [EvLog (LProcessGone t)]
  | (_, evs) => evs
  end.

Definition cancel_outcome (q : cancel_query) (t : string) (w : world)
  : result unit * world * list event :=
  let d := delivered (cq_edit q) in
  let popped := World (delete t (active_processes w))
                      (delete t (progress_messages w)) (files w) in
  match active_processes w !! t with
  | Some (process, filename) =>
      let there := bool_decide (filename ∈ files w) in
      match teardown_value q t process with
      | Raise e =>
          (Raise e, popped, EvAnswer true :: teardown_events q t process)
      | Ok _ =>
          match there, cq_remove q with
          | true, Raise e =>
              (Raise e, popped,
               EvAnswer true :: teardown_events q t process)
          | _, _ =>
              (match progress_messages w !! t with
               | Some _ => cq_edit q
               | None => Ok tt
               end,
               World (delete t (active_processes w))
                     (delete t (progress_messages w))
                     (if there then files w ∖ {[filename]} else files w),
               EvAnswer true :: teardown_events q t process
               ++ (if there then [EvRemove filename] else [])
               ++ match progress_messages w !! t with
                  | Some m =>
                      [EvEdit m (TCancelled (cancelled_name filename)) d]
                  | None => []
                  end)
          end
      end
  | None =>
      (cq_edit q, popped,
       [EvAnswer true;
        match progress_messages w !! t with
        | Some m => EvEdit m TAlreadyFinished d
        | None => EvQueryEdit TNoActiveDownload d
        end])
  end.

(** ** Sample runs *)

Definition quiet {A} (r : result A) : awaited A := Awaited [] r.

(** Task "t1" is downloading as process 77 into "v.mp4" and shows its
    progress in message 5. *)
Definition sample_world : world :=
  World {["t1" := (77, "v.mp4")]} {["t1" := 5]} {["v.mp4"]}.

(** The operator presses the cancel button of "t1"; psutil finds the
    process and its descendants 78 and 79, and every call succeeds. *)
Definition sample_cancel : cancel_query :=
  CancelQuery "cancel_t1" (Ok tt) (Ok tt) (Ok [(78, Ok tt); (79, Ok tt)])
              (Ok tt) (Ok tt) (Ok tt) (Ok tt).





(** The world and the events once the handlers that run during an await
    have run. *)
Definition meanwhile_state {A} (a : awaited A) (w : world) : world :=
  state (happen_all (meanwhile a) w).

Definition meanwhile_events {A} (a : awaited A) (w : world) : list event :=
  events (happen_all (meanwhile a) w).

(** An upload driver whose credential provider returns nothing. *)
Definition no_credential_upload : upload_env :=
  UploadEnv (quiet (Ok false)) (quiet (Ok tt)) 100 (float_of 10)
    [ChunkStep (quiet (Ok (Some 50))) (float_of 12) (Ok tt)
               (quiet (Ok tt))]
    (ChunkStep (quiet (Ok (None, {["id" := "F1"]}))) (float_of 13)
               (Ok tt) (quiet (Ok tt)))
    (quiet (Ok tt)).

(** An event that is not a download progress update. *)
Definition silent (ev : event) : Prop := forwarded_percent ev = None.


Definition sample_upload : upload_env :=
  UploadEnv (quiet (Ok true)) (quiet (Ok tt)) 100 (float_of 10)
    [ChunkStep (quiet (Ok (Some 50))) (float_of 12) (Ok tt)
               (quiet (Ok tt))]
    (ChunkStep (quiet (Ok (None, {["id" := "F1"]}))) (float_of 13)
               (Ok tt) (quiet (Ok tt)))
    (quiet (Ok tt)).


(** Task "t1" has been confirmed: its progress message is registered,
    nothing else exists yet. *)
Definition fresh_world : world := World ∅ {["t1" := 5]} ∅.

(** An event that is no part of an upload attempt. *)
Definition no_upload (ev : event) : Prop := upload_event ev = false.

(** ** Runs in which every progress update is delivered *)

(** The same await, with the edit delivered. *)
Definition delivered_edit (a : awaited unit) : awaited unit :=
  Awaited (meanwhile a) (Ok tt).

Definition all_shown_read (s : read_step) : read_step :=
  ReadStep (rs_read s) (delivered_edit (rs_edit s)).

Definition all_shown_chunk {A} (c : chunk_step A) : chunk_step A :=
  ChunkStep (cs_chunk c) (cs_time c) (cs_format c)
            (delivered_edit (cs_edit c)).

Definition all_shown_upload (u : upload_env) : upload_env :=
  UploadEnv (u_auth u) (u_auth_edit u) (u_size u) (u_start_time u)
            (map all_shown_chunk (u_steps u)) (all_shown_chunk (u_last u))
            (u_error_edit u).

Definition all_shown (e : env) : env :=
  Env (e_start_edit e) (e_spawn e) (map all_shown_read (e_reads e))
      (e_wait e) (e_complete_edit e) (all_shown_upload (e_upload e))
      (e_final_edit e) (e_stderr e) (e_failure_edit e) (e_error_edit e).

Definition progress_text (t : text) : bool :=
  match t with
  | TDownloading _ _ _ _ _ _ | TUploading _ _ _ _ _ _ => true
  | _ => false
  end.

(** What is left of a trace when one forgets whether the progress updates
    were delivered and drops the warnings about those that were not. *)
Definition erase_event (ev : event) : option event :=
  match ev with
  | EvLog (LDownloadProgressNotShown _ _)
  | EvLog (LUploadProgressNotShown _ _) => None
  | EvEdit m t d => Some (EvEdit m t (d || progress_text t))
  | _ => Some ev
  end.

Definition erase (evs : list event) : list event := omap erase_event evs.

Definition same_outcome {A} (m m' : M A) : Prop :=
  forall w,
    value (m w) = value (m' w)
    /\ state (m w) = state (m' w)
    /\ erase (events (m w)) = erase (events (m' w)).

(** The process prints one progress frame and then the operator cancels. *)
Definition progress_frame : string :=
  String carriage_return
    "[download]  42.0% of ~100.0MiB at 5.0MiB/s ETA 00:10".

Definition cancelled_download : env :=
  Env (quiet (Ok tt)) (quiet (Ok 77))
      [ReadStep (Awaited [HFile "v.mp4"] (Ok (Some progress_frame)))
                (quiet (Raise (External "message deleted")));
       ReadStep (Awaited [HCancel sample_cancel] (Ok (Some progress_frame)))
                (quiet (Ok tt))]
      (quiet (Ok (-15))) (quiet (Ok tt)) sample_upload (quiet (Ok tt))
      (quiet (Ok "")) (quiet (Ok tt)) (quiet (Ok tt)).

(** The process prints a frame that matches the progress pattern but whose
    percentage, "1.2.3", is no number: [float] raises ValueError in the
    loop, after the process was registered. *)
Definition garbled_frame : string :=
  String carriage_return "[download] 1.2.3% of 1MiB at 1MiB/s ETA 0".

Definition garbled_download : env :=
  Env (quiet (Ok tt)) (quiet (Ok 77))
      [ReadStep (Awaited [HFile "v.mp4"] (Ok (Some garbled_frame)))
                (quiet (Ok tt))]
      (quiet (Ok 0)) (quiet (Ok tt)) sample_upload (quiet (Ok tt))
      (quiet (Ok "")) (quiet (Ok tt)) (quiet (Ok tt)).

(** Three lines: one whose percentage, 1.2.3, is no number; one whose
    size and rate have no figure and whose ETA has no digit; and the
    sample line of a well-formed frame. *)
Definition garbled_line : string :=
  "[download] 1.2.3% of 1MiB at 1MiB/s ETA 00:10".

Definition loose_line : string :=
  "[download] 5% of .x at .y/s ETA :".

Definition sample_line : string :=
  "[download]  42.0% of ~100.0MiB at 5.0MiB/s ETA 00:10".

(** The operator presses the cancel button, shown by the edit of line
    194, while the retrieval process is being spawned (line 208), that is
    before line 211 registers it.  The process then prints one frame,
    writes the file and exits with code 0. *)
Definition early_cancelled_download : env :=
  Env (quiet (Ok tt)) (Awaited [HCancel sample_cancel] (Ok 77))
      [ReadStep (Awaited [HFile "v.mp4"] (Ok (Some progress_frame)))
                (quiet (Ok tt));
       ReadStep (quiet (Ok None)) (quiet (Ok tt))]
      (quiet (Ok 0)) (quiet (Ok tt)) sample_upload (quiet (Ok tt))
      (quiet (Ok EmptyString)) (quiet (Ok tt)) (quiet (Ok tt)).





(** * The rest of the program

    The command and button handlers in front of the task, the credential
    provider behind the upload driver, and the routing of [main]. *)

(** ** Checks of the command handler *)

(** [re.match(r'https?://', url)] (line 291), as a truth value. *)
Definition url_pattern : regex :=
  Cat (Str (of_string "http"))
  (Cat (Opt (Str (of_string "s"))) (Str (of_string "://"))).

Definition valid_url (url : string) : bool :=
  match match_here url_pattern 0 (of_string url) with
  | Some _ => true
  | None => false
  end.

(** The character class of the pattern of lines 296 and 316: backslash,
    slash, star, question mark, colon, double quote (code 34), the angle
    brackets and the bar. *)
Definition forbidden_chars : chars :=
  of_string "\/*?:" ++ [ascii_of_nat 34] ++ of_string "<>|".

Definition is_forbidden (c : ascii) : bool := contains_char c forbidden_chars.

Definition forbidden_pattern : regex := Class is_forbidden.

(** [re.sub] of that class by the empty string. *)
Definition safe_filename (name : chars) : chars :=
  sub forbidden_pattern 0 [] name.

(** [sep.join(parts)] *)
Fixpoint join (sep : chars) (parts : list chars) : chars :=
  match parts with
  | [] => []
  | [p] => p
  | p :: parts' => p ++ sep ++ join sep parts'
  end.

(** ** Sequential code over a state

    The handlers and the credential provider thread a state, may raise,
    and leave a trace; what they await is not interleaved with the parts
    of the state they touch, so each runs as one step. *)

Definition Prog (S E A : Type) : Type := S -> result A * S * list E.

Definition yield {S E A} (a : A) : Prog S E A := fun s => (Ok a, s, []).

Definition fail {S E A} (e : exn) : Prog S E A := fun s => (Raise e, s, []).

Definition andthen {S E A B} (m : Prog S E A) (f : A -> Prog S E B)
  : Prog S E B :=
  fun s =>
    match m s with
    | (Ok a, s1, ev1) => let '(r, s2, ev2) := f a s1 in (r, s2, ev1 ++ ev2)
    | (Raise e, s1, ev1) => (Raise e, s1, ev1)
    end.

Notation "'do!' x ':=' m 'in' k" := (andthen m (fun x => k))
  (at level 10, x pattern, m at level 100, k at level 200).
Notation "m ';;' k" := (andthen m (fun _ => k))
  (at level 100, k at level 200, right associativity).

(** [try: m except Exception as e: h e] *)
Definition rescue {S E A} (m : Prog S E A) (h : exn -> Prog S E A)
  : Prog S E A :=
  fun s =>
    match m s with
    | (Ok a, s1, ev1) => (Ok a, s1, ev1)
    | (Raise e, s1, ev1) => let '(r, s2, ev2) := h e s1 in (r, s2, ev1 ++ ev2)
    end.

Definition outside {S E A} (r : result A) : Prog S E A := fun s => (r, s, []).

Definition tell {S E} (ev : E) : Prog S E unit := fun s => (Ok tt, s, [ev]).

Definition inspect {S E} : Prog S E S := fun s => (Ok s, s, []).

Definition update {S E} (f : S -> S) : Prog S E unit :=
  fun s => (Ok tt, f s, []).

Definition returned {S E A} (x : result A * S * list E) : result A := x.1.1.
Definition after {S E A} (x : result A * S * list E) : S := x.1.2.
Definition trace {S E A} (x : result A * S * list E) : list E := x.2.

(** ** The credential provider (lines 72-122)

    [authenticate_drive] runs in a thread on the file system.  The
    environment says how each call to the credential library ends.  Of the
    credentials only what the function looks at is kept: [valid],
    [expired] and whether there is a refresh token. *)

Record credentials := Credentials {
  cr_valid : bool;
  cr_expired : bool;
  cr_refresh_token : bool;
}.

Inductive build_outcome :=
| Built
| BuildHttpError                        (* caught at l.120 *)
| BuildRaises (e : exn).                (* any other exception *)

Record auth_env := AuthEnv {
  a_load : result credentials;          (* l.80 *)
  a_refresh : result unit;              (* l.90 *)
  a_flow : result unit;                 (* l.102-103 *)
  a_open : result unit;                 (* l.112 *)
  a_write : result unit;                (* l.113 *)
  a_build : build_outcome;              (* l.117 *)
}.

Inductive auth_event :=
| AuLoad                                (* l.80 *)
| AuCorruptToken (e : exn)              (* l.82 *)
| AuRemoveToken                         (* l.83 *)
| AuRefresh                             (* l.89-90 *)
| AuRefreshFailed (e : exn)             (* l.92 *)
| AuFlow                                (* l.98-103 *)
| AuNoClientSecrets                     (* l.105 *)
| AuFlowFailed (e : exn)                (* l.108 *)
| AuTokenSaved                          (* l.114 *)
| AuBuild                               (* l.117 *)
| AuAuthenticated                       (* l.118 *)
| AuBuildFailed.                        (* l.121 *)

Definition TOKEN_FILE : string := "token.json".

Definition Auth (A : Type) : Type := Prog (gset string) auth_event A.

(** Lines 77-83: the stored credentials, if the token file holds any.
    As for the task, [os.remove] of a file that was just seen to exist
    succeeds. *)
Definition stored_credentials (a : auth_env) : Auth (option credentials) :=
  do! fs := inspect in
  if bool_decide (TOKEN_FILE ∈ fs)
  then
    rescue
      (tell AuLoad ;;
       do! creds := outside (a_load a) in
       yield (Some creds))
      (fun e =>
         tell (AuCorruptToken e) ;;
         update (fun fs => fs ∖ {[TOKEN_FILE]}) ;;
         tell AuRemoveToken ;;
         yield None)
  else yield None.

(** Lines 87-93: whether there still are credentials after the refresh. *)
Definition refresh_credentials (a : auth_env) (creds : option credentials)
  : Auth bool :=
  match creds with
  | Some c =>
      if cr_expired c && cr_refresh_token c
      then
        rescue (tell AuRefresh ;; outside (a_refresh a) ;; yield true)
               (fun e => tell (AuRefreshFailed e) ;; yield false)
      else yield true
  | None => yield false
  end.

(** Lines 96-109: the browser flow; [false] when the function returns
    [None] from one of the two handlers. *)
Definition run_flow (a : auth_env) : Auth bool :=
  tell AuFlow ;;
  match a_flow a with
  | Ok _ => yield true
  | Raise FileNotFoundError => tell AuNoClientSecrets ;; yield false
  | Raise e => tell (AuFlowFailed e) ;; yield false
  end.

(** Lines 112-114. *)
Definition save_token (a : auth_env) : Auth unit :=
  outside (a_open a) ;;
  update (fun fs => {[TOKEN_FILE]} ∪ fs) ;;
  outside (a_write a) ;;
  tell AuTokenSaved.

(** Lines 116-122. *)
Definition build_service (a : auth_env) : Auth bool :=
  tell AuBuild ;;
  match a_build a with
  | Built => tell AuAuthenticated ;; yield true
  | BuildHttpError => tell AuBuildFailed ;; yield false
  | BuildRaises e => fail e
  end.

(** The value is whether a service was returned. *)
Definition authenticate_drive (a : auth_env) : Auth bool :=
  do! creds := stored_credentials a in
  let usable :=
    match creds with Some c => cr_valid c | None => false end in
  do! ready :=
    if negb usable
    then
      do! kept := refresh_credentials a creds in
      do! have := if negb kept then run_flow a else yield true in
      if have then save_token a ;; yield true
      else yield false
    else yield true in
  if ready then build_service a else yield false.

(** ** The command and the quality buttons (lines 285-351) *)

Record task_info := TaskInfo {
  info_url : string;
  info_filename : string;
  info_task_id : string;
  info_initial_msg : Z;
}.

(** The handlers' state: [task_data] and the registries of the tasks. *)
Record bot := Bot {
  task_data : gmap Z task_info;
  registries : world;
}.

Inductive notice :=
| NUsage                                                      (* l.288 *)
| NInvalidUrl (url : string)                                  (* l.292 *)
| NFetchingTitle                                              (* l.298 *)
| NTitleFailed (error : string)                               (* l.313 *)
| NTitleError (e : exn)                                       (* l.319 *)
| NChooseQuality (safe_filename : string)
    (callback_data : list string)                             (* l.323-332 *)
| NExpired.                                                   (* l.343 *)

Inductive action :=
| AReply (n : notice) (delivered : bool)   (* update.message.reply_text *)
| AEditStatus (message : Z) (n : notice) (delivered : bool)
| ADeleteStatus (message : Z) (deleted : bool)                (* l.317 *)
| ASpawn (cmd : list string)                                  (* l.307 *)
| AAnswer (delivered : bool)                                  (* l.339 *)
| AQueryEdit (n : notice) (delivered : bool)                  (* l.343 *)
| ACreateTask (chat_id : Z) (url : string) (quality_param : list string)
    (file_name task_id : string) (initial_msg : Z).           (* l.349 *)

Definition Handler (A : Type) : Type := Prog bot action A.

(** What the command brings and how each call to the outside ends. *)
Record command := Command {
  c_args : list string;                 (* context.args *)
  c_reply : result Z;                   (* l.288, 292 or 298: the message *)
  c_title : result (Z * string * string);
                    (* l.307-310: return code, stdout, stderr, decoded *)
  c_failed_edit : result unit;          (* l.313 *)
  c_delete : result unit;               (* l.317 *)
  c_error_edit : result unit;           (* l.319 *)
  c_uuid : string;                      (* l.322 *)
  c_menu : result Z;                    (* l.329: the message *)
}.

Definition reply_text (n : notice) (r : result Z) : Handler Z :=
  tell (AReply n (delivered r)) ;; outside r.

Definition edit_status (message : Z) (n : notice) (r : result unit)
  : Handler unit :=
  tell (AEditStatus message n (delivered r)) ;; outside r.

Definition title_command (url_for_title : string) : list string :=
  ["yt-dlp"; "--get-title"; "--no-warnings";
   "--add-header"; "Origin: https://www.mediasetinfinity.es";
   "--add-header"; "Referer: https://www.mediasetinfinity.es";
   url_for_title].

(** Lines 298-320: the title is asked from the retrieval tool; [None]
    when the handler returns without a name. *)
Definition fetch_title (c : command) (url : string)
  : Handler (option string) :=
  do! status_msg := reply_text NFetchingTitle (c_reply c) in
  rescue
    (let url_for_title := transform_mediaset_url url in
     tell (ASpawn (title_command url_for_title)) ;;
     do! (status, stderr_title) := outside (c_title c) in
     let (returncode, stdout_title) := status : Z * string in
     if negb (returncode =? 0)
     then
       edit_status status_msg
         (NTitleFailed (to_string (take 1000 (of_string stderr_title))))
         (c_failed_edit c) ;;
       yield None
     else
       let filename_base := strip (of_string stdout_title) in
       let safe_filename := safe_filename filename_base in
       tell (ADeleteStatus status_msg (delivered (c_delete c))) ;;
       outside (c_delete c) ;;
       yield (Some (to_string safe_filename)))
    (fun e =>
       edit_status status_msg (NTitleError e) (c_error_edit c) ;;
       yield None).

(** The callback data of the four quality buttons (lines 324-327). *)
Definition quality_button (quality task_id : string) : string :=
  "quality_" +:+ quality +:+ "_" +:+ task_id.

Definition quality_buttons (task_id : string) : list string :=
  map (fun quality => quality_button quality task_id)
      ["best"; "1080"; "720"; "480"].

(** [task_data[message_id] = info] *)
Definition store_task (message_id : Z) (info : task_info) : Handler unit :=
  update (fun b => Bot (<[message_id := info]> (task_data b)) (registries b)).

Definition startmedia_command (c : command) : Handler unit :=
  match c_args c with
  | [] => reply_text NUsage (c_reply c) ;; yield tt
  | url :: names =>
      if negb (valid_url url)
      then reply_text (NInvalidUrl url) (c_reply c) ;; yield tt
      else
        do! chosen :=
          match names with
          | _ :: _ =>
              let custom_name :=
                strip (join [" "%char] (map of_string names)) in
              yield (Some (to_string (safe_filename custom_name)))
          | [] => fetch_title c url
          end in
        match chosen with
        | None => yield tt
        | Some safe_filename =>
            let task_id := c_uuid c in
            do! sent_msg :=
              reply_text (NChooseQuality safe_filename
                                         (quality_buttons task_id))
                         (c_menu c) in
            store_task sent_msg (TaskInfo url safe_filename task_id sent_msg)
        end
  end.

Record quality_query := QualityQuery {
  qq_data : string;                     (* query.data *)
  qq_message : Z;                       (* query.message.message_id *)
  qq_chat : Z;                          (* query.message.chat.id *)
  qq_answer : result unit;              (* l.339 *)
  qq_edit : result unit;                (* l.343 *)
}.

(** [query.data.split('_')[1]] *)
Definition selected_quality (data : string) : result string :=
  match split_on "_" (of_string data) with
  | _ :: quality :: _ => Ok (to_string quality)
  | _ => Raise IndexError
  end.

(** Line 347. *)
Definition quality_param (quality : string) : list string :=
  if String.eqb quality "best"
  then ["-f"; "bestvideo+bestaudio/best"]
  else ["-f"; "bestvideo[height<=" +:+ quality
              +:+ "]+bestaudio/best[height<=" +:+ quality +:+ "]"].

(** [task_data.pop(message_id, None)] *)
Definition pop_task (message_id : Z) : Handler (option task_info) :=
  do! b := inspect in
  update (fun b => Bot (delete message_id (task_data b)) (registries b)) ;;
  yield (task_data b !! message_id).

(** [progress_messages[task_id] = initial_msg] *)
Definition register_progress (task_id : string) (initial_msg : Z)
  : Handler unit :=
  update (fun b =>
            let w := registries b in
            Bot (task_data b)
                (World (active_processes w)
                       (<[task_id := initial_msg]> (progress_messages w))
                       (files w))).

Definition quality_selection_handler (q : quality_query) : Handler unit :=
  tell (AAnswer (delivered (qq_answer q))) ;;
  outside (qq_answer q) ;;
  do! task_info := pop_task (qq_message q) in
  match task_info with
  | None =>
      tell (AQueryEdit NExpired (delivered (qq_edit q))) ;;
      outside (qq_edit q)
  | Some (TaskInfo url file_name task_id initial_msg) =>
      do! quality := outside (selected_quality (qq_data q)) in
      register_progress task_id initial_msg ;;
      tell (ACreateTask (qq_chat q) url (quality_param quality) file_name
                        task_id initial_msg)
  end.


(** ** The routing of callback queries (lines 387-388)

    [main] registers the quality handler before the cancel handler, each
    with a pattern.  The dispatcher hands a callback query to the first
    registered handler whose pattern matches the data from its start
    ([re.match]); the leading [^] of the two patterns says the same. *)

(** [r'^quality_(best|\d+)'] *)
Definition quality_route : regex :=
  Cat (Str (of_string "quality_"))
      (Group 1 (Alt (Str (of_string "best")) (Many1 is_digit))).

(** [r'^cancel_'] *)
Definition cancel_route : regex := Str (of_string "cancel_").

Inductive callback := ToQualitySelection | ToCancel.

Definition routes (r : regex) (n : nat) (data : string) : bool :=
  match match_here r n (of_string data) with
  | Some _ => true
  | None => false
  end.

Definition route (data : string) : option callback :=
  if routes quality_route 1 data then Some ToQualitySelection
  else if routes cancel_route 0 data then Some ToCancel
  else None.

(** The callback data of the cancel button (lines 147 and 191). *)
Definition cancel_button (task_id : string) : string := "cancel_" +:+ task_id.

(** ** Notions for the properties of this part *)

(** [min(20, max(0, percentage // 5))] *)
Definition cells (percentage : Z) : nat :=
  Z.to_nat (Z.min 20 (Z.max 0 (percentage / 5))).

(** No non-empty suffix of [m] can be laid over the head of a manifest
    form. *)
Fixpoint clear_of_manifest (m : chars) : bool :=
  match m with
  | [] => true
  | _ :: m' =>
      forallb (fun form => negb (starts_with m form)
                           && negb (starts_with form m))
              manifest_forms
      && clear_of_manifest m'
  end.



(** The command lines of the processes that a run has spawned. *)
Definition spawned_command (ev : event) : option (list string) :=
  match ev with EvSpawn cmd => Some cmd | _ => None end.

Definition spawned (evs : list event) : list (list string) :=
  omap spawned_command evs.

(** The message that announces the finished upload (lines 266-269). *)
Definition completed_edit (ev : event) : bool :=
  match ev with EvEdit _ (TCompleted _ _ _) _ => true | _ => false end.



(** Sample values. *)
Definition sample_command : command :=
  Command ["https://example.com/v"; "My"; "video?"] (Ok 1)
          (Ok (0, "Title", EmptyString)) (Ok tt) (Ok tt) (Ok tt) "t1" (Ok 5).

Definition empty_bot : bot := Bot ∅ (World ∅ ∅ ∅).

Definition sample_quality_query : quality_query :=
  QualityQuery (quality_button "720" "t1") 5 9 (Ok tt) (Ok tt).

(** A token file that holds valid credentials. *)
Definition stored_valid_token : auth_env :=
  AuthEnv (Ok (Credentials true false true)) (Ok tt) (Ok tt) (Ok tt) (Ok tt)
          Built.


(** Task "t1" is uploading "v.mp4": its process entry is gone, message 5
    shows its progress; the operator cancels while the first chunk is
    sent. *)
Definition uploading_world : world := World ∅ {["t1" := 5]} {["v.mp4"]}.



(** A download that succeeds and an upload that is answered with a link. *)
Definition answered_upload : upload_env :=
  UploadEnv (quiet (Ok true)) (quiet (Ok tt)) 100 (float_of 10)
    [ChunkStep (quiet (Ok (Some 50))) (float_of 12) (Ok tt) (quiet (Ok tt))]
    (ChunkStep (quiet (Ok (None, {["id" := "F1";
                                   "webViewLink" := "https://drive/F1"]})))
               (float_of 13) (Ok tt) (quiet (Ok tt)))
    (quiet (Ok tt)).

Definition finished_download : env :=
  Env (quiet (Ok tt)) (quiet (Ok 77))
      [ReadStep (Awaited [HFile "v.mp4"] (Ok (Some progress_frame)))
                (quiet (Ok tt));
       ReadStep (quiet (Ok None)) (quiet (Ok tt))]
      (quiet (Ok 0)) (quiet (Ok tt)) answered_upload (quiet (Ok tt))
      (quiet (Ok EmptyString)) (quiet (Ok tt)) (quiet (Ok tt)).
(** ** Facts about text *)

Lemma starts_with_prefix (p t : chars) : starts_with p (p ++ t) = true.
Proof.
  induction p as [|a p IH]; simpl; [done|].
  by rewrite Ascii.eqb_refl.
Qed.

Lemma starts_with_split (u a t : chars) :
  starts_with u (a ++ t) = true ->
  starts_with u a = true \/ starts_with a u = true.
Proof.
  revert a. induction u as [|x u IH]; intros [|y a] H; simpl in *; auto.
  apply andb_true_iff in H as [Hxy Hu].
  rewrite Hxy. rewrite Ascii.eqb_sym in Hxy. rewrite Hxy. simpl.
  by apply IH.
Qed.

Lemma starts_with_app (p s : chars) :
  starts_with p s = true -> s = p ++ drop (length p) s.
Proof.
  revert s. induction p as [|a p IH]; intros [|b s] H; simpl in *; try done.
  apply andb_true_iff in H as [Hab Hp].
  apply Ascii.eqb_eq in Hab. subst b. f_equal. by apply IH.
Qed.

(** ** The matcher only finds words of the pattern *)

Section Soundness.
Context {R : Type}.

Lemma match_str_sound (l s : chars) (k : chars -> option R) x :
  match_str l s k = Some x -> exists rest, s = l ++ rest /\ k rest = Some x.
Proof.
  revert s. induction l as [|a l IH]; intros s H; simpl in H.
  - by exists s.
  - destruct s as [|b s]; [done|].
    destruct (Ascii.eqb a b) eqn:Hab; [|done].
    apply Ascii.eqb_eq in Hab. subst b.
    destruct (IH _ H) as (rest & -> & Hk). by exists rest.
Qed.

Lemma many_sound p (s : chars) (k : chars -> option R) x :
  many p s k = Some x ->
  exists m rest, s = m ++ rest /\ forallb p m = true /\ k rest = Some x.
Proof.
  induction s as [|c s IH]; simpl; intros H.
  - by exists [], [].
  - destruct (p c) eqn:Hc.
    + destruct (many p s k) as [y|] eqn:Hm.
      * injection H as ->.
        destruct (IH eq_refl) as (m & rest & -> & Hall & Hk).
        exists (c :: m), rest. simpl. by rewrite Hc, Hall.
      * by exists [], (c :: s).
    + by exists [], (c :: s).
Qed.

Lemma match_re_sound r :
  forall (s : chars) g (k : chars -> groups -> option R) x,
  match_re r s g k = Some x ->
  exists m rest g', s = m ++ rest /\ lang r m /\ k rest g' = Some x.
Proof.
  induction r as [l|p|r1 IH1 r2 IH2|r1 IH1 r2 IH2|r1 IH1|p|p|i r1 IH1];
    intros s g k x H; simpl in H.
  - apply match_str_sound in H as (rest & -> & Hk).
    exists l, rest, g. split_and!; [done|constructor|done].
  - destruct s as [|c s]; [done|]. destruct (p c) eqn:Hc; [|done].
    exists [c], s, g. split_and!; [done|by constructor|done].
  - apply IH1 in H as (m1 & rest1 & g1 & -> & L1 & H).
    apply IH2 in H as (m2 & rest2 & g2 & -> & L2 & H).
    exists (m1 ++ m2), rest2, g2.
    split_and!; [by rewrite <- app_assoc|by constructor|done].
  - destruct (match_re r1 s g k) as [y|] eqn:H1.
    + injection H as ->. apply IH1 in H1 as (m & rest & g' & -> & L & H).
      exists m, rest, g'. split_and!; [done|by apply lang_alt_l|done].
    + apply IH2 in H as (m & rest & g' & -> & L & H).
      exists m, rest, g'. split_and!; [done|by apply lang_alt_r|done].
  - destruct (match_re r1 s g k) as [y|] eqn:H1.
    + injection H as ->. apply IH1 in H1 as (m & rest & g' & -> & L & H).
      exists m, rest, g'. split_and!; [done|by apply lang_opt_take|done].
    + exists [], s, g. split_and!; [done|apply lang_opt_skip|done].
  - apply many_sound in H as (m & rest & -> & Hall & Hk).
    exists m, rest, g. split_and!; [done|by constructor|done].
  - destruct s as [|c s]; [done|]. destruct (p c) eqn:Hc; [|done].
    apply many_sound in H as (m & rest & -> & Hall & Hk).
    exists (c :: m), rest, g. split_and!; [done|by constructor|done].
  - apply IH1 in H as (m & rest & g' & -> & L & H).
    eexists m, rest, _. split_and!; [done|by constructor|exact H].
Qed.
End Soundness.

Lemma match_here_sound r n s rest g :
  match_here r n s = Some (rest, g) -> exists m, s = m ++ rest /\ lang r m.
Proof.
  unfold match_here. intros H.
  apply match_re_sound in H as (m & rest' & g' & -> & L & H).
  injection H as <- _. by exists m.
Qed.

Lemma search_sound r n s g :
  search r n s = Some g -> exists pre m post, s = pre ++ m ++ post /\ lang r m.
Proof.
  induction s as [|c s IH]; simpl.
  - destruct (match_here r n []) as [[rest g']|] eqn:H; [|done].
    intros _. apply match_here_sound in H as (m & -> & L).
    by exists [], m, rest.
  - destruct (match_here r n (c :: s)) as [[rest g']|] eqn:H.
    + intros _. apply match_here_sound in H as (m & -> & L).
      by exists [], m, rest.
    + intros H'. destruct (IH H') as (pre & m & post & -> & L).
      by exists (c :: pre), m, post.
Qed.


(** Inversion of [lang]. *)

Lemma lang_str_inv l m : lang (Str l) m -> m = l.
Proof. by inversion 1. Qed.

Lemma lang_cat_inv r1 r2 m :
  lang (Cat r1 r2) m ->
  exists m1 m2, m = m1 ++ m2 /\ lang r1 m1 /\ lang r2 m2.
Proof. inversion 1; subst; eauto. Qed.

Lemma lang_alt_inv r1 r2 m : lang (Alt r1 r2) m -> lang r1 m \/ lang r2 m.
Proof. inversion 1; subst; auto. Qed.

Lemma lang_opt_inv r m : lang (Opt r) m -> m = [] \/ lang r m.
Proof. inversion 1; subst; auto. Qed.

Lemma lang_group_inv i r m : lang (Group i r) m -> lang r m.
Proof. by inversion 1. Qed.

Lemma lang_many0_inv p m : lang (Many0 p) m -> forallb p m = true.
Proof. by inversion 1. Qed.

Lemma lang_many1_inv p m :
  lang (Many1 p) m -> m <> [] /\ forallb p m = true.
Proof.
  inversion 1; subst. split; [done|]. simpl.
  apply andb_true_iff. by split.
Qed.

(** ** The matcher finds every word of the pattern

    When the matcher fails on a text, no way of cutting a word of the
    pattern off its head lets the continuation succeed. *)

Section Completeness.
Context {R : Type}.

Lemma match_str_complete (l rest : chars) (k : chars -> option R) :
  match_str l (l ++ rest) k = k rest.
Proof.
  induction l as [|a l IH]; simpl; [done|]. by rewrite Ascii.eqb_refl.
Qed.

Lemma many_none_here p (s : chars) (k : chars -> option R) :
  many p s k = None -> k s = None.
Proof.
  destruct s as [|c s]; simpl; [done|].
  destruct (p c); [|done]. by destruct (many p s k).
Qed.

Lemma many_complete p (m rest : chars) (k : chars -> option R) :
  forallb p m = true -> many p (m ++ rest) k = None -> k rest = None.
Proof.
  induction m as [|c m IH]; simpl.
  - intros _. apply many_none_here.
  - intros Hall H. apply andb_true_iff in Hall as [Hc Hall].
    rewrite Hc in H. apply IH; [done|].
    by destruct (many p (m ++ rest) k).
Qed.

Lemma match_re_complete r :
  forall (s : chars) g (k : chars -> groups -> option R),
  match_re r s g k = None ->
  forall m rest, s = m ++ rest -> lang r m -> exists g', k rest g' = None.
Proof.
  induction r as [l|p|r1 IH1 r2 IH2|r1 IH1 r2 IH2|r1 IH1|p|p|i r1 IH1];
    intros s g k H m rest -> L; simpl in H.
  - apply lang_str_inv in L as ->. rewrite match_str_complete in H.
    by exists g.
  - inversion L as [|p' c Hc| | | | | | | |]; subst. simpl in H.
    rewrite Hc in H. by exists g.
  - apply lang_cat_inv in L as (m1 & m2 & -> & L1 & L2).
    rewrite <- app_assoc in H.
    destruct (IH1 _ _ _ H m1 (m2 ++ rest) eq_refl L1) as [g1 H1].
    exact (IH2 _ _ _ H1 m2 rest eq_refl L2).
  - destruct (match_re r1 (m ++ rest) g k) eqn:H1; [done|].
    apply lang_alt_inv in L as [L|L]; eauto.
  - destruct (match_re r1 (m ++ rest) g k) eqn:H1; [done|].
    apply lang_opt_inv in L as [->|L]; [by exists g|eauto].
  - apply lang_many0_inv in L. exists g.
    by apply (many_complete p m rest (fun rest => k rest g)).
  - inversion L as [| | | | | | | |p' c m' Hc Hall|]; subst. simpl in H.
    rewrite Hc in H. exists g.
    by apply (many_complete p m' rest (fun rest => k rest g)).
  - apply lang_group_inv in L.
    destruct (IH1 _ _ _ H m rest eq_refl L) as [g' H']. eauto.
Qed.
End Completeness.

Lemma match_here_complete r n s :
  match_here r n s = None ->
  forall m rest, s = m ++ rest -> ~ lang r m.
Proof.
  unfold match_here. intros H m rest Hs L.
  by destruct (match_re_complete _ _ _ _ H m rest Hs L) as [g' H'].
Qed.

Lemma search_complete r n s :
  search r n s = None ->
  ~ exists pre m post, s = pre ++ m ++ post /\ lang r m.
Proof.
  induction s as [|c s IH]; simpl.
  - destruct (match_here r n []) as [[rest g']|] eqn:H; [done|].
    intros _ (pre & m & post & Hs & L).
    symmetry in Hs. apply app_eq_nil in Hs as [-> Hs].
    by apply (match_here_complete _ _ _ H m post).
  - destruct (match_here r n (c :: s)) as [[rest g']|] eqn:H; [done|].
    intros Hs (pre & m & post & Hcs & L).
    destruct pre as [|c' pre].
    + by apply (match_here_complete _ _ _ H m post).
    + injection Hcs as -> ->. apply (IH Hs). by exists pre, m, post.
Qed.


(** ** Running the primitives *)

Lemma bind_run {A B} (m : M A) (f : A -> M B) w :
  bind m f w =
  match m w with
  | (Ok a, w1, ev1) => let '(r, w2, ev2) := f a w1 in (r, w2, ev1 ++ ev2)
  | (Raise e, w1, ev1) => (Raise e, w1, ev1)
  end.
Proof. reflexivity. Qed.

Lemma events_bind {A B} (m : M A) (f : A -> M B) w :
  events (bind m f w) =
  match value (m w) with
  | Ok a => events (m w) ++ events (f a (state (m w)))
  | Raise _ => events (m w)
  end.
Proof.
  unfold bind, events, value, state.
  destruct (m w) as [[[a|e] w1] ev1]; simpl; [|done].
  by destruct (f a w1) as [[r w2] ev2].
Qed.

Lemma state_bind {A B} (m : M A) (f : A -> M B) w :
  state (bind m f w) =
  match value (m w) with
  | Ok a => state (f a (state (m w)))
  | Raise _ => state (m w)
  end.
Proof.
  unfold bind, events, value, state.
  destruct (m w) as [[[a|e] w1] ev1]; simpl; [|done].
  by destruct (f a w1) as [[r w2] ev2].
Qed.

Lemma value_bind {A B} (m : M A) (f : A -> M B) w :
  value (bind m f w) =
  match value (m w) with
  | Ok a => value (f a (state (m w)))
  | Raise e => Raise e
  end.
Proof.
  unfold bind, events, value, state.
  destruct (m w) as [[[a|e] w1] ev1]; simpl; [|done].
  by destruct (f a w1) as [[r w2] ev2].
Qed.

Lemma value_try_except {A} (m : M A) (h : exn -> M A) w :
  value (try_except m h w) =
  match value (m w) with
  | Ok a => Ok a
  | Raise e => value (h e (state (m w)))
  end.
Proof.
  unfold try_except, value, state.
  destruct (m w) as [[[a|e] w1] ev1]; simpl; [done|].
  by destruct (h e w1) as [[r w2] ev2].
Qed.

Lemma events_try_except {A} (m : M A) (h : exn -> M A) w :
  events (try_except m h w) =
  match value (m w) with
  | Ok a => events (m w)
  | Raise e => events (m w) ++ events (h e (state (m w)))
  end.
Proof.
  unfold try_except, value, state, events.
  destruct (m w) as [[[a|e] w1] ev1]; simpl; [done|].
  by destruct (h e w1) as [[r w2] ev2].
Qed.

Lemma state_try_except {A} (m : M A) (h : exn -> M A) w :
  state (try_except m h w) =
  match value (m w) with
  | Ok a => state (m w)
  | Raise e => state (h e (state (m w)))
  end.
Proof.
  unfold try_except, value, state, events.
  destruct (m w) as [[[a|e] w1] ev1]; simpl; [done|].
  by destruct (h e w1) as [[r w2] ev2].
Qed.

Lemma run_eta {A} (x : result A * world * list event) :
  x = (value x, state x, events x).
Proof. by destruct x as [[r w] ev]. Qed.

Lemma happen_ok h w : value (happen h w) = Ok tt.
Proof.
  destruct h as [q|p]; [|done]. unfold happen.
  rewrite value_try_except.
  by destruct (value (cancel_any_download q w)) as [[]|e].
Qed.

Lemma happen_all_ok hs w : value (happen_all hs w) = Ok tt.
Proof.
  revert w. induction hs as [|h hs IH]; intros w; [done|].
  simpl. rewrite value_bind, happen_ok. apply IH.
Qed.

Lemma await_run {A} (a : awaited A) w :
  await a w = (outcome a, meanwhile_state a w, meanwhile_events a w).
Proof.
  unfold await, meanwhile_state, meanwhile_events.
  rewrite (run_eta (bind _ _ _)).
  rewrite value_bind, state_bind, events_bind, happen_all_ok.
  unfold lift, value, state, events. simpl. by rewrite app_nil_r.
Qed.

Lemma edit_text_run m t (a : awaited unit) w :
  edit_text m t a w =
  (outcome a, meanwhile_state a w,
   EvEdit m t (delivered (outcome a)) :: meanwhile_events a w).
Proof.
  unfold edit_text. unfold bind at 1. unfold emit at 1.
  by rewrite await_run.
Qed.

Lemma value_await {A} (a : awaited A) w : value (await a w) = outcome a.
Proof. by rewrite await_run. Qed.

Lemma value_edit_text m t a w : value (edit_text m t a w) = outcome a.
Proof. by rewrite edit_text_run. Qed.

Lemma ret_run {A} (a : A) w : ret a w = (Ok a, w, []).
Proof. reflexivity. Qed.

Lemma raise_run {A} e w : @raise A e w = (Raise e, w, []).
Proof. reflexivity. Qed.

Lemma lift_run {A} (r : result A) w : lift r w = (r, w, []).
Proof. reflexivity. Qed.

Lemma emit_run ev w : emit ev w = (Ok tt, w, [ev]).
Proof. reflexivity. Qed.

Lemma log_run l w : log l w = (Ok tt, w, [EvLog l]).
Proof. reflexivity. Qed.

Lemma is_active_run t w :
  is_active t w = (Ok (bool_decide (is_Some (active_processes w !! t))), w, []).
Proof. reflexivity. Qed.

Lemma has_progress_message_run t w :
  has_progress_message t w
  = (Ok (bool_decide (is_Some (progress_messages w !! t))), w, []).
Proof. reflexivity. Qed.

Lemma path_exists_run p w :
  path_exists p w = (Ok (bool_decide (p ∈ files w)), w, []).
Proof. reflexivity. Qed.

Lemma upload_cancelled_run t m w :
  upload_cancelled t m w
  = (Ok (negb (bool_decide (is_Some (active_processes w !! t)))
         && negb (bool_decide (m ∈ (map_to_list (progress_messages w)).*2))),
     w, []).
Proof. reflexivity. Qed.

Lemma set_active_run t v w :
  set_active t v w
  = (Ok tt, World (<[t := v]> (active_processes w)) (progress_messages w)
                  (files w), []).
Proof. reflexivity. Qed.

Lemma pop_active_run t w :
  pop_active t w
  = (Ok (active_processes w !! t),
     World (delete t (active_processes w)) (progress_messages w) (files w),
     []).
Proof. reflexivity. Qed.

Lemma pop_progress_message_run t w :
  pop_progress_message t w
  = (Ok (progress_messages w !! t),
     World (active_processes w) (delete t (progress_messages w)) (files w),
     []).
Proof. reflexivity. Qed.

Lemma remove_run p w :
  remove p w
  = (Ok tt, World (active_processes w) (progress_messages w)
                  (files w ∖ {[p]}), [EvRemove p]).
Proof. reflexivity. Qed.

Lemma try_except_run {A} (m : M A) (h : exn -> M A) w :
  try_except m h w =
  match m w with
  | (Ok a, w1, ev1) => (Ok a, w1, ev1)
  | (Raise e, w1, ev1) => let '(r, w2, ev2) := h e w1 in (r, w2, ev1 ++ ev2)
  end.
Proof. reflexivity. Qed.

Lemma finally_run {A} (m : M A) (f : M unit) w :
  finally m f w =
  let '(r, w1, ev1) := m w in
  match f w1 with
  | (Ok _, w2, ev2) => (r, w2, ev1 ++ ev2)
  | (Raise e, w2, ev2) => (Raise e, w2, ev1 ++ ev2)
  end.
Proof. reflexivity. Qed.

Lemma notify_download_run m t x (a : awaited unit) w :
  notify_download m t x a w =
  (Ok tt, meanwhile_state a w,
   EvEdit m x (delivered (outcome a)) :: meanwhile_events a w
   ++ match outcome a with
      | Ok _ => []
      | Raise e => [EvLog (LDownloadProgressNotShown t e)]
      end).
Proof.
  unfold notify_download. rewrite try_except_run, edit_text_run.
  destruct (outcome a) as [[]|e]; simpl; by rewrite ?app_nil_r.
Qed.

Lemma notify_upload_run m t x (a : awaited unit) w :
  notify_upload m t x a w =
  (Ok tt, meanwhile_state a w,
   EvEdit m x (delivered (outcome a)) :: meanwhile_events a w
   ++ match outcome a with
      | Ok _ => []
      | Raise e => [EvLog (LUploadProgressNotShown t e)]
      end).
Proof.
  unfold notify_upload. rewrite try_except_run, edit_text_run.
  destruct (outcome a) as [[]|e]; simpl; by rewrite ?app_nil_r.
Qed.

(** One step of symbolic execution: the outermost sequencing is opened
    and its first command is run. *)
Ltac run_step :=
  first
    [ rewrite ret_run | rewrite raise_run | rewrite lift_run
    | rewrite emit_run | rewrite log_run | rewrite is_active_run
    | rewrite has_progress_message_run | rewrite path_exists_run
    | rewrite upload_cancelled_run | rewrite set_active_run
    | rewrite pop_active_run | rewrite pop_progress_message_run
    | rewrite remove_run | rewrite await_run | rewrite edit_text_run
    | rewrite notify_download_run | rewrite notify_upload_run
    | rewrite bind_run | rewrite try_except_run ];
  cbv beta iota.

Ltac run := repeat run_step.
(** ** Reasoning about runs *)

Section Obeys.
Variable rel : discipline.
Variable allowed : event -> Prop.
Hypothesis L : lawful rel allowed.

Lemma obeys_ret {A} (a : A) : obeys rel (ret a).
Proof. intros w. apply (law_refl _ _ L). Qed.

Lemma obeys_raise {A} e : obeys rel (@raise A e).
Proof. intros w. apply (law_refl _ _ L). Qed.

Lemma obeys_lift {A} (r : result A) : obeys rel (lift r).
Proof. intros w. apply (law_refl _ _ L). Qed.

Lemma obeys_get : obeys rel get.
Proof. intros w. apply (law_refl _ _ L). Qed.

Lemma obeys_bind {A B} (m : M A) (f : A -> M B) :
  obeys rel m -> (forall a, obeys rel (f a)) -> obeys rel (bind m f).
Proof.
  intros Hm Hf w. rewrite state_bind, events_bind.
  specialize (Hm w). destruct (value (m w)) as [a|e]; [|done].
  eapply (law_trans _ _ L); [exact Hm|apply Hf].
Qed.

Lemma obeys_bind_val {A B} (m : M A) (f : A -> M B) :
  obeys rel m ->
  (forall a, (exists w, value (m w) = Ok a) -> obeys rel (f a)) ->
  obeys rel (bind m f).
Proof.
  intros Hm Hf w. rewrite state_bind, events_bind.
  specialize (Hm w). destruct (value (m w)) as [a|e] eqn:Hv; [|done].
  eapply (law_trans _ _ L); [exact Hm|]. apply Hf. by exists w.
Qed.

Lemma obeys_try_except {A} (m : M A) (h : exn -> M A) :
  obeys rel m -> (forall e, obeys rel (h e)) -> obeys rel (try_except m h).
Proof.
  intros Hm Hh w. specialize (Hm w).
  unfold try_except, state, events in *.
  destruct (m w) as [[[a|e] w1] ev1]; simpl in *; [done|].
  specialize (Hh e w1). unfold state, events in Hh.
  destruct (h e w1) as [[r w2] ev2]. simpl in *.
  by eapply (law_trans _ _ L).
Qed.

Lemma obeys_finally {A} (m : M A) (f : M unit) :
  obeys rel m -> obeys rel f -> obeys rel (finally m f).
Proof.
  intros Hm Hf w. specialize (Hm w).
  unfold finally, state, events in *.
  destruct (m w) as [[r w1] ev1]. simpl in *.
  specialize (Hf w1). unfold state, events in Hf.
  destruct (f w1) as [[[[]|e] w2] ev2]; simpl in *;
    by eapply (law_trans _ _ L).
Qed.

Lemma obeys_emit ev : allowed ev -> obeys rel (emit ev).
Proof. intros H w. by apply (law_emit _ _ L). Qed.

Lemma obeys_log l : allowed (EvLog l) -> obeys rel (log l).
Proof. apply obeys_emit. Qed.

Lemma obeys_is_active t : obeys rel (is_active t).
Proof. apply obeys_bind; [apply obeys_get|intros; apply obeys_ret]. Qed.

Lemma obeys_has_progress_message t : obeys rel (has_progress_message t).
Proof. apply obeys_bind; [apply obeys_get|intros; apply obeys_ret]. Qed.

Lemma obeys_path_exists p : obeys rel (path_exists p).
Proof. apply obeys_bind; [apply obeys_get|intros; apply obeys_ret]. Qed.

Lemma obeys_upload_cancelled t m : obeys rel (upload_cancelled t m).
Proof. apply obeys_bind; [apply obeys_get|intros; apply obeys_ret]. Qed.

Lemma obeys_pop_active t : obeys rel (pop_active t).
Proof. intros w. apply (law_pop_active _ _ L). Qed.

Lemma obeys_pop_progress_message t : obeys rel (pop_progress_message t).
Proof. intros w. apply (law_progress _ _ L). Qed.

Lemma obeys_remove p : allowed (EvRemove p) -> obeys rel (remove p).
Proof.
  intros H w. change (events (remove p w)) with ([] ++ [EvRemove p]).
  eapply (law_trans _ _ L);
    [apply (law_files _ _ L w (files w ∖ {[p]}))|].
  by apply (law_emit _ _ L).
Qed.

Lemma obeys_happen h : obeys rel (happen h).
Proof.
  destruct h as [q|p].
  - intros w. pose proof ((law_cancel _ _ L) q w) as H.
    unfold happen, try_except, state, events in *.
    destruct (cancel_any_download q w) as [[[[]|e] w1] ev1]; simpl in *;
      [done|].
    eapply (law_trans _ _ L); [exact H|]. apply (law_emit _ _ L),
      (law_handler_error _ _ L).
  - intros w. apply (law_files _ _ L).
Qed.

Lemma obeys_happen_all hs : obeys rel (happen_all hs).
Proof.
  induction hs as [|h hs IH]; simpl; [apply obeys_ret|].
  apply obeys_bind; [apply obeys_happen|done].
Qed.

Lemma obeys_await {A} (a : awaited A) : obeys rel (await a).
Proof.
  apply obeys_bind; [apply obeys_happen_all|intros; apply obeys_lift].
Qed.

Lemma obeys_edit_text m t a :
  (forall d, allowed (EvEdit m t d)) -> obeys rel (edit_text m t a).
Proof.
  intros H. apply obeys_bind; [by apply obeys_emit|].
  intros _. apply obeys_await.
Qed.

Lemma obeys_notify_upload m t x a :
  (forall d, allowed (EvEdit m x d)) ->
  (forall e, allowed (EvLog (LUploadProgressNotShown t e))) ->
  obeys rel (notify_upload m t x a).
Proof.
  intros H1 H2. apply obeys_try_except; [by apply obeys_edit_text|].
  intros e. by apply obeys_log.
Qed.

Lemma obeys_notify_download m t x a :
  (forall d, allowed (EvEdit m x d)) ->
  (forall e, allowed (EvLog (LDownloadProgressNotShown t e))) ->
  obeys rel (notify_download m t x a).
Proof.
  intros H1 H2. apply obeys_try_except; [by apply obeys_edit_text|].
  intros e. by apply obeys_log.
Qed.

(** *** The parts of the program *)

Ltac obey :=
  repeat match goal with
    | |- obeys _ (ret _) => apply obeys_ret
    | |- obeys _ (raise _) => apply obeys_raise
    | |- obeys _ (lift _) => apply obeys_lift
    | |- obeys _ get => apply obeys_get
    | |- obeys _ (is_active _) => apply obeys_is_active
    | |- obeys _ (has_progress_message _) =>
        apply obeys_has_progress_message
    | |- obeys _ (path_exists _) => apply obeys_path_exists
    | |- obeys _ (upload_cancelled _ _) => apply obeys_upload_cancelled
    | |- obeys _ (pop_active _) => apply obeys_pop_active
    | |- obeys _ (pop_progress_message _) =>
        apply obeys_pop_progress_message
    | |- obeys _ (await _) => apply obeys_await
    | |- obeys _ (remove _) => apply obeys_remove
    | |- obeys _ (log _) => apply obeys_log
    | |- obeys _ (emit _) => apply obeys_emit
    | |- obeys _ (notify_upload _ _ _ _) =>
        apply obeys_notify_upload; intros ?
    | |- obeys _ (notify_download _ _ _ _) =>
        apply obeys_notify_download; intros ?
    | |- obeys _ (edit_text _ _ _) => apply obeys_edit_text; intros ?
    | |- obeys _ (bind _ _) => apply obeys_bind; [|intros ?]
    | |- obeys _ (try_except _ _) => apply obeys_try_except; [|intros ?]
    | |- obeys _ (if ?b then _ else _) => destruct b
    | |- obeys _ (match ?x with _ => _ end) => destruct x
    end.

Section Upload.
Hypothesis upload_allowed :
  forall ev, upload_driver_event ev = true -> allowed ev.

Lemma obeys_show_upload_status m name t size status now fmt edit b l :
  obeys rel (show_upload_status m name t size status now fmt edit b l).
Proof. unfold show_upload_status. obey; by apply upload_allowed. Qed.

Lemma obeys_upload_loop u m name t steps : forall b l,
  obeys rel (upload_loop u m name t steps b l).
Proof.
  induction steps as [|step steps IH]; intros b l; simpl.
  - obey; try by apply upload_allowed.
    apply obeys_show_upload_status.
  - obey; try by apply upload_allowed.
    + apply obeys_show_upload_status.
    + apply IH.
Qed.

Lemma obeys_upload_with_progress u m file name t :
  obeys rel (upload_with_progress u m file name t).
Proof.
  unfold upload_with_progress. obey; try by apply upload_allowed.
  apply obeys_upload_loop.
Qed.
End Upload.

Section Download.
Hypothesis download_allowed :
  forall ev, download_driver_event ev = true -> allowed ev.

Lemma obeys_download_loop m name t reads : forall buffer last,
  obeys rel (download_loop m name t reads buffer last).
Proof.
  induction reads as [|step reads IH]; intros buffer last; simpl.
  - obey; by apply download_allowed.
  - obey; try by apply download_allowed.
    all: apply IH.
Qed.
End Download.

Section Orchestrator.
Hypothesis upload_allowed :
  forall ev, upload_driver_event ev = true -> allowed ev.
Hypothesis orchestrator_allowed :
  forall ev, orchestrator_event ev = true -> allowed ev.

Lemma obeys_conclude_download e m name t out rc :
  obeys rel (conclude_download e m name t out rc).
Proof.
  unfold conclude_download. obey; try by apply orchestrator_allowed.
  by apply obeys_upload_with_progress.
Qed.

Lemma obeys_on_error e name t m err :
  obeys rel (on_error e name t m err).
Proof. unfold on_error. obey; by apply orchestrator_allowed. Qed.

Lemma obeys_finalize t out : obeys rel (finalize t out).
Proof. unfold finalize. obey; by apply orchestrator_allowed. Qed.
End Orchestrator.
End Obeys.
(** ** The cancel handler *)

Lemma terminate_all_run cs w :
  terminate_all cs w = (signalling cs, w, signalled cs).
Proof.
  induction cs as [|[c [[]|e]] cs IH]; [done| |done].
  simpl. unfold bind at 1. unfold terminate, bind, lift, emit.
  rewrite IH. by destruct (signalling cs).
Qed.

Lemma teardown_run q process t w :
  teardown q process t w
  = (teardown_value q t process, w, teardown_events q t process).
Proof.
  unfold teardown, teardown_value, teardown_events, teardown_attempt,
    try_except.
  unfold bind at 1. unfold lift at 1.
  destruct (cq_lookup q) as [[]|e1]; [|by destruct e1].
  unfold bind at 1. unfold lift at 1.
  destruct (cq_children q) as [cs|e2]; [|by destruct e2].
  unfold bind at 1. rewrite terminate_all_run.
  destruct (signalling cs) as [[]|e3];
    [|destruct e3; cbn; by rewrite ?app_nil_r].
  unfold terminate, bind, lift, log, emit, raise.
  destruct (cq_parent q) as [[]|e4];
    [|destruct e4; cbn; by rewrite ?app_nil_r].
  destruct (cq_wait q) as [[]|e5]; [done|].
  destruct e5; cbn; by rewrite <- ?app_assoc.
Qed.

Lemma cancel_unanswered q w e :
  cq_answer q = Raise e ->
  cancel_any_download q w = (Raise e, w, [EvAnswer false]).
Proof.
  intros H. unfold cancel_any_download, bind, emit, lift. by rewrite H.
Qed.

Lemma cancel_malformed q w u e :
  cq_answer q = Ok u -> cancel_task_id (cq_data q) = Raise e ->
  cancel_any_download q w = (Raise e, w, [EvAnswer true]).
Proof.
  intros H1 H2. unfold cancel_any_download, bind, emit, lift.
  by rewrite H1, H2.
Qed.

Lemma cancel_run q w u t :
  cq_answer q = Ok u -> cancel_task_id (cq_data q) = Ok t ->
  cancel_any_download q w = cancel_outcome q t w.
Proof.
  intros H1 H2. unfold cancel_any_download, cancel_outcome.
  unfold bind at 1. unfold emit at 1. unfold bind at 1. unfold lift at 1.
  rewrite H1. unfold bind at 1. unfold lift at 1. rewrite H2.
  unfold bind at 1. unfold pop_active at 1. cbn.
  destruct (active_processes w !! t) as [[process filename]|] eqn:Hap;
    destruct (progress_messages w !! t) as [m|] eqn:Hpm;
    unfold bind at 1; rewrite ?teardown_run;
    try destruct (teardown_value q t process) as [[]|e0];
    unfold remove_partial, bind, emit, log, emit, lift, path_exists,
      remove, get, put, ret; cbn;
    try destruct (bool_decide (filename ∈ files w)) eqn:Hf; cbn;
    try destruct (cq_remove q) as [[]|e1]; cbn;
    destruct (cq_edit q) as [[]|e]; cbn;
    rewrite <- ?app_assoc, ?app_nil_r; reflexivity.
Qed.

Lemma cancel_cases q w :
  (exists e d, cancel_any_download q w = (Raise e, w, [EvAnswer d]))
  \/ (exists t, cancel_any_download q w = cancel_outcome q t w).
Proof.
  destruct (cq_answer q) as [u|e] eqn:H1.
  - destruct (cancel_task_id (cq_data q)) as [t|e] eqn:H2.
    + right. exists t. by eapply cancel_run.
    + left. exists e, true. by eapply cancel_malformed.
  - left. exists e, false. by apply cancel_unanswered.
Qed.

Lemma signalled_forall (P : event -> Prop) cs :
  (forall c, P (EvTerminate c)) -> Forall P (signalled cs).
Proof.
  intros HP. induction cs as [|[c [[]|e]] cs IH]; simpl; by constructor.
Qed.

Lemma teardown_events_forall (P : event -> Prop) q t p :
  (forall c, P (EvTerminate c)) ->
  P (EvLog (LProcessCancelled t)) -> P (EvLog (LProcessGone t)) ->
  Forall P (teardown_events q t p).
Proof.
  intros HT HC HG. unfold teardown_events.
  assert (Forall P (teardown_attempt q t p).2) as H.
  { unfold teardown_attempt.
    destruct (cq_lookup q); [|by constructor].
    destruct (cq_children q) as [cs|]; [|by constructor].
    pose proof (signalled_forall P cs HT) as Hcs.
    destruct (signalling cs); [|done].
    destruct (cq_parent q); [|done].
    destruct (cq_wait q); simpl; apply Forall_app; split; try done;
      by repeat constructor. }
  destruct (teardown_attempt q t p) as [[u|e] evs]; [done|].
  destruct e; try done. apply Forall_app. split; [done|].
  by repeat constructor.
Qed.

(** The events of the handler: its own, and its reports on a process are
    on the process of the task that the query names. *)
Lemma cancel_outcome_events (P : event -> Prop) q t w :
  (forall ev, handler_event ev = true ->
              (forall t', t' <> t -> no_teardown t' ev) -> P ev) ->
  Forall P (events (cancel_outcome q t w)).
Proof.
  intros HP.
  assert (forall ev, handler_event ev = true ->
            match ev with
            | EvLog (LProcessCancelled _) | EvLog (LProcessGone _) => False
            | _ => True
            end -> P ev) as HP'.
  { intros ev Hev Hno. apply HP; [done|]. intros t' _.
    by destruct ev as [| | |[]| | | | | |]. }
  unfold cancel_outcome, events.
  destruct (active_processes w !! t) as [[p f]|]; simpl.
  - assert (Forall P (teardown_events q t p)) as Htd.
    { apply teardown_events_forall; try (intros; by apply HP');
        (apply HP; [done|]; by intros t' Hne). }
    destruct (teardown_value q t p); simpl.
    + assert (Forall P
                (EvAnswer true :: teardown_events q t p
                 ++ (if bool_decide (f ∈ files w) then [EvRemove f] else [])
                 ++ match progress_messages w !! t with
                    | Some m => [EvEdit m (TCancelled (cancelled_name f))
                                        (delivered (cq_edit q))]
                    | None => []
                    end)) as Hall.
      { constructor; [by apply HP'|]. apply Forall_app. split; [done|].
        destruct (bool_decide (f ∈ files w));
          destruct (progress_messages w !! t); repeat constructor;
          by apply HP'. }
      destruct (bool_decide (f ∈ files w)); [|done].
      destruct (cq_remove q); [done|]. simpl. constructor; [by apply HP'|done].
    + constructor; [by apply HP'|done].
  - destruct (progress_messages w !! t); repeat constructor; by apply HP'.
Qed.

Lemma cancel_outcome_state q t w :
  exists fs,
    state (cancel_outcome q t w)
    = World (delete t (active_processes w))
            (delete t (progress_messages w)) fs
    /\ fs ⊆ files w.
Proof.
  unfold cancel_outcome, state.
  destruct (active_processes w !! t) as [[p f]|]; simpl;
    [|by eexists].
  destruct (teardown_value q t p); simpl; [|by eexists].
  destruct (bool_decide (f ∈ files w)); [|by eexists].
  destruct (cq_remove q); simpl; eexists;
    (split; [done|first [done|by apply subseteq_difference_l]]).
Qed.

Lemma cancel_outcome_handler q t w :
  Forall (fun ev => handler_event ev = true) (events (cancel_outcome q t w)).
Proof. apply cancel_outcome_events. by intros ev Hev _. Qed.

Lemma cancel_events_handler q w :
  Forall (fun ev => handler_event ev = true)
         (events (cancel_any_download q w)).
Proof.
  destruct (cancel_cases q w) as [(e & d & ->)|(t & ->)].
  - by repeat constructor.
  - apply cancel_outcome_handler.
Qed.

(** *** Two lawful disciplines *)

Lemma only_lawful (kind : event -> Prop) :
  (forall ev, handler_event ev = true -> kind ev) -> lawful (only kind) kind.
Proof.
  intros Hk. split; unfold only; try by constructor.
  - intros. apply Forall_app. by split.
  - intros q w. eapply Forall_impl; [apply cancel_events_handler|].
    intros ev. apply Hk.
  - intros e. by apply Hk.
Qed.

Lemma cancel_outcome_guarded task_id q t w :
  entry_guarded task_id w (state (cancel_outcome q t w))
                (events (cancel_outcome q t w)).
Proof.
  unfold entry_guarded.
  destruct (cancel_outcome_state q t w) as (fs & -> & _). simpl.
  destruct (decide (t = task_id)) as [->|Hne].
  - rewrite lookup_delete_eq. split.
    + intros H. by destruct H.
    + intros Hap. split; [done|].
      unfold cancel_outcome, events. rewrite Hap. simpl.
      destruct (progress_messages w !! task_id); by repeat constructor.
  - rewrite lookup_delete_ne by done.
    assert (Forall (no_teardown task_id) (events (cancel_outcome q t w)))
      as Hev.
    { apply cancel_outcome_events. intros ev _ H. apply H. congruence. }
    split; intros H; by split.
Qed.

Lemma entry_guarded_lawful task_id :
  lawful (entry_guarded task_id) (no_teardown task_id).
Proof.
  split; unfold entry_guarded.
  - intros w. split; intros H; by split.
  - intros w1 w2 w3 ev1 ev2 [H1 H1'] [H2 H2']. split.
    + intros H3. destruct (H2 H3) as [Hw2 Hev2].
      destruct (H1 Hw2) as [Hw1 Hev1]. split; [done|].
      apply Forall_app; by split.
    + intros Hw1. destruct (H1' Hw1) as [Hw2 Hev1].
      destruct (H2' Hw2) as [Hw3 Hev2]. split; [done|].
      apply Forall_app; by split.
  - intros w ev Hev. split; intros H; split; by repeat constructor.
  - intros w k. simpl. split.
    + intros H. split; [|done].
      destruct (decide (k = task_id)) as [->|Hne].
      * rewrite lookup_delete_eq in H. by destruct H.
      * by rewrite lookup_delete_ne in H.
    + intros H. split; [|done].
      destruct (decide (k = task_id)) as [->|Hne].
      * by rewrite lookup_delete_eq.
      * by rewrite lookup_delete_ne.
  - intros w pm. simpl. split; intros H; by split.
  - intros w fs. simpl. split; intros H; by split.
  - intros q w.
    destruct (cancel_cases q w) as [(e & d & ->)|(t & ->)].
    + unfold state, events. simpl.
      split; intros H; split; by repeat constructor.
    + apply cancel_outcome_guarded.
  - done.
Qed.
(** ** The URL rewriting *)

Lemma mediaset_lang m :
  lang mediaset_pattern m -> m ∈ manifest_forms.
Proof.
  unfold mediaset_pattern. intros H.
  apply lang_cat_inv in H as (m1 & m' & -> & H1 & H).
  apply lang_cat_inv in H as (m2 & m'' & -> & H2 & H).
  apply lang_cat_inv in H as (m3 & m4 & -> & H3 & H4).
  apply lang_group_inv, lang_str_inv in H1 as ->.
  apply lang_str_inv in H2 as ->.
  apply lang_group_inv, lang_str_inv in H4 as ->.
  apply lang_opt_inv in H3 as [->|H3];
    [unfold manifest_forms, of_string; simpl;
     rewrite !elem_of_cons; auto 10|].
  apply lang_group_inv, lang_alt_inv in H3 as [H3|H3];
    apply lang_str_inv in H3 as ->; unfold manifest_forms, of_string; simpl;
    rewrite !elem_of_cons; auto 10.
Qed.

Lemma manifest_forms_cases (M : chars) :
  M ∈ manifest_forms ->
  M = of_string "/mpd-cenc.ism/web.mpd" \/ M = of_string "/mpd-cenc.ism/ctv.mpd"
  \/ M = of_string "/mpd-cenc.ism/.mpd".
Proof.
  unfold manifest_forms. simpl. intros H.
  repeat (apply elem_of_cons in H as [H|H]; [auto|]).
  by apply elem_of_nil in H.
Qed.

Lemma manifest_found s rest g :
  match_here mediaset_pattern 3 s = Some (rest, g) ->
  exists M, M ∈ manifest_forms /\ s = M ++ rest.
Proof.
  intros H. apply match_here_sound in H as (m & -> & L).
  exists m. split; [by apply mediaset_lang|done].
Qed.

Lemma manifest_matches M rest :
  M ∈ manifest_forms ->
  exists g, match_here mediaset_pattern 3 (M ++ rest) = Some (rest, g).
Proof.
  intros H. apply manifest_forms_cases in H as [->| [->| ->]];
    vm_compute; eexists; reflexivity.
Qed.

Lemma manifest_forms_nonempty M :
  M ∈ manifest_forms -> exists c M', M = c :: M'.
Proof.
  intros H. apply manifest_forms_cases in H as [->| [->| ->]];
    vm_compute; eauto.
Qed.

Lemma manifest_tail_clear c M' :
  c :: M' ∈ manifest_forms -> clear_of_replacement M' = true.
Proof.
  intros H. apply manifest_forms_cases in H as [H| [H| H]];
    vm_compute in H; injection H as _ ->; reflexivity.
Qed.

(** *** How [sub] unfolds *)

Definition msub := sub mediaset_pattern 3 mediaset_replacement.

Lemma sub_from_skip r n repl (l s : chars) :
  sub_from r n repl (l ++ s) (length l) = sub_from r n repl s 0
  \/ (s = [] /\ match_here r n [] <> None).
Proof.
  induction l as [|c l IH]; simpl; [by left|].
  destruct l as [|c' l]; simpl in *.
  - destruct s as [|c' s]; [|by left]. simpl.
    destruct (match_here r n []); [by right|by left].
  - exact IH.
Qed.

Lemma msub_nil : msub [] = [].
Proof. reflexivity. Qed.

Lemma msub_miss c s :
  match_here mediaset_pattern 3 (c :: s) = None -> msub (c :: s) = c :: msub s.
Proof. unfold msub, sub. simpl. by intros ->. Qed.

Lemma msub_hit M rest :
  M ∈ manifest_forms -> msub (M ++ rest) = mediaset_replacement ++ msub rest.
Proof.
  intros HM. destruct (manifest_matches M rest HM) as [g Hg].
  destruct (manifest_forms_nonempty M HM) as (c & M' & ->).
  unfold msub, sub. simpl app. cbn [sub_from].
  simpl app in Hg. rewrite Hg.
  replace (length (c :: M' ++ rest) - length rest)%nat with (S (length M'))
    by (simpl; rewrite length_app; lia).
  f_equal.
  destruct (sub_from_skip mediaset_pattern 3 mediaset_replacement M' rest)
    as [->|[_ Hne]]; [done|].
  by contradict Hne.
Qed.

(** *** Rewriting leaves nothing to rewrite *)

Lemma msub_keeps_prefix (m : chars) :
  clear_of_replacement m = true ->
  forall s, starts_with m (msub s) = true -> starts_with m s = true.
Proof.
  induction m as [|x m IH]; [done|]. intros Hclear s.
  cbn [clear_of_replacement] in Hclear.
  apply andb_true_iff in Hclear as [Hx Hm].
  apply andb_true_iff in Hx as [Hx1 Hx2].
  apply negb_true_iff in Hx1, Hx2.
  destruct s as [|c s]; [done|].
  destruct (match_here mediaset_pattern 3 (c :: s)) as [[rest g]|] eqn:Hmh.
  - apply manifest_found in Hmh as (M & HM & ->).
    rewrite (msub_hit M rest HM). intros H.
    apply starts_with_split in H as [H|H]; congruence.
  - rewrite (msub_miss c s Hmh). simpl.
    intros H. apply andb_true_iff in H as [-> H]. simpl. by apply IH.
Qed.

Lemma manifest_free_replacement o :
  manifest_free o -> manifest_free (mediaset_replacement ++ o).
Proof.
  intros Ho. unfold mediaset_replacement. simpl.
  repeat (split; [vm_compute; reflexivity|]). exact Ho.
Qed.

Lemma msub_manifest_free_aux n : forall s,
  (length s <= n)%nat -> manifest_free (msub s).
Proof.
  induction n as [|n IH]; intros s Hlen.
  - destruct s; [|simpl in Hlen; lia]. rewrite msub_nil. by vm_compute.
  - destruct s as [|c s]; [rewrite msub_nil; by vm_compute|].
    destruct (match_here mediaset_pattern 3 (c :: s)) as [[rest g]|] eqn:Hmh.
    + apply manifest_found in Hmh as (M & HM & Hs). rewrite Hs.
      rewrite (msub_hit M rest HM). apply manifest_free_replacement.
      apply IH. destruct (manifest_forms_nonempty M HM) as (c' & M' & ->).
      apply (f_equal length) in Hs. simpl in Hs, Hlen.
      rewrite length_app in Hs. lia.
    + rewrite (msub_miss c s Hmh). simpl. split.
      * destruct (match_here mediaset_pattern 3 (c :: msub s))
          as [[rest g]|] eqn:Hmh'; [|done].
        apply manifest_found in Hmh' as (M & HM & Hs).
        destruct (manifest_forms_nonempty M HM) as (c' & M' & ->).
        injection Hs as <- Hs.
        assert (starts_with M' s = true) as Hpre.
        { apply msub_keeps_prefix; [by eapply manifest_tail_clear|].
          rewrite Hs. apply starts_with_prefix. }
        apply starts_with_app in Hpre.
        destruct (manifest_matches (c :: M') (drop (length M') s) HM)
          as [g' Hg'].
        simpl in Hg'. rewrite <- Hpre in Hg'. congruence.
      * apply IH. simpl in Hlen. lia.
Qed.

Lemma msub_manifest_free s : manifest_free (msub s).
Proof. by apply (msub_manifest_free_aux (length s)). Qed.

Lemma manifest_free_search t :
  manifest_free t -> search mediaset_pattern 3 t = None.
Proof.
  induction t as [|c t IH]; cbn [manifest_free search]; intros [-> H];
    [done|]. by apply IH.
Qed.

Lemma search_has_manifest s g :
  search mediaset_pattern 3 s = Some g ->
  existsb (fun p => occurs p s) manifest_forms = true.
Proof.
  induction s as [|c s IH]; simpl search.
  - destruct (match_here mediaset_pattern 3 []) eqn:H; [|done].
    by vm_compute in H.
  - destruct (match_here mediaset_pattern 3 (c :: s)) as [[rest g']|] eqn:H.
    + intros _. apply manifest_found in H as (M & HM & ->).
      apply existsb_exists. exists M. split; [by apply list_elem_of_In|].
      destruct (manifest_forms_nonempty M HM) as (c' & M' & ->).
      simpl app. cbn [occurs].
      change (c' :: M' ++ rest) with ((c' :: M') ++ rest).
      by rewrite starts_with_prefix.
    + intros H'. apply IH in H'. apply existsb_exists in H' as (M & HM & Ho).
      apply existsb_exists. exists M. split; [done|].
      cbn [occurs]. rewrite Ho. apply orb_true_r.
Qed.

Lemma of_to_string l : of_string (to_string l) = l.
Proof. apply list_ascii_of_string_of_list_ascii. Qed.

(** C10. The URL rewriting leaves alone every URL in which none of the
    three manifest forms occurs, and rewriting a rewritten URL changes
    nothing. *)
Theorem transform_mediaset_url_identity_idempotent :
  (forall url, has_manifest url = false -> transform_mediaset_url url = url)
  /\ (forall url,
        transform_mediaset_url (transform_mediaset_url url)
        = transform_mediaset_url url).
Proof.
  split; intros url.
  - unfold has_manifest, transform_mediaset_url. intros H.
    destruct (search mediaset_pattern 3 (of_string url)) as [g|] eqn:Hs;
      [|done].
    apply search_has_manifest in Hs. congruence.
  - unfold transform_mediaset_url at 2 3.
    destruct (search mediaset_pattern 3 (of_string url)) as [g|] eqn:Hs.
    + unfold transform_mediaset_url. rewrite of_to_string.
      fold (msub (of_string url)).
      by rewrite (manifest_free_search _ (msub_manifest_free _)).
    + unfold transform_mediaset_url. by rewrite Hs.
Qed.

Lemma transform_mediaset_url_identity_witness :
  transform_mediaset_url "https://example.com/video/master.mpd"
  = "https://example.com/video/master.mpd".
Proof.
  apply (proj1 transform_mediaset_url_identity_idempotent).
  vm_compute. reflexivity.
Defined.
(** ** Progress parsing *)

Lemma progress_frame_starts m :
  lang progress_pattern m -> exists m', m = of_string "[download]" ++ m'.
Proof.
  unfold progress_pattern. intros H.
  apply lang_cat_inv in H as (m1 & m' & -> & H1 & _).
  apply lang_str_inv in H1 as ->. by exists m'.
Qed.

(** *** The pattern of the source accepts every frame of the grammar *)

Lemma lang_many1_intro p m :
  m <> [] -> forallb p m = true -> lang (Many1 p) m.
Proof.
  destruct m as [|c m]; [done|]. simpl. intros _ H.
  apply andb_true_iff in H as [Hc Hm]. by constructor.
Qed.

Lemma lang_many1_weaken (p q : ascii -> bool) m :
  (forall c, p c = true -> q c = true) ->
  lang (Many1 p) m -> lang (Many1 q) m.
Proof.
  intros Hpq H. apply lang_many1_inv in H as [Hne Hall].
  apply lang_many1_intro; [done|].
  rewrite forallb_forall in *. auto.
Qed.

Lemma forallb_app_2 {A} (p : A -> bool) l1 l2 :
  forallb p l1 = true -> forallb p l2 = true -> forallb p (l1 ++ l2) = true.
Proof. intros H1 H2. rewrite forallb_app. by rewrite H1, H2. Qed.

Lemma digits_figures m :
  lang (Many1 is_digit) m -> m <> [] /\ forallb digit_or_dot m = true.
Proof.
  intros H. apply lang_many1_inv.
  apply (lang_many1_weaken is_digit); [|done].
  intros c Hc. unfold digit_or_dot. by rewrite Hc.
Qed.

Lemma figure_figures m :
  lang figure m -> m <> [] /\ forallb digit_or_dot m = true.
Proof.
  unfold figure. intros H. apply lang_alt_inv in H as [H|H].
  - apply lang_cat_inv in H as (m1 & m2 & -> & H1 & H2).
    apply digits_figures in H1 as [Hne H1]. split; [by destruct m1|].
    apply forallb_app_2; [done|].
    apply lang_opt_inv in H2 as [->|H2]; [done|].
    apply lang_cat_inv in H2 as (m3 & m4 & -> & H3 & H4).
    apply lang_str_inv in H3 as ->. apply lang_many0_inv in H4.
    simpl. rewrite forallb_forall in *. intros c Hc.
    unfold digit_or_dot. by rewrite (H4 c Hc).
  - apply lang_cat_inv in H as (m1 & m2 & -> & H1 & H2).
    apply lang_str_inv in H1 as ->. split; [done|].
    by apply digits_figures in H2 as [_ H2].
Qed.

Lemma digit_or_dot_listed c :
  digit_or_dot c = true -> is_one_of "0123456789." c = true.
Proof. by destruct c as [[] [] [] [] [] [] [] []]. Qed.

Lemma is_letter_word c : is_letter c = true -> is_word c = true.
Proof. by destruct c as [[] [] [] [] [] [] [] []]. Qed.

Lemma clock_figures m : lang clock m -> lang (Many1 digit_or_colon) m.
Proof.
  assert (forall m, lang (Many1 is_digit) m ->
                    m <> [] /\ forallb digit_or_colon m = true) as Hd.
  { intros m' H. apply lang_many1_inv.
    apply (lang_many1_weaken is_digit); [|done].
    intros c Hc. unfold digit_or_colon. by rewrite Hc. }
  unfold clock. intros H.
  apply lang_cat_inv in H as (m1 & m2 & -> & H1 & H2).
  apply Hd in H1 as [Hne H1].
  apply lang_many1_intro; [by destruct m1|].
  apply forallb_app_2; [done|].
  apply lang_cat_inv in H2 as (m3 & m4 & -> & H3 & H4).
  apply lang_str_inv in H3 as ->.
  apply lang_cat_inv in H4 as (m5 & m6 & -> & H5 & H6).
  apply Hd in H5 as [_ H5].
  apply forallb_app_2; [done|]. apply forallb_app_2; [done|].
  apply lang_opt_inv in H6 as [->|H6]; [done|].
  apply lang_cat_inv in H6 as (m7 & m8 & -> & H7 & H8).
  apply lang_str_inv in H7 as ->.
  apply Hd in H8 as [_ H8]. by apply forallb_app_2.
Qed.

Lemma figure_many1 m : lang figure m -> lang (Many1 digit_or_dot) m.
Proof. intros H. apply lang_many1_intro; by apply figure_figures. Qed.

Lemma human_size_in_pattern m :
  lang human_size m -> lang (Cat (Many1 digit_or_dot) (Many1 is_word)) m.
Proof.
  unfold human_size. intros H.
  apply lang_cat_inv in H as (m1 & m2 & -> & H1 & H2).
  apply lang_cat; [by apply figure_many1|].
  apply (lang_many1_weaken is_letter); [apply is_letter_word|done].
Qed.

Lemma progress_grammar_in_pattern m :
  lang progress_grammar m -> lang progress_pattern m.
Proof.
  unfold progress_grammar. intros H.
  do 17 (apply lang_cat_inv in H as (? & ? & -> & ? & H)).
  unfold progress_pattern.
  repeat (apply lang_cat; [try assumption|]).
  - apply lang_group.
    apply (lang_many1_weaken digit_or_dot); [apply digit_or_dot_listed|].
    by apply figure_many1.
  - apply lang_group. by apply human_size_in_pattern.
  - apply lang_group.
    match goal with
    | H : lang (Cat human_size _) _ |- _ =>
        apply lang_cat_inv in H as (m1 & m2 & -> & Hsize & Hper)
    end.
    apply human_size_in_pattern in Hsize.
    apply lang_cat_inv in Hsize as (m3 & m4 & -> & Hfig & Hunit).
    rewrite <- app_assoc. apply lang_cat; [done|]. by apply lang_cat.
  - apply lang_group. by apply clock_figures.
Qed.

(** C6. The line whose percentage reads 1.2.3 holds no frame of the
    progress grammar, yet parsing it does not return no snapshot: it
    raises ValueError.  A line whose size and rate have no figure and
    whose ETA has no digit holds no frame either, and gives a snapshot.
    The sample line holds a frame of the grammar and gives a snapshot
    with percent 42. *)
Theorem parse_download_line_raises_outside_grammar :
  ~ matches_progress_grammar (of_string garbled_line)
  /\ parse_download_line (of_string garbled_line) = Raise ValueError
  /\ ~ matches_progress_grammar (of_string loose_line)
  /\ parse_download_line (of_string loose_line)
     = Ok (Some (Snapshot 5 ".x" ".y/s" ":"))
  /\ matches_progress_grammar (of_string sample_line)
  /\ parse_download_line (of_string sample_line)
     = Ok (Some (Snapshot 42 "100.0MiB" "5.0MiB/s" "00:10")).
Proof.
  split_and!.
  - apply (search_complete progress_grammar 0). vm_compute. reflexivity.
  - vm_compute. reflexivity.
  - apply (search_complete progress_grammar 0). vm_compute. reflexivity.
  - vm_compute. reflexivity.
  - destruct (search progress_grammar 0 (of_string sample_line)) as [g|]
      eqn:H; [|by vm_compute in H].
    by apply search_sound in H.
  - vm_compute. reflexivity.
Qed.
(** ** Upload progress *)

(** C5. After 29 of the 50 chunks of 100 MiB of a file the percentage
    is 57, while the floor of bytes_done * 100 / bytes_total is 58: the
    quotient is rounded to a double before it is multiplied by 100.  The
    same happens for 29 bytes of 100, and the result can also lie above
    the floor.  For the sample status the result is 50 percent at 25
    bytes/s, and without elapsed time the rate is zero. *)
Theorem upload_percentage_is_not_the_floor :
  parse_upload_status 3040870400 5242880000 2936012800 (float_of 2)
  = Ok (57, Float (float_of 52428800))
  /\ 3040870400 * 100 / 5242880000 = 58
  /\ upload_percentage 29 100 = Ok 28
  /\ 29 * 100 / 100 = 29
  /\ upload_percentage 91742954865674 136929783381603 = Ok 67
  /\ 91742954865674 * 100 / 136929783381603 = 66
  /\ parse_upload_status 50 100 0 (float_of 2) = Ok (50, Float (float_of 25))
  /\ upload_speed 50 0 (float_of 0) = Ok (Int 0).
Proof. split_and!; vm_compute; reflexivity. Qed.
(** ** Cancelling *)

Lemma of_string_app s1 s2 :
  of_string (s1 +:+ s2) = of_string s1 ++ of_string s2.
Proof. induction s1 as [|c s1 IH]; simpl; [done|]. by rewrite <- IH. Qed.

Lemma to_of_string s : to_string (of_string s) = s.
Proof. apply string_of_list_ascii_of_string. Qed.

Lemma cancel_task_id_button task_id :
  cancel_task_id ("cancel_" +:+ task_id) = Ok task_id.
Proof.
  unfold cancel_task_id. rewrite of_string_app. simpl.
  by rewrite to_of_string.
Qed.





(** ** Uploading without a credential *)

Lemma only_forall kind {A} (m : M A) w :
  obeys (only kind) m -> Forall kind (events (m w)).
Proof. intros H. apply H. Qed.

Lemma not_transfer_lawful :
  lawful (only (fun ev => transfer_event ev = false))
         (fun ev => transfer_event ev = false).
Proof. apply only_lawful. by intros []. Qed.

(** C8. When the credential provider returns no service the upload
    driver returns nothing and neither creates an upload request nor asks
    for a chunk. *)
Theorem upload_without_credential_transfers_nothing
    (u : upload_env) (message : Z) (file_path name task_id : string)
    (w : world) :
  outcome (u_auth u) = Ok false ->
  value (upload_with_progress u message file_path name task_id w) = Ok None
  /\ Forall (fun ev => transfer_event ev = false)
            (events (upload_with_progress u message file_path name task_id w)).
Proof.
  intros Hauth. split.
  - unfold upload_with_progress. run. rewrite Hauth. cbv beta iota.
    cbn [negb]. cbv iota. run.
    destruct (outcome (u_auth_edit u)) as [[]|e]; run; [done|].
    match goal with
    | |- context [bool_decide ?P] => destruct (bool_decide P)
    end; run; [|done].
    by destruct (outcome (u_error_edit u)) as [[]|e'].
  - apply only_forall. unfold upload_with_progress.
    pose proof not_transfer_lawful as L.
    apply (obeys_try_except _ _ L).
    + apply (obeys_bind _ _ L); [by apply (obeys_emit _ _ L)|]. intros _.
      apply (obeys_bind_val _ _ L); [apply (obeys_await _ _ L)|].
      intros service [w' Hv]. rewrite value_await, Hauth in Hv.
      injection Hv as <-. simpl.
      apply (obeys_bind _ _ L); [by apply (obeys_edit_text _ _ L)|].
      intros _. apply (obeys_ret _ _ L).
    + intros e. apply (obeys_bind _ _ L); [by apply (obeys_log _ _ L)|].
      intros _.
      apply (obeys_bind _ _ L);
        [apply (obeys_has_progress_message _ _ L)|].
      intros shown.
      apply (obeys_bind _ _ L); [|intros; apply (obeys_ret _ _ L)].
      destruct shown; [|apply (obeys_ret _ _ L)].
      apply (obeys_try_except _ _ L);
        [by apply (obeys_edit_text _ _ L)|intros; apply (obeys_ret _ _ L)].
Qed.

Lemma upload_without_credential_transfers_nothing_witness :
  value (upload_with_progress no_credential_upload 5 "v.mp4" "v.mp4" "t1"
                              sample_world) = Ok None.
Proof.
  exact (proj1 (upload_without_credential_transfers_nothing
                  no_credential_upload 5 "v.mp4" "v.mp4" "t1" sample_world
                  eq_refl)).
Defined.
(** ** What a finished download reports *)






(** ** The percentages shown while downloading *)

Lemma silent_lawful : lawful (only silent) silent.
Proof. apply only_lawful. by intros [? [] ?| | | | | | | | |]. Qed.

Lemma forwarded_app ev1 ev2 :
  forwarded_percents (ev1 ++ ev2)
  = forwarded_percents ev1 ++ forwarded_percents ev2.
Proof. apply omap_app. Qed.

Lemma forwarded_silent evs :
  Forall silent evs -> forwarded_percents evs = [].
Proof.
  induction 1 as [|ev evs Hev _ IH]; [done|].
  unfold forwarded_percents in *. simpl. unfold silent in Hev.
  by rewrite Hev.
Qed.

Lemma silent_run {A} (m : M A) w :
  obeys (only silent) m -> forwarded_percents (events (m w)) = [].
Proof. intros H. apply forwarded_silent, H. Qed.

Lemma meanwhile_silent {A} (a : awaited A) w :
  forwarded_percents (meanwhile_events a w) = [].
Proof. apply silent_run, (obeys_happen_all _ _ silent_lawful). Qed.

Lemma forwarded_bind_l {A B} (m : M A) (f : A -> M B) w :
  obeys (only silent) m ->
  forwarded_percents (events (bind m f w))
  = match value (m w) with
    | Ok a => forwarded_percents (events (f a (state (m w))))
    | Raise _ => []
    end.
Proof.
  intros H. rewrite events_bind.
  destruct (value (m w)); [|by apply silent_run].
  by rewrite forwarded_app, silent_run.
Qed.

Lemma forwarded_bind_r {A B} (m : M A) (f : A -> M B) w :
  (forall a, obeys (only silent) (f a)) ->
  forwarded_percents (events (bind m f w))
  = forwarded_percents (events (m w)).
Proof.
  intros H. rewrite events_bind. destruct (value (m w)); [|done].
  by rewrite forwarded_app, (silent_run (f a)), app_nil_r.
Qed.

Lemma forwarded_try_except {A} (m : M A) (h : exn -> M A) w :
  (forall e, obeys (only silent) (h e)) ->
  forwarded_percents (events (try_except m h w))
  = forwarded_percents (events (m w)).
Proof.
  intros H. rewrite events_try_except. destruct (value (m w)); [done|].
  by rewrite forwarded_app, (silent_run (h e)), app_nil_r.
Qed.

Lemma forwarded_finally {A} (m : M A) (f : M unit) w :
  obeys (only silent) f ->
  forwarded_percents (events (finally m f w))
  = forwarded_percents (events (m w)).
Proof.
  intros H. pose proof (silent_run f (state (m w)) H) as Hf.
  unfold finally, events, state in *.
  destruct (m w) as [[r w1] ev1]. simpl in *.
  destruct (f w1) as [[[[]|e] w2] ev2]; simpl in *;
    by rewrite forwarded_app, Hf, app_nil_r.
Qed.

(** The loop forwards strictly increasing percentages, all above the
    last one it had forwarded. *)
Ltac percents :=
  unfold events in *; simpl in *;
  rewrite ?app_nil_r, ?forwarded_app, ?meanwhile_silent;
  simpl;
  rewrite ?app_nil_r, ?forwarded_app, ?meanwhile_silent.

Lemma sorted_above_weaken (a b : Z) ps :
  a < b -> StronglySorted Z.lt (b :: ps) -> StronglySorted Z.lt (a :: b :: ps).
Proof.
  intros Hab H. constructor; [done|].
  apply StronglySorted_inv in H as [_ H]. constructor; [done|].
  eapply Forall_impl; [exact H|]. intros p Hp. simpl in Hp. lia.
Qed.

Lemma download_loop_increasing m name t reads : forall buffer last w,
  StronglySorted Z.lt
    (last :: forwarded_percents
               (events (download_loop m name t reads buffer last w))).
Proof.
  induction reads as [|step reads IH]; intros buffer last w; simpl.
  - run. destruct (bool_decide _); run; percents; by repeat constructor.
  - run. destruct (bool_decide _); run; cbn [negb]; cbv iota;
      [|percents; by repeat constructor].
    run.
    destruct (outcome (rs_read step)) as [[chunk|]|e]; cbv beta iota;
      [|run; percents; by repeat constructor
       |percents; by repeat constructor].
    set (w1 := meanwhile_state (rs_read step) w).
    destruct (contains_char carriage_return (buffer ++ of_string chunk)).
    + run.
      destruct (parse_download_line _) as [[snap|]|e]; cbv beta iota.
      * destruct (snap_percent snap >? last) eqn:Hgt.
        -- run.
           set (w2 := meanwhile_state (rs_edit step) w1).
           specialize (IH (last_segment carriage_return
                                        (buffer ++ of_string chunk))
                          (snap_percent snap)).
           assert (last < snap_percent snap) as Hlt by lia.
           destruct (outcome (rs_edit step)) as [[]|e]; run;
             specialize (IH w2);
             destruct (download_loop _ _ _ _ _ _ w2) as [[r w3] ev3];
             percents; by apply sorted_above_weaken.
        -- run. specialize (IH (last_segment carriage_return
                                        (buffer ++ of_string chunk))
                               last w1).
           destruct (download_loop _ _ _ _ _ _ w1) as [[r w3] ev3].
           by percents.
      * run. specialize (IH (last_segment carriage_return
                                        (buffer ++ of_string chunk))
                               last w1).
        destruct (download_loop _ _ _ _ _ _ w1) as [[r w3] ev3].
        by percents.
      * percents. by repeat constructor.
    + specialize (IH (buffer ++ of_string chunk) last w1).
      destruct (download_loop _ _ _ _ _ _ w1) as [[r w3] ev3].
      by percents.
Qed.

Lemma upload_silent ev : upload_driver_event ev = true -> silent ev.
Proof. by destruct ev as [? [] ?| | | | | | | | |]. Qed.

Lemma orchestrator_silent ev : orchestrator_event ev = true -> silent ev.
Proof. by destruct ev as [? [] ?| | | | | | | | |]. Qed.

Lemma pipeline_percents e url q name t m out w :
  exists w',
    forwarded_percents (events (pipeline e url q name t m out w)) = []
    \/ forwarded_percents (events (pipeline e url q name t m out w))
       = forwarded_percents
           (events (download_loop m name t (e_reads e) [] (-1) w')).
Proof.
  pose proof silent_lawful as L. unfold pipeline.
  rewrite forwarded_bind_l.
  2:{ unfold start_download.
      apply (obeys_bind _ _ L); [by apply (obeys_edit_text _ _ L)|].
      intros _. apply (obeys_bind _ _ L); [by apply (obeys_log _ _ L)|].
      intros _. apply (obeys_bind _ _ L); [by apply (obeys_emit _ _ L)|].
      intros _. apply (obeys_bind _ _ L); [apply (obeys_await _ _ L)|].
      intros process w0. by constructor. }
  destruct (value (start_download _ _ _ _ _ _ _ _)); [|by exists w; left].
  eexists. right. rewrite forwarded_bind_r.
  - unfold watch_download. rewrite forwarded_bind_r; [reflexivity|].
    intros _. apply (obeys_await _ _ L).
  - intros rc. apply (obeys_bind _ _ L); [apply (obeys_is_active _ _ L)|].
    intros active. destruct (negb active); [by apply (obeys_log _ _ L)|].
    apply (obeys_bind _ _ L); [apply (obeys_pop_active _ _ L)|]. intros _.
    apply (obeys_conclude_download _ _ L);
      [apply upload_silent|apply orchestrator_silent].
Qed.

Lemma rendered_of_forwarded evs :
  forall p, p ∈ rendered_percents evs -> p ∈ forwarded_percents evs.
Proof.
  intros p. unfold rendered_percents, forwarded_percents.
  rewrite !list_elem_of_omap. intros (ev & Hev & Hp). exists ev.
  split; [done|]. by destruct ev as [? [] []| | | | | | | | |].
Qed.

Lemma rendered_sorted evs :
  StronglySorted Z.lt (forwarded_percents evs) ->
  StronglySorted Z.lt (rendered_percents evs).
Proof.
  induction evs as [|ev evs IH]; [done|].
  destruct ev as [m [] []| | | | | | | | |]; try exact IH.
  - change (StronglySorted Z.lt (pct :: forwarded_percents evs) ->
            StronglySorted Z.lt (pct :: rendered_percents evs)).
    intros H. apply StronglySorted_inv in H as [H1 H2].
    constructor; [by apply IH|].
    apply Forall_forall. intros p Hp. apply rendered_of_forwarded in Hp.
    rewrite Forall_forall in H2. by apply H2.
  - change (StronglySorted Z.lt (pct :: forwarded_percents evs) ->
            StronglySorted Z.lt (rendered_percents evs)).
    intros H. apply StronglySorted_inv in H as [H1 H2]. by apply IH.
Qed.

Lemma increasing_NoDup (ps : list Z) : StronglySorted Z.lt ps -> NoDup ps.
Proof.
  induction 1 as [|p ps _ IH Hp]; constructor; [|done].
  intros Hin. rewrite Forall_forall in Hp. specialize (Hp p Hin). lia.
Qed.

(** C7. In every run of the task the percentages of the download progress
    updates handed to the notifier are strictly increasing, so none is
    forwarded twice, and so are those of the updates that reach the
    operator. *)
Theorem download_progress_strictly_increasing
    (e : env) (chat_id : Z) (url : string) (quality_param : list string)
    (file_name task_id : string) (initial_msg : Z) (w : world) :
  let evs := events (download_and_upload_task e chat_id url quality_param
                       file_name task_id initial_msg w) in
  StronglySorted Z.lt (forwarded_percents evs)
  /\ NoDup (forwarded_percents evs)
  /\ StronglySorted Z.lt (rendered_percents evs).
Proof.
  intros evs.
  assert (StronglySorted Z.lt (forwarded_percents evs)) as H.
  { subst evs. unfold download_and_upload_task.
    pose proof silent_lawful as L.
    rewrite forwarded_finally
      by apply (obeys_finalize _ _ L), orchestrator_silent.
    rewrite forwarded_try_except
      by (intros err; apply (obeys_on_error _ _ L), orchestrator_silent).
    destruct (pipeline_percents e url quality_param file_name task_id
                initial_msg (file_name +:+ ".mp4") w) as [w' [->| ->]].
    - constructor.
    - pose proof (download_loop_increasing initial_msg file_name task_id
                    (e_reads e) [] (-1) w') as Hs.
      by apply StronglySorted_inv in Hs as [Hs _]. }
  split_and!; [done|by apply increasing_NoDup|by apply rendered_sorted].
Qed.
(** ** When the upload is entered *)

Lemma no_upload_lawful : lawful (only no_upload) no_upload.
Proof. apply only_lawful. by intros [? [] ?| | | | | | | | |]. Qed.

Lemma download_no_upload ev : download_driver_event ev = true -> no_upload ev.
Proof. by destruct ev as [? [] ?| | | | | | | | |]. Qed.

Lemma orchestrator_no_upload ev :
  orchestrator_event ev = true -> no_upload ev.
Proof. by destruct ev as [? [] ?| | | | | | | | |]. Qed.

Lemma download_no_teardown t ev :
  download_driver_event ev = true -> no_teardown t ev.
Proof. by destruct ev as [? [] ?| | |[]| | | | | |]. Qed.

Lemma upload_no_teardown t ev :
  upload_driver_event ev = true -> no_teardown t ev.
Proof. by destruct ev as [? [] ?| | |[]| | | | | |]. Qed.

Lemma orchestrator_no_teardown t ev :
  orchestrator_event ev = true -> no_teardown t ev.
Proof. by destruct ev as [? [] ?| | |[]| | | | | |]. Qed.

Lemma teardown_excluded t evs :
  Forall (no_teardown t) evs ->
  ~ Exists (fun ev => teardown_of t ev = true) evs.
Proof.
  intros Hall Hex. apply Exists_exists in Hex as (ev & Hin & Hev).
  rewrite Forall_forall in Hall. specialize (Hall ev Hin).
  destruct ev as [| | |[]| | | | | |]; simpl in *; try done;
    by apply bool_decide_eq_true in Hev.
Qed.

Lemma upload_excluded evs :
  Forall no_upload evs -> ~ Exists (fun ev => upload_event ev = true) evs.
Proof.
  intros Hall Hex. apply Exists_exists in Hex as (ev & Hin & Hev).
  rewrite Forall_forall in Hall. specialize (Hall ev Hin).
  unfold no_upload in Hall. congruence.
Qed.

Lemma no_upload_forall evs :
  Forall no_upload evs -> Forall (fun ev => upload_event ev = false) evs.
Proof. done. Qed.

(** *** The blocks of the pipeline *)

Lemma meanwhile_guarded {A} (a : awaited A) t w :
  active_processes w !! t = None ->
  active_processes (meanwhile_state a w) !! t = None
  /\ Forall (no_teardown t) (meanwhile_events a w).
Proof.
  intros H.
  by apply (obeys_happen_all _ _ (entry_guarded_lawful t) (meanwhile a) w).
Qed.

Lemma start_download_no_upload e url q name t m out w :
  Forall no_upload (events (start_download e url q name t m out w)).
Proof.
  pose proof no_upload_lawful as L.
  apply (only_forall no_upload). unfold start_download.
  apply (obeys_bind _ _ L); [by apply (obeys_edit_text _ _ L)|].
  intros _. apply (obeys_bind _ _ L); [by apply (obeys_log _ _ L)|].
  intros _. apply (obeys_bind _ _ L); [by apply (obeys_emit _ _ L)|].
  intros _. apply (obeys_bind _ _ L); [apply (obeys_await _ _ L)|].
  intros process w0. by constructor.
Qed.

Lemma start_download_no_teardown e url q name t m out w :
  active_processes w !! t = None ->
  Forall (no_teardown t) (events (start_download e url q name t m out w)).
Proof.
  intros Hw. unfold start_download. run.
  destruct (meanwhile_guarded (e_start_edit e) t w Hw) as [Hw1 Hev1].
  destruct (outcome (e_start_edit e)) as [[]|err]; cbv beta iota;
    [|unfold events; simpl; by constructor].
  run.
  destruct (meanwhile_guarded (e_spawn e) t _ Hw1) as [Hw2 Hev2].
  destruct (outcome (e_spawn e)) as [process|err]; run;
    unfold events; simpl; rewrite ?app_nil_r;
    (constructor; [done|]); apply Forall_app; (split; [done|]);
    repeat (constructor; [done|]); done.
Qed.

Lemma watch_download_guarded e name t m :
  obeys (entry_guarded t) (watch_download e name t m).
Proof.
  pose proof (entry_guarded_lawful t) as L. unfold watch_download.
  apply (obeys_bind _ _ L); [|intros; apply (obeys_await _ _ L)].
  apply (obeys_download_loop _ _ L), download_no_teardown.
Qed.

Lemma watch_download_no_upload e name t m w :
  Forall no_upload (events (watch_download e name t m w)).
Proof.
  pose proof no_upload_lawful as L.
  apply (only_forall no_upload). unfold watch_download.
  apply (obeys_bind _ _ L); [|intros; apply (obeys_await _ _ L)].
  apply (obeys_download_loop _ _ L), download_no_upload.
Qed.

Lemma watch_download_value e name t m w rc :
  value (watch_download e name t m w) = Ok rc -> outcome (e_wait e) = Ok rc.
Proof.
  unfold watch_download. rewrite value_bind.
  destruct (value (download_loop _ _ _ _ _ _ _)); [|done].
  by rewrite value_await.
Qed.

Lemma conclude_download_guarded e m name t out rc :
  obeys (entry_guarded t) (conclude_download e m name t out rc).
Proof.
  apply (obeys_conclude_download _ _ (entry_guarded_lawful t)).
  - apply upload_no_teardown.
  - apply orchestrator_no_teardown.
Qed.

Lemma conclude_download_enters e m name t out rc w :
  Exists (fun ev => upload_event ev = true)
         (events (conclude_download e m name t out rc w)) ->
  rc = 0 /\ out ∈ files w.
Proof.
  intros Hex.
  destruct ((rc =? 0) && bool_decide (out ∈ files w)) eqn:Hc.
  - apply andb_true_iff in Hc as [H1 H2]. split; [lia|].
    by apply bool_decide_eq_true in H2.
  - exfalso. revert Hex. apply upload_excluded.
    pose proof no_upload_lawful as L.
    unfold conclude_download. rewrite bind_run, path_exists_run.
    cbv beta iota. rewrite Hc.
    match goal with
    | |- context [?f w] =>
        match f with
        | bind _ _ =>
            assert (Forall no_upload (events (f w))) as H;
            [|destruct (f w) as [[r w2] ev2]; exact H]
        end
    end.
    apply (only_forall no_upload).
    apply (obeys_bind _ _ L); [apply (obeys_await _ _ L)|]. intros raw.
    apply (obeys_bind _ _ L); [apply (obeys_has_progress_message _ _ L)|].
    intros []; [by apply (obeys_edit_text _ _ L)|apply (obeys_ret _ _ L)].
Qed.

Lemma conclude_download_quiet e m name t out rc w :
  rc <> 0 -> Forall no_upload (events (conclude_download e m name t out rc w)).
Proof.
  intros Hrc. apply Forall_forall. intros ev Hin.
  destruct (upload_event ev) eqn:Hev; [|done]. exfalso.
  destruct (conclude_download_enters e m name t out rc w); [|done].
  apply Exists_exists. by exists ev.
Qed.

Lemma pipeline_shape e url q name t m out w :
  active_processes w !! t = None ->
  let x := pipeline e url q name t m out w in
  Forall no_upload (events x)
  \/ (outcome (e_wait e) = Ok 0
      /\ Forall (no_teardown t) (events x)
      /\ active_processes (state x) !! t = None).
Proof.
  intros Hw. unfold pipeline. rewrite bind_run.
  pose proof (start_download_no_upload e url q name t m out w) as Hs1.
  pose proof (start_download_no_teardown e url q name t m out w Hw) as Hs2.
  destruct (start_download e url q name t m out w) as [[[[]|e1] w1] ev1];
    unfold events in Hs1, Hs2; simpl in Hs1, Hs2; [|by left].
  rewrite bind_run.
  pose proof (watch_download_guarded e name t m w1) as [Hg _].
  pose proof (watch_download_no_upload e name t m w1) as Hu.
  pose proof (watch_download_value e name t m w1) as Hv.
  destruct (watch_download e name t m w1) as [[[rc|e2] w2] ev2];
    unfold value, state, events in Hg, Hu, Hv; simpl in Hg, Hu, Hv.
  2:{ left. unfold events. simpl. apply Forall_app. by split. }
  rewrite bind_run, is_active_run. cbv beta iota.
  destruct (bool_decide (is_Some (active_processes w2 !! t))) eqn:Hact;
    cbn [negb]; cbv iota.
  2:{ left. unfold log, emit, events. simpl.
      apply Forall_app. split; [done|]. apply Forall_app. split; [done|].
      by repeat constructor. }
  apply bool_decide_eq_true in Hact. destruct (Hg Hact) as [_ Hev2].
  rewrite bind_run, pop_active_run. cbv beta iota.
  set (w3 := World (delete t (active_processes w2)) (progress_messages w2)
                   (files w2)).
  assert (active_processes w3 !! t = None) as Hw3 by apply lookup_delete_eq.
  destruct (decide (rc = 0)) as [->|Hrc].
  - right. split; [by apply Hv|].
    pose proof (conclude_download_guarded e m name t out 0 w3) as [_ Hc].
    destruct (Hc Hw3) as [Hw4 Hev4].
    destruct (conclude_download e m name t out 0 w3) as [[r4 w4] ev4].
    unfold state, events in *. simpl in *. split; [|done].
    apply Forall_app. split; [done|]. apply Forall_app. by split.
  - left. pose proof (conclude_download_quiet e m name t out rc w3 Hrc) as Hq.
    destruct (conclude_download e m name t out rc w3) as [[r4 w4] ev4].
    unfold events in *. simpl in *.
    apply Forall_app. split; [done|]. apply Forall_app. by split.
Qed.

Lemma task_shape e chat_id url q name t m w :
  active_processes w !! t = None ->
  let evs := events (download_and_upload_task e chat_id url q name t m w) in
  Forall no_upload evs
  \/ (outcome (e_wait e) = Ok 0 /\ Forall (no_teardown t) evs).
Proof.
  intros Hw. unfold download_and_upload_task.
  set (out := (name +:+ ".mp4")%string).
  pose proof (pipeline_shape e url q name t m out w Hw) as Hp.
  rewrite finally_run, try_except_run.
  destruct (pipeline e url q name t m out w) as [[[[]|err] w1] ev1];
    unfold state, events in Hp; simpl in Hp.
  - pose proof (only_forall no_upload (finalize t out) w1
                  (obeys_finalize _ _ no_upload_lawful
                     orchestrator_no_upload t out)) as Hf1.
    pose proof (obeys_finalize _ _ (entry_guarded_lawful t)
                  (orchestrator_no_teardown t) t out w1) as [_ Hf2].
    destruct (finalize t out w1) as [[[[]|err] w2] ev2];
      unfold state, events in *; simpl in *;
      (destruct Hp as [Hp|(Hrc & Hp & Hst)];
       [left; apply Forall_app; by split
       |right; split; [done|]; apply Forall_app; split; [done|];
        by apply Hf2]).
  - pose proof (only_forall no_upload (on_error e name t m err) w1
                  (obeys_on_error _ _ no_upload_lawful
                     orchestrator_no_upload e name t m err)) as He1.
    pose proof (obeys_on_error _ _ (entry_guarded_lawful t)
                  (orchestrator_no_teardown t) e name t m err w1)
      as [_ He2].
    destruct (on_error e name t m err w1) as [[r2 w2] ev2].
    pose proof (only_forall no_upload (finalize t out) w2
                  (obeys_finalize _ _ no_upload_lawful
                     orchestrator_no_upload t out)) as Hf1.
    pose proof (obeys_finalize _ _ (entry_guarded_lawful t)
                  (orchestrator_no_teardown t) t out w2) as [_ Hf2].
    destruct (finalize t out w2) as [[[[]|err'] w3] ev3];
      unfold state, events in *; simpl in *;
      (destruct Hp as [Hp|(Hrc & Hp & Hst)];
       [left; repeat (apply Forall_app; split); done
       |right; split; [done|]; destruct (He2 Hst) as [Hst2 Hev2];
        repeat (apply Forall_app; split); try done; by apply Hf2]).
Qed.

Lemma Exists_existsb {A} (f : A -> bool) (l : list A) :
  existsb f l = true -> Exists (fun x => f x = true) l.
Proof.
  intros H. apply existsb_exists in H as (x & Hin & Hx).
  apply Exists_exists. exists x. split; [by apply list_elem_of_In|done].
Qed.


(** C3. The operator cancels while the retrieval process is being
    spawned, before line 211 registers it: the handler finds no process
    entry, removes the progress message and answers that the task has
    already finished.  The download then runs to its end, and the
    credential provider is called and the upload request created before
    the upload loop notices the cancel. *)
Theorem early_cancel_does_not_prevent_upload :
  drop 3 (events (download_and_upload_task early_cancelled_download 1
                    "http://u" ["-f"; "best"] "v" "t1" 5 fresh_world))
  = [EvAnswer true; EvEdit 5 TAlreadyFinished true;
     EvEdit 5 (TDownloading "v" (create_progress_bar 42) 42 "100.0MiB"
                            "5.0MiB/s" "00:10") true;
     EvEdit 5 (TDownloadComplete "v") true;
     EvAuthenticate; EvLog (LUploadStart "v.mp4" "t1");
     EvUploadRequest "v.mp4" "v.mp4"; EvLog (LUploadCancelled "t1");
     EvRemove "v.mp4"; EvLog (LTempFileRemoved "v.mp4" "t1")]
  /\ existsb upload_event
       (events (download_and_upload_task early_cancelled_download 1
                  "http://u" ["-f"; "best"] "v" "t1" 5 fresh_world))
     = true.
Proof. split; vm_compute; reflexivity. Qed.
(** ** Failures of the notification sink *)

Lemma erase_app ev1 ev2 : erase (ev1 ++ ev2) = erase ev1 ++ erase ev2.
Proof. apply omap_app. Qed.

Lemma same_refl {A} (m : M A) : same_outcome m m.
Proof. by intros w. Qed.

Lemma same_bind {A B} (m m' : M A) (f f' : A -> M B) :
  same_outcome m m' -> (forall a, same_outcome (f a) (f' a)) ->
  same_outcome (bind m f) (bind m' f').
Proof.
  intros Hm Hf w. destruct (Hm w) as (Hv & Hs & He).
  rewrite !value_bind, !state_bind, !events_bind, <- Hv, <- Hs.
  destruct (value (m w)) as [a|e]; [|done].
  destruct (Hf a (state (m w))) as (Hv' & Hs' & He').
  rewrite !erase_app. by rewrite He, He'.
Qed.

Lemma same_try_except {A} (m m' : M A) (h h' : exn -> M A) :
  same_outcome m m' -> (forall e, same_outcome (h e) (h' e)) ->
  same_outcome (try_except m h) (try_except m' h').
Proof.
  intros Hm Hh w. destruct (Hm w) as (Hv & Hs & He).
  rewrite !value_try_except, !state_try_except, !events_try_except,
    <- Hv, <- Hs.
  destruct (value (m w)) as [a|e]; [done|].
  destruct (Hh e (state (m w))) as (Hv' & Hs' & He').
  rewrite !erase_app. by rewrite He, He'.
Qed.

Lemma same_finally {A} (m m' : M A) (f : M unit) :
  same_outcome m m' -> same_outcome (finally m f) (finally m' f).
Proof.
  intros Hm w. destruct (Hm w) as (Hv & Hs & He).
  unfold finally, value, state, events in *.
  destruct (m w) as [[r w1] ev1], (m' w) as [[r' w1'] ev1'].
  simpl in *. subst r' w1'.
  destruct (f w1) as [[[[]|e] w2] ev2]; simpl;
    rewrite !erase_app; by rewrite He.
Qed.

Lemma same_notify_download m t x a :
  progress_text x = true ->
  same_outcome (notify_download m t x a)
               (notify_download m t x (delivered_edit a)).
Proof.
  intros Hx w. rewrite !notify_download_run.
  unfold value, state, events, meanwhile_state, meanwhile_events. simpl.
  split_and!; [done|done|]. rewrite !erase_app, Hx, !orb_true_r.
  by destruct (outcome a) as [[]|e].
Qed.

Lemma same_notify_upload m t x a :
  progress_text x = true ->
  same_outcome (notify_upload m t x a)
               (notify_upload m t x (delivered_edit a)).
Proof.
  intros Hx w. rewrite !notify_upload_run.
  unfold value, state, events, meanwhile_state, meanwhile_events. simpl.
  split_and!; [done|done|]. rewrite !erase_app, Hx, !orb_true_r.
  by destruct (outcome a) as [[]|e].
Qed.

Ltac lockstep :=
  repeat match goal with
    | |- same_outcome _ _ => apply same_refl
    | |- same_outcome (bind _ _) (bind _ _) => apply same_bind; [|intros ?]
    | |- same_outcome (try_except _ _) (try_except _ _) =>
        apply same_try_except; [|intros ?]
    | |- same_outcome (notify_download _ _ _ _) _ =>
        by apply same_notify_download
    | |- same_outcome (notify_upload _ _ _ _) _ =>
        by apply same_notify_upload
    | |- same_outcome (if ?b then _ else _) _ => destruct b
    | |- same_outcome (match ?x with _ => _ end) _ => destruct x
    end.

Lemma same_download_loop m name t reads : forall buffer last,
  same_outcome (download_loop m name t reads buffer last)
               (download_loop m name t (map all_shown_read reads) buffer last).
Proof.
  induction reads as [|step reads IH]; intros buffer last; simpl.
  - apply same_refl.
  - lockstep; apply IH.
Qed.

Lemma same_show_upload_status m name t size status now fmt edit b l :
  same_outcome (show_upload_status m name t size status now fmt edit b l)
               (show_upload_status m name t size status now fmt
                                   (delivered_edit edit) b l).
Proof. unfold show_upload_status. lockstep. Qed.

Lemma same_upload_loop u m name t steps : forall b l,
  same_outcome (upload_loop u m name t steps b l)
               (upload_loop (all_shown_upload u) m name t
                            (map all_shown_chunk steps) b l).
Proof.
  induction steps as [|step steps IH]; intros b l; simpl.
  - lockstep; apply same_show_upload_status.
  - lockstep; first [apply same_show_upload_status|apply IH].
Qed.

Lemma same_upload_with_progress u m file name t :
  same_outcome (upload_with_progress u m file name t)
               (upload_with_progress (all_shown_upload u) m file name t).
Proof.
  unfold upload_with_progress. lockstep. apply same_upload_loop.
Qed.

Lemma same_conclude_download e m name t out rc :
  same_outcome (conclude_download e m name t out rc)
               (conclude_download (all_shown e) m name t out rc).
Proof.
  unfold conclude_download. lockstep. apply same_upload_with_progress.
Qed.

Lemma same_pipeline e url q name t m out :
  same_outcome (pipeline e url q name t m out)
               (pipeline (all_shown e) url q name t m out).
Proof.
  unfold pipeline. apply same_bind; [apply same_refl|]. intros _.
  apply same_bind.
  - unfold watch_download.
    apply same_bind; [apply same_download_loop|intros; apply same_refl].
  - intros rc. lockstep. apply same_conclude_download.
Qed.

(** C9. A progress update that the sink fails to render costs a warning
    in the log and nothing else: the notifier block returns normally, in
    the same world, after logging the failure; and a run of the task ends
    with the same outcome, in the same world and with the same other
    events as the run in which all progress updates are delivered. *)
Theorem progress_sink_failure_logged_and_swallowed :
  (forall m t x (a : awaited unit) w,
      notify_download m t x a w =
      (Ok tt, meanwhile_state a w,
       EvEdit m x (delivered (outcome a)) :: meanwhile_events a w
       ++ match outcome a with
          | Ok _ => []
          | Raise err => [EvLog (LDownloadProgressNotShown t err)]
          end))
  /\ (forall m t x (a : awaited unit) w,
         notify_upload m t x a w =
         (Ok tt, meanwhile_state a w,
          EvEdit m x (delivered (outcome a)) :: meanwhile_events a w
          ++ match outcome a with
             | Ok _ => []
             | Raise err => [EvLog (LUploadProgressNotShown t err)]
             end))
  /\ (forall e chat_id url quality_param file_name task_id initial_msg,
         same_outcome
           (download_and_upload_task e chat_id url quality_param
                                     file_name task_id initial_msg)
           (download_and_upload_task (all_shown e) chat_id url quality_param
                                     file_name task_id initial_msg)).
Proof.
  split_and!.
  - apply notify_download_run.
  - apply notify_upload_run.
  - intros. unfold download_and_upload_task. apply same_finally.
    apply same_try_except; [apply same_pipeline|].
    intros err. apply same_refl.
Qed.
(** ** Finalizing *)


(** C1 at the failing input: the process prints a frame whose percentage
    is "1.2.3"; ValueError is raised in the loop and reported, the finally
    block unregisters the progress message and removes the file, and the
    entry of the task in [active_processes] is still there at the end. *)
Theorem process_entry_survives_exception :
  let x := download_and_upload_task garbled_download 1 "http://u"
             ["-f"; "best"] "v" "t1" 5 fresh_world in
  value x = Ok tt
  /\ existsb (fun ev => match ev with
                        | EvLog (LTaskError "t1" ValueError) => true
                        | _ => false
                        end) (events x) = true
  /\ progress_messages (state x) !! "t1" = None
  /\ bool_decide ("v.mp4" ∈ files (state x)) = false
  /\ active_processes (state x) !! "t1" = Some (77, "v.mp4").
Proof. split_and!; vm_compute; reflexivity. Qed.
(** * Properties of the rest of the program *)

(** ** The progress bar *)

Lemma bar_cells (q : Z) (n : nat) :
  map (fun i => Z.of_nat i <? q) (seq 0 n)
  = replicate (Z.to_nat (Z.min (Z.of_nat n) (Z.max 0 q))) true
    ++ replicate (n - Z.to_nat (Z.min (Z.of_nat n) (Z.max 0 q))) false.
Proof.
  induction n as [|n IH].
  { by replace (Z.to_nat (Z.min (Z.of_nat 0) (Z.max 0 q))) with O by lia. }
  rewrite seq_S, map_app, IH. simpl.
  destruct (Z.ltb_spec (Z.of_nat n) q) as [Hlt|Hge].
  - replace (Z.to_nat (Z.min (Z.of_nat n) (Z.max 0 q))) with n by lia.
    replace (Z.to_nat (Z.min (Z.of_nat (S n)) (Z.max 0 q))) with (S n) by lia.
    replace (n - n)%nat with O by lia.
    replace (S n - S n)%nat with O by lia.
    simpl. rewrite app_nil_r.
    change (true :: replicate n true) with (replicate (S n) true).
    by rewrite replicate_S_end.
  - replace (Z.to_nat (Z.min (Z.of_nat (S n)) (Z.max 0 q)))
      with (Z.to_nat (Z.min (Z.of_nat n) (Z.max 0 q))) by lia.
    set (k := Z.to_nat (Z.min (Z.of_nat n) (Z.max 0 q))).
    assert (k <= n)%nat as Hk by (unfold k; lia).
    replace (S n - k)%nat with (S (n - k)) by lia.
    by rewrite replicate_S_end, app_assoc.
Qed.

(** X1. The bar always has twenty cells: the first
    min(20, max(0, percentage // 5)) are filled and the others are empty,
    so a percentage below 5 shows an empty bar and one of 100 or more a
    full one. *)
Theorem create_progress_bar_shape (percentage : Z) :
  create_progress_bar percentage
  = replicate (cells percentage) true
    ++ replicate (20 - cells percentage) false.
Proof. apply (bar_cells (percentage / 5) 20). Qed.

(** ** The URL rewriting: what is left and what is kept *)

Lemma manifest_free_occurs t M :
  manifest_free t -> M ∈ manifest_forms -> occurs M t = false.
Proof.
  intros Hfree HM. destruct (manifest_forms_nonempty M HM) as (c & M' & ->).
  induction t as [|x t IH].
  - done.
  - destruct Hfree as [Hhere Hfree]. cbn [occurs].
    rewrite (IH Hfree), orb_false_r.
    destruct (starts_with (c :: M') (x :: t)) eqn:Hs; [|done].
    apply starts_with_app in Hs.
    destruct (manifest_matches (c :: M') (drop (length (c :: M')) (x :: t)) HM)
      as [g Hg].
    rewrite <- Hs in Hg. congruence.
Qed.

Lemma manifest_free_has_none t :
  manifest_free t -> existsb (fun p => occurs p t) manifest_forms = false.
Proof.
  intros Hfree. destruct (existsb _ _) eqn:H; [|done].
  apply existsb_exists in H as (M & HM & Ho).
  apply list_elem_of_In in HM.
  by rewrite (manifest_free_occurs t M Hfree HM) in Ho.
Qed.

Lemma search_none_manifest_free t :
  search mediaset_pattern 3 t = None -> manifest_free t.
Proof.
  induction t as [|c t IH]; cbn [search manifest_free].
  - by destruct (match_here mediaset_pattern 3 []) as [[]|].
  - destruct (match_here mediaset_pattern 3 (c :: t)) as [[]|]; [done|].
    intros H. split; [done|]. by apply IH.
Qed.

Lemma msub_id t : manifest_free t -> msub t = t.
Proof.
  induction t as [|c t IH]; [done|]. intros [Hhere Hfree].
  rewrite (msub_miss c t Hhere). f_equal. by apply IH.
Qed.

Lemma transform_msub url :
  transform_mediaset_url url = to_string (msub (of_string url)).
Proof.
  unfold transform_mediaset_url.
  destruct (search mediaset_pattern 3 (of_string url)) eqn:Hs; [done|].
  by rewrite (msub_id _ (search_none_manifest_free _ Hs)), to_of_string.
Qed.

(** X2. Whatever the URL, none of the three manifest forms occurs in the
    rewritten URL. *)
Theorem transform_mediaset_url_leaves_no_manifest (url : string) :
  has_manifest (transform_mediaset_url url) = false.
Proof.
  unfold has_manifest. rewrite transform_msub, of_to_string.
  apply manifest_free_has_none, msub_manifest_free.
Qed.

Lemma clear_of_manifest_suffix (a t : chars) M :
  clear_of_manifest (a ++ t) = true -> t <> [] -> M ∈ manifest_forms ->
  starts_with t M = false /\ starts_with M t = false.
Proof.
  intros Hclear Ht HM. induction a as [|x a IH]; simpl in Hclear.
  - destruct t as [|y t]; [done|]. cbn [clear_of_manifest] in Hclear.
    apply andb_true_iff in Hclear as [Hall _].
    rewrite forallb_forall in Hall.
    specialize (Hall M ltac:(by apply list_elem_of_In)).
    apply andb_true_iff in Hall as [H1 H2].
    by apply negb_true_iff in H1, H2.
  - apply andb_true_iff in Hclear as [_ Hclear]. by apply IH.
Qed.

Lemma manifest_tail_clear_of_manifest c M' :
  c :: M' ∈ manifest_forms -> clear_of_manifest M' = true.
Proof.
  intros H. apply manifest_forms_cases in H as [H| [H| H]];
    vm_compute in H; injection H as _ ->; reflexivity.
Qed.

Lemma starts_with_refl (p : chars) : starts_with p p = true.
Proof. rewrite <- (app_nil_r p) at 2. apply starts_with_prefix. Qed.

Lemma app_eq_starts_with (a b c d : chars) :
  a ++ b = c ++ d -> starts_with a c = true \/ starts_with c a = true.
Proof.
  intros H. apply (starts_with_split a c d). rewrite <- H.
  apply starts_with_prefix.
Qed.

(** No match of the manifest pattern starts inside a text that holds no
    manifest form, even when a manifest form follows it. *)
Lemma no_match_before_manifest (pre : chars) M post :
  existsb (fun p => occurs p pre) manifest_forms = false ->
  M ∈ manifest_forms -> pre <> [] ->
  match_here mediaset_pattern 3 (pre ++ M ++ post) = None.
Proof.
  intros Hpre HM Hne.
  destruct (match_here mediaset_pattern 3 (pre ++ M ++ post))
    as [[rest g]|] eqn:Hmh; [exfalso|done].
  apply manifest_found in Hmh as (M' & HM' & Heq).
  assert (occurs M' pre = false) as Hocc.
  { destruct (occurs M' pre) eqn:Ho; [|done].
    rewrite <- Hpre. symmetry. apply existsb_exists.
    exists M'. split; [by apply list_elem_of_In|done]. }
  destruct (app_eq_starts_with _ _ _ _ Heq) as [Hs|Hs].
  - (* pre is a head of the form found *)
    apply starts_with_app in Hs.
    set (t := drop (length pre) M') in *.
    rewrite Hs, <- app_assoc in Heq. apply app_inv_head in Heq.
    destruct (manifest_forms_nonempty M' HM') as (c' & M'' & ->).
    destruct pre as [|x pre]; [done|]. injection Hs as <- Hs.
    destruct t as [|y t].
    + rewrite app_nil_r in Hs. subst M''.
      cbn [occurs] in Hocc. by rewrite starts_with_refl in Hocc.
    + pose proof (manifest_tail_clear_of_manifest _ _ HM') as Hclear.
      rewrite Hs in Hclear.
      destruct (clear_of_manifest_suffix pre (y :: t) M Hclear ltac:(done) HM)
        as [H1 H2].
      symmetry in Heq.
      destruct (app_eq_starts_with _ _ _ _ Heq); congruence.
  - (* the form found lies in pre *)
    destruct pre as [|x pre]; [done|]. cbn [occurs] in Hocc.
    by rewrite Hs in Hocc.
Qed.

Lemma msub_before_manifest (pre : chars) M post :
  existsb (fun p => occurs p pre) manifest_forms = false ->
  M ∈ manifest_forms ->
  msub (pre ++ M ++ post) = pre ++ mediaset_replacement ++ msub post.
Proof.
  intros Hpre HM. induction pre as [|x pre IH].
  - simpl. by apply msub_hit.
  - simpl app. rewrite msub_miss.
    + f_equal. apply IH.
      destruct (existsb (fun p => occurs p pre) manifest_forms) eqn:H; [|done].
      rewrite <- Hpre. symmetry.
      apply existsb_exists in H as (M' & HM' & Ho).
      apply existsb_exists. exists M'. split; [done|].
      cbn [occurs]. rewrite Ho. apply orb_true_r.
    + by apply (no_match_before_manifest (x :: pre) M post).
Qed.

(** X3. A URL made of a part without manifest form, one of the three
    manifest forms, and a rest, is rewritten to the first part as it is,
    the HLS path, and the rewritten rest. *)
Theorem transform_mediaset_url_rewrites (pre form post : string) :
  has_manifest pre = false ->
  of_string form ∈ manifest_forms ->
  transform_mediaset_url (pre +:+ form +:+ post)
  = (pre +:+ "/main.ism/picky.m3u8" +:+ transform_mediaset_url post)%string.
Proof.
  intros Hpre Hform. rewrite !transform_msub, !of_string_app.
  rewrite (msub_before_manifest _ _ _ Hpre Hform).
  etransitivity; [|apply to_of_string]. f_equal.
  by rewrite !of_string_app, of_to_string.
Qed.

Lemma transform_mediaset_url_rewrites_witness :
  transform_mediaset_url
    ("https://cdn.example/v" +:+ "/mpd-cenc.ism/web.mpd" +:+ "?x=1")
  = ("https://cdn.example/v" +:+ "/main.ism/picky.m3u8"
     +:+ transform_mediaset_url "?x=1")%string.
Proof.
  apply transform_mediaset_url_rewrites.
  - vm_compute. reflexivity.
  - unfold manifest_forms. simpl. apply list_elem_of_here.
Defined.

(** ** The file name *)

Lemma match_here_class p (c : ascii) (s : chars) :
  match_here (Class p) 0 (c :: s)
  = if p c then Some (s, [Some [c]]) else None.
Proof.
  unfold match_here. cbn [match_re]. destruct (p c); [|done].
  replace (length (c :: s) - length s)%nat with 1%nat by (simpl; lia).
  done.
Qed.

Lemma safe_filename_cons (c : ascii) (s : chars) :
  safe_filename (c :: s)
  = if is_forbidden c then safe_filename s else c :: safe_filename s.
Proof.
  unfold safe_filename, sub, forbidden_pattern. cbn [sub_from].
  rewrite match_here_class. destruct (is_forbidden c); [|done].
  by replace (length (c :: s) - length s)%nat with 1%nat by (simpl; lia).
Qed.

Lemma safe_filename_filter (name : chars) :
  safe_filename name = List.filter (fun c => negb (is_forbidden c)) name.
Proof.
  induction name as [|c name IH]; [done|].
  rewrite safe_filename_cons. simpl. rewrite <- IH.
  by destruct (is_forbidden c).
Qed.

Lemma safe_filename_clean (name : chars) :
  forallb (fun c => negb (is_forbidden c)) (safe_filename name) = true.
Proof.
  rewrite safe_filename_filter. apply forallb_forall.
  intros c Hc. by apply filter_In in Hc as [_ Hc].
Qed.

(** X4. Sanitising a name deletes exactly the characters of the
    forbidden class and keeps the others in their order; the result
    holds no forbidden character, and sanitising it again changes
    nothing. *)
Theorem safe_filename_deletes_forbidden (name : chars) :
  safe_filename name = List.filter (fun c => negb (is_forbidden c)) name
  /\ forallb (fun c => negb (is_forbidden c)) (safe_filename name) = true
  /\ safe_filename (safe_filename name) = safe_filename name.
Proof.
  split_and!.
  - apply safe_filename_filter.
  - apply safe_filename_clean.
  - rewrite !safe_filename_filter.
    induction name as [|c name IH]; [done|]. simpl.
    destruct (is_forbidden c) eqn:Hc; simpl; [done|].
    by rewrite Hc, IH.
Qed.

(** ** The URL check *)

Lemma match_str_starts {R} (l s : chars) (k : chars -> option R) :
  match_str l s k = if starts_with l s then k (drop (length l) s) else None.
Proof.
  revert s. induction l as [|a l IH]; intros s; simpl; [done|].
  destruct s as [|b s]; [done|].
  destruct (Ascii.eqb a b); simpl; [apply IH|done].
Qed.

Lemma starts_with_cat (a b s : chars) :
  starts_with (a ++ b) s
  = starts_with a s && starts_with b (drop (length a) s).
Proof.
  revert s. induction a as [|x a IH]; intros s; simpl; [done|].
  destruct s as [|y s]; [done|].
  destruct (Ascii.eqb x y); simpl; [apply IH|done].
Qed.

(** X5. The URL check accepts exactly the texts that begin with
    http:// or with https://. *)
Theorem valid_url_scheme (url : string) :
  valid_url url
  = starts_with (of_string "http://") (of_string url)
    || starts_with (of_string "https://") (of_string url).
Proof.
  unfold valid_url, match_here, url_pattern. cbn [match_re].
  change (of_string "http://") with (of_string "http" ++ of_string "://").
  change (of_string "https://")
    with (of_string "http" ++ of_string "s" ++ of_string "://").
  rewrite !starts_with_cat, !match_str_starts.
  destruct (starts_with (of_string "http") (of_string url)); [|done].
  cbn [andb].
  set (rest := drop (length (of_string "http")) (of_string url)).
  destruct (starts_with (of_string "s") rest);
    destruct (starts_with (of_string "://")
                (drop (length (of_string "s")) rest));
    by destruct (starts_with (of_string "://") rest).
Qed.

(** ** The name shown on cancel *)

Lemma split_on_without (d : ascii) (s : chars) :
  contains_char d s = false -> split_on d s = [s].
Proof.
  unfold contains_char. induction s as [|c s IH]; [done|]. simpl.
  intros H. apply orb_false_iff in H as [Hc Hs].
  rewrite Ascii.eqb_sym, Hc. by rewrite (IH Hs).
Qed.

Lemma contains_char_app (d : ascii) (a b : chars) :
  contains_char d (a ++ b) = contains_char d a || contains_char d b.
Proof. apply existsb_app. Qed.

Lemma replace_from_skip_all (old new s : chars) :
  replace_from old new s (length s) = [].
Proof. induction s as [|c s IH]; [done|]. exact IH. Qed.

Lemma replace_suffix (old s : chars) :
  old <> [] ->
  occurs old s = false ->
  (forall a t, a <> [] -> t <> [] -> old = a ++ t ->
               starts_with t old = false) ->
  replace old [] (s ++ old) = s.
Proof.
  intros Hne Hocc Hself. unfold replace.
  induction s as [|c s IH].
  - simpl. destruct old as [|x old]; [done|]. cbn [replace_from].
    rewrite starts_with_refl. simpl.
    replace (length old - 0)%nat with (length old) by lia.
    apply replace_from_skip_all.
  - cbn [occurs] in Hocc. apply orb_false_iff in Hocc as [Hhead Hocc].
    simpl app. cbn [replace_from].
    destruct (starts_with old (c :: s ++ old)) eqn:Hs.
    + exfalso. change (c :: s ++ old) with ((c :: s) ++ old) in Hs.
      destruct (starts_with_split _ _ _ Hs) as [H|H]; [congruence|].
      apply starts_with_app in H.
      destruct (drop (length (c :: s)) old) as [|y t] eqn:Ht.
      * rewrite app_nil_r in H. rewrite <- H in Hhead.
        by rewrite starts_with_refl in Hhead.
      * assert (starts_with ((c :: s) ++ y :: t) ((c :: s) ++ old) = true)
          as Hs' by (by rewrite <- H).
        rewrite starts_with_cat, starts_with_prefix, drop_app_length in Hs'.
        cbn [andb] in Hs'.
        rewrite (Hself (c :: s) (y :: t)) in Hs'; done.
    + f_equal. by apply IH.
Qed.

(** X6. The cancel message names the task by the file name of its
    process entry without directory and with every .mp4 deleted: for the
    output file of a task whose name holds no slash and no .mp4, that is
    the name of the task. *)
Theorem cancelled_name_of_output (file_name : string) :
  contains_char "/" (of_string file_name) = false ->
  occurs (of_string ".mp4") (of_string file_name) = false ->
  cancelled_name (file_name +:+ ".mp4") = file_name.
Proof.
  intros Hslash Hocc. unfold cancelled_name, basename, last_segment.
  rewrite of_string_app, split_on_without
    by (rewrite contains_char_app, Hslash; reflexivity).
  cbn [List.last]. rewrite replace_suffix; [apply to_of_string|done|done|].
  intros a t Ha Ht Heq.
  unfold of_string in Heq. simpl in Heq.
  destruct a as [|a1 a]; [done|]. injection Heq as <- Heq.
  destruct a as [|a2 a]; [simpl in Heq; by subst|]. injection Heq as <- Heq.
  destruct a as [|a3 a]; [simpl in Heq; by subst|]. injection Heq as <- Heq.
  destruct a as [|a4 a]; [simpl in Heq; by subst|]. injection Heq as <- Heq.
  destruct a; simpl in Heq; [by subst|discriminate].
Qed.

Lemma cancelled_name_of_output_witness :
  cancelled_name ("My video" +:+ ".mp4") = "My video".
Proof. apply cancelled_name_of_output; vm_compute; reflexivity. Defined.

(** ** The credential provider *)

Ltac auth_run :=
  cbv [authenticate_drive stored_credentials refresh_credentials run_flow
       save_token build_service andthen rescue tell yield outside inspect
       update fail returned after trace negb andb cr_valid cr_expired
       cr_refresh_token a_load a_refresh a_flow a_open a_write a_build
       fst snd app];
  cbv beta iota.

Ltac auth_cases a fs :=
  destruct a as [[[[] [] []]|eload] [[]|erefresh] [[]|[| | | | | |what]]
                 [[]|eopen] [[]|ewrite] [| |ebuild]];
  destruct (decide (TOKEN_FILE ∈ fs)) as [Htoken|Htoken];
  auth_run;
  rewrite ?(bool_decide_eq_true_2 _ Htoken),
          ?(bool_decide_eq_false_2 _ Htoken);
  cbv beta iota.

(** X7. When a service is returned the token file exists afterwards. *)
Theorem authenticate_drive_service_leaves_token (a : auth_env)
    (fs : gset string) :
  returned (authenticate_drive a fs) = Ok true ->
  TOKEN_FILE ∈ after (authenticate_drive a fs).
Proof.
  auth_cases a fs; intros H; try discriminate H; try done;
    apply elem_of_union_l, elem_of_singleton; reflexivity.
Qed.

Lemma authenticate_drive_service_leaves_token_witness :
  TOKEN_FILE ∈ after (authenticate_drive stored_valid_token {[TOKEN_FILE]}).
Proof.
  apply authenticate_drive_service_leaves_token. vm_compute. reflexivity.
Defined.






(** ** Buttons and routing *)

Lemma split_on_app (d : ascii) (a s : chars) :
  contains_char d a = false -> split_on d (a ++ d :: s) = a :: split_on d s.
Proof.
  unfold contains_char. induction a as [|c a IH]; simpl.
  - intros _. by rewrite Ascii.eqb_refl.
  - intros H. apply orb_false_iff in H as [Hc Ha].
    rewrite Ascii.eqb_sym, Hc. by rewrite (IH Ha).
Qed.

Lemma split_on_nonempty (d : ascii) (s : chars) :
  exists seg segs, split_on d s = seg :: segs.
Proof.
  induction s as [|c s (seg & segs & IH)]; simpl; [by eauto|].
  destruct (Ascii.eqb c d); [by eauto|]. rewrite IH. by eauto.
Qed.

Lemma selected_quality_prefixed (rest : chars) :
  exists quality,
    selected_quality (to_string (of_string "quality_" ++ rest)) = Ok quality.
Proof.
  unfold selected_quality. rewrite of_to_string.
  change (of_string "quality_" ++ rest)
    with (of_string "quality" ++ "_"%char :: rest).
  rewrite split_on_app by reflexivity.
  destruct (split_on_nonempty "_" rest) as (seg & segs & ->). by eauto.
Qed.

Lemma split_on_button (quality task_id : string) :
  contains_char "_" (of_string quality) = false ->
  split_on "_" (of_string (quality_button quality task_id))
  = of_string "quality" :: of_string quality
    :: split_on "_" (of_string task_id).
Proof.
  intros Hq. unfold quality_button. rewrite !of_string_app.
  change (of_string "quality_") with (of_string "quality" ++ of_string "_").
  rewrite <- app_assoc. simpl (of_string "_" ++ _).
  rewrite split_on_app by reflexivity.
  by rewrite split_on_app by exact Hq.
Qed.

(** X10. The quality chosen is read back from the data of a quality
    button: for a quality without underscore the second field of the
    button data is that quality, whatever the task id. *)
Theorem selected_quality_of_button (quality task_id : string) :
  contains_char "_" (of_string quality) = false ->
  selected_quality (quality_button quality task_id) = Ok quality.
Proof.
  intros Hq. unfold selected_quality.
  by rewrite (split_on_button _ _ Hq), to_of_string.
Qed.

Lemma selected_quality_of_button_witness :
  selected_quality (quality_button "1080" "t1") = Ok "1080".
Proof. apply selected_quality_of_button. vm_compute. reflexivity. Defined.

Lemma routes_sound r n data :
  routes r n data = true ->
  exists m rest, of_string data = m ++ rest /\ lang r m.
Proof.
  unfold routes.
  destruct (match_here r n (of_string data)) as [[rest g]|] eqn:H; [|done].
  intros _. apply match_here_sound in H as (m & Hm & L). by eauto.
Qed.

(** X11. Data that the routing of [main] hands to a handler never makes
    the handler fail on its indexing: data routed to the quality handler
    has a second field, and data routed to the cancel handler is the
    cancel button of the task id that the handler reads from it. *)
Theorem routed_data_is_parsed (data : string) :
  (route data = Some ToQualitySelection ->
   exists quality, selected_quality data = Ok quality)
  /\ (route data = Some ToCancel ->
      exists task_id,
        cancel_task_id data = Ok task_id /\ data = cancel_button task_id).
Proof.
  unfold route. split.
  - destruct (routes quality_route 1 data) eqn:Hq;
      [|by destruct (routes cancel_route 0 data)].
    intros _. apply routes_sound in Hq as (m & rest & Hdata & L).
    apply lang_cat_inv in L as (m1 & m2 & -> & L1 & _).
    apply lang_str_inv in L1 as ->.
    rewrite <- (to_of_string data), Hdata, <- app_assoc.
    apply selected_quality_prefixed.
  - destruct (routes quality_route 1 data); [done|].
    destruct (routes cancel_route 0 data) eqn:Hc; [|done].
    intros _. apply routes_sound in Hc as (m & rest & Hdata & L).
    apply lang_str_inv in L as ->.
    exists (to_string rest). unfold cancel_task_id, cancel_button.
    rewrite Hdata. split; [done|].
    rewrite <- (to_of_string data), Hdata.
    etransitivity; [|apply to_of_string]. f_equal.
    by rewrite of_string_app, of_to_string.
Qed.

Lemma routed_data_is_parsed_witness :
  exists quality, selected_quality "quality_720_t1" = Ok quality.
Proof.
  apply (proj1 (routed_data_is_parsed "quality_720_t1")).
  vm_compute. reflexivity.
Defined.

(** X12. Every button that the program attaches to a message reaches
    its handler: the four quality buttons of a task go to the quality
    handler, the cancel button goes to the cancel handler, which reads
    the task id back from it. *)
Theorem buttons_are_routed (task_id : string) :
  Forall (fun data => route data = Some ToQualitySelection)
         (quality_buttons task_id)
  /\ route (cancel_button task_id) = Some ToCancel
  /\ cancel_task_id (cancel_button task_id) = Ok task_id.
Proof.
  split_and!.
  - unfold quality_buttons. simpl.
    repeat constructor; unfold route, routes, quality_button;
      rewrite !of_string_app; vm_compute; reflexivity.
  - unfold route, routes, cancel_button. rewrite !of_string_app.
    vm_compute. reflexivity.
  - apply cancel_task_id_button.
Qed.

(** ** The command handler *)

Ltac front_run :=
  cbv [startmedia_command fetch_title reply_text edit_status store_task
       quality_selection_handler pop_task register_progress
       andthen rescue tell yield outside inspect update fail
       returned after trace delivered
       c_args c_reply c_title c_failed_edit c_delete c_error_edit c_uuid
       c_menu qq_data qq_message qq_chat qq_answer qq_edit
       task_data registries app fst snd];
  cbv beta iota.

(** X13. The command changes nothing but [task_data], and that only on
    the path that sends the quality menu: then one entry is filed under
    the message that carries the menu, holding the URL that passed the
    check, a file name without forbidden character, the fresh task id
    and that message; on every other path the state is as before. *)
Theorem startmedia_command_files_one_task (c : command) (b : bot) :
  let x := startmedia_command c b in
  registries (after x) = registries b
  /\ (task_data (after x) = task_data b
      \/ exists url names name m,
           c_args c = url :: names /\ valid_url url = true
           /\ c_menu c = Ok m /\ returned x = Ok tt
           /\ forallb (fun ch => negb (is_forbidden ch)) (of_string name)
              = true
           /\ task_data (after x)
              = <[m := TaskInfo url name (c_uuid c) m]> (task_data b)
           /\ last (trace x)
              = Some (AReply (NChooseQuality name
                                (quality_buttons (c_uuid c))) true)).
Proof.
  destruct c as [[|url names] [status_msg|ereply]
                 [[[returncode stdout_title] stderr_title]|etitle]
                 [[]|efailed] [[]|edelete] [[]|eerror] uuid [m|emenu]];
    destruct b as [td w]; front_run; try (split; [done|by left]).
  all: destruct (valid_url url) eqn:Hurl; front_run; cbn [negb];
    try (split; [done|by left]).
  all: destruct names as [|n names]; front_run;
    try destruct (returncode =? 0); front_run; cbn [negb]; cbv iota;
    front_run; try (split; [done|by left]).
  all: split; [done|right]; do 4 eexists;
    (split_and!; [done|done|done|done| |done|done]);
    rewrite of_to_string; apply safe_filename_clean.
Qed.

(** ** The quality handler *)

(** X14. An acknowledged choice on a message that has a filed task
    takes the task out of [task_data], registers its progress message and
    creates exactly one task with the filed URL, name, id and message and
    the parameters of the chosen quality; a second choice on the same
    message finds nothing, creates no task, leaves the state alone and
    says that the button has expired. *)
Theorem quality_selection_creates_one_task
    (q q2 : quality_query) (b : bot) (info : task_info) (quality : string) :
  qq_answer q = Ok tt ->
  task_data b !! qq_message q = Some info ->
  selected_quality (qq_data q) = Ok quality ->
  qq_message q2 = qq_message q -> qq_answer q2 = Ok tt ->
  let x := quality_selection_handler q b in
  let y := quality_selection_handler q2 (after x) in
  trace x = [AAnswer true;
             ACreateTask (qq_chat q) (info_url info) (quality_param quality)
                         (info_filename info) (info_task_id info)
                         (info_initial_msg info)]
  /\ task_data (after x) = delete (qq_message q) (task_data b)
  /\ progress_messages (registries (after x)) !! info_task_id info
     = Some (info_initial_msg info)
  /\ after y = after x
  /\ trace y = [AAnswer true; AQueryEdit NExpired (delivered (qq_edit q2))].
Proof.
  destruct q as [data message chat answer edit].
  destruct q2 as [data2 message2 chat2 answer2 edit2].
  destruct b as [td w]. destruct info as [url name task_id initial_msg].
  simpl. intros -> Htd Hq -> ->. front_run. rewrite Htd, Hq. front_run.
  rewrite lookup_delete_eq. front_run.
  split_and!; [done|done|apply lookup_insert_eq| |].
  - destruct edit2 as [[]|e]; front_run; by rewrite delete_delete_eq.
  - by destruct edit2 as [[]|e].
Qed.

Lemma quality_selection_creates_one_task_witness :
  trace (quality_selection_handler sample_quality_query
           (after (startmedia_command sample_command empty_bot)))
  = [AAnswer true;
     ACreateTask 9 "https://example.com/v" (quality_param "720")
                 "My video" "t1" 5].
Proof.
  refine (proj1 (quality_selection_creates_one_task
                   sample_quality_query sample_quality_query
                   (after (startmedia_command sample_command empty_bot))
                   (TaskInfo "https://example.com/v" "My video" "t1" 5)
                   "720" eq_refl _ _ eq_refl eq_refl)).
  - vm_compute. reflexivity.
  - vm_compute. reflexivity.
Defined.

(** ** From the command to the task *)





(** ** What a cancel leaves alone *)

Lemma cancel_outcome_shrinks q t w :
  let x := cancel_outcome q t w in
  active_processes (state x) = delete t (active_processes w)
  /\ progress_messages (state x) = delete t (progress_messages w)
  /\ files (state x) ⊆ files w
  /\ (forall f, f ∈ files w -> f ∉ files (state x) ->
      exists process, active_processes w !! t = Some (process, f)).
Proof.
  unfold cancel_outcome, state.
  destruct (active_processes w !! t) as [[process filename]|]; simpl;
    [|by split_and!].
  assert (forall f, f ∈ files w -> f ∉ files w ∖ {[filename]} ->
                    f = filename) as Hgone.
  { intros f Hf Hgone.
    rewrite elem_of_difference, elem_of_singleton in Hgone.
    destruct (decide (f = filename)) as [->|Hne]; [done|].
    exfalso. apply Hgone. by split. }
  destruct (teardown_value q t process); simpl; [|by split_and!].
  destruct (bool_decide (filename ∈ files w)); [|by split_and!].
  destruct (cq_remove q); simpl; [|by split_and!].
  split_and!; [done|done| |].
  - by apply subseteq_difference_l.
  - intros f Hf Hf'. exists process. by rewrite (Hgone f Hf Hf').
Qed.

Lemma cancel_parsed q w :
  (state (cancel_any_download q w) = w)
  \/ (exists t, cancel_task_id (cq_data q) = Ok t
                /\ cancel_any_download q w = cancel_outcome q t w).
Proof.
  destruct (cq_answer q) as [u|e] eqn:H1.
  - destruct (cancel_task_id (cq_data q)) as [t|e] eqn:H2.
    + right. exists t. split; [done|]. by eapply cancel_run.
    + left. by rewrite (cancel_malformed q w u e).
  - left. by rewrite (cancel_unanswered q w e).
Qed.

(** X16. A cancel never adds a process entry, a progress message or a
    file; it leaves the entries of every task but the one named in its
    data as they are; and the only file it can remove is the one recorded
    in the process entry of that task. *)
Theorem cancel_any_download_frame (q : cancel_query) (w : world) :
  let x := cancel_any_download q w in
  (forall t, cancel_task_id (cq_data q) <> Ok t ->
     active_processes (state x) !! t = active_processes w !! t
     /\ progress_messages (state x) !! t = progress_messages w !! t)
  /\ active_processes (state x) ⊆ active_processes w
  /\ progress_messages (state x) ⊆ progress_messages w
  /\ files (state x) ⊆ files w
  /\ (forall f, f ∈ files w -> f ∉ files (state x) ->
      exists t process,
        cancel_task_id (cq_data q) = Ok t
        /\ active_processes w !! t = Some (process, f)).
Proof.
  intros x. subst x.
  destruct (cancel_parsed q w) as [->|(t & Ht & ->)].
  - by split_and!.
  - destruct (cancel_outcome_shrinks q t w) as (Hap & Hpm & Hfs & Hgone).
    rewrite Hap, Hpm. split_and!.
    + intros t' Hne. rewrite !lookup_delete_ne; [done|congruence..].
    + apply delete_subseteq.
    + apply delete_subseteq.
    + done.
    + intros f Hf Hf'. destruct (Hgone f Hf Hf') as [process Hp].
      by exists t, process.
Qed.

(** *** What happens during an await *)




(** ** The upload driver *)

Lemma upload_loop_response u m name t steps : forall b l w resp,
  value (upload_loop u m name t steps b l w) = Ok (Some resp) ->
  exists status, outcome (cs_chunk (u_last u)) = Ok (status, resp).
Proof.
  induction steps as [|step steps IH]; intros b l w resp; simpl.
  - rewrite value_bind, upload_cancelled_run. cbn [value state fst snd].
    destruct (_ && _); [by rewrite value_bind|].
    rewrite value_bind, emit_run. cbn [value state fst snd].
    rewrite value_bind, value_await.
    destruct (outcome (cs_chunk (u_last u))) as [[status response]|e];
      [|done].
    rewrite value_bind.
    destruct (value (show_upload_status _ _ _ _ _ _ _ _ _ _ _)); [|done].
    intros [= <-]. by exists status.
  - rewrite value_bind, upload_cancelled_run. cbn [value state fst snd].
    destruct (_ && _); [by rewrite value_bind|].
    rewrite value_bind, emit_run. cbn [value state fst snd].
    rewrite value_bind, value_await.
    destruct (outcome (cs_chunk step)) as [status|e]; [|done].
    rewrite value_bind.
    destruct (value (show_upload_status _ _ _ _ _ _ _ _ _ _ _))
      as [[bytes time]|e]; [|done].
    apply IH.
Qed.

Lemma upload_handler_value u m name t e w :
  value ((log (LUploadError t e) >>
          let! shown := has_progress_message t in
          (if shown
           then try_except
                  (edit_text m (TUploadError name e) (u_error_edit u))
                  (fun _ => ret tt)
           else ret tt) >>
          ret None : M (option response)) w) = Ok None.
Proof.
  rewrite value_bind, log_run. cbn [value state fst snd].
  rewrite value_bind, has_progress_message_run. cbn [value state fst snd].
  rewrite value_bind.
  destruct (bool_decide _); [|done].
  rewrite value_try_except, value_edit_text.
  by destruct (outcome (u_error_edit u)) as [[]|e'].
Qed.

Lemma upload_returns_response u m file name t w resp :
  value (upload_with_progress u m file name t w) = Ok (Some resp) ->
  outcome (u_auth u) = Ok true
  /\ file ∈ files (meanwhile_state (u_auth u) w)
  /\ exists status, outcome (cs_chunk (u_last u)) = Ok (status, resp).
Proof.
  unfold upload_with_progress. rewrite value_try_except.
  match goal with
  | |- context [value (?body w)] =>
      destruct (value (body w)) as [r|e] eqn:Hbody
  end.
  - intros [= ->]. revert Hbody.
    rewrite value_bind, emit_run. cbn [value state fst snd].
    rewrite value_bind, await_run. cbn [value state fst snd].
    destruct (outcome (u_auth u)) as [[|]|e]; cbn [negb]; cbv iota;
      [|by rewrite value_bind, value_edit_text;
           destruct (outcome (u_auth_edit u))|done].
    rewrite value_bind, path_exists_run.
    cbn [value state fst snd].
    destruct (bool_decide _) eqn:Hfile; cbn [negb]; [|done].
    apply bool_decide_eq_true in Hfile.
    rewrite value_bind, log_run. cbn [value state fst snd].
    rewrite value_bind, emit_run. cbn [value state fst snd].
    intros H. apply upload_loop_response in H. by split_and!.
  - by rewrite upload_handler_value.
Qed.

(** X17. The upload driver never raises: whatever fails, it returns
    nothing.  It returns a response only if the credential provider gave
    a service, the file was there when the request was made, and the last
    call for a chunk returned that response. *)
Theorem upload_with_progress_never_raises
    (u : upload_env) (message : Z) (file_path name task_id : string)
    (w : world) :
  exists r,
    value (upload_with_progress u message file_path name task_id w) = Ok r
    /\ forall resp, r = Some resp ->
         outcome (u_auth u) = Ok true
         /\ file_path ∈ files (meanwhile_state (u_auth u) w)
         /\ exists status,
              outcome (cs_chunk (u_last u)) = Ok (status, resp).
Proof.
  destruct (value (upload_with_progress u message file_path name task_id w))
    as [r|e] eqn:Hv.
  - exists r. split; [done|]. intros resp ->.
    by apply upload_returns_response in Hv.
  - exfalso. revert Hv. unfold upload_with_progress.
    rewrite value_try_except.
    match goal with
    | |- context [value (?body w)] => destruct (value (body w)) as [r|e']
    end; [done|].
    by rewrite upload_handler_value.
Qed.

Lemma meanwhile_no_transfer {A} (a : awaited A) w :
  Forall (fun ev => transfer_event ev = false) (meanwhile_events a w).
Proof.
  apply (only_forall _ (happen_all (meanwhile a)) w).
  apply (obeys_happen_all _ _ not_transfer_lawful).
Qed.

Lemma upload_handler_no_transfer u m name t e w :
  Forall (fun ev => transfer_event ev = false)
    (events ((log (LUploadError t e) >>
              let! shown := has_progress_message t in
              (if shown
               then try_except
                      (edit_text m (TUploadError name e) (u_error_edit u))
                      (fun _ => ret tt)
               else ret tt) >>
              ret None : M (option response)) w)).
Proof.
  apply only_forall. pose proof not_transfer_lawful as L.
  apply (obeys_bind _ _ L); [by apply (obeys_log _ _ L)|]. intros _.
  apply (obeys_bind _ _ L); [apply (obeys_has_progress_message _ _ L)|].
  intros shown.
  apply (obeys_bind _ _ L); [|intros; apply (obeys_ret _ _ L)].
  destruct shown; [|apply (obeys_ret _ _ L)].
  apply (obeys_try_except _ _ L);
    [by apply (obeys_edit_text _ _ L)|intros; apply (obeys_ret _ _ L)].
Qed.

Ltac no_transfer :=
  unfold events; cbn [fst snd];
  repeat first
    [ apply Forall_nil_2
    | apply meanwhile_no_transfer
    | apply Forall_app; split
    | apply Forall_cons; split; [reflexivity|] ].

Lemma upload_not_ready u m file name t w :
  outcome (u_auth u) <> Ok true
  \/ file ∉ files (meanwhile_state (u_auth u) w) ->
  Forall (fun ev => transfer_event ev = false)
         (events (upload_with_progress u m file name t w)).
Proof.
  intros Hnot. unfold upload_with_progress.
  rewrite try_except_run, bind_run, emit_run. cbv beta iota.
  rewrite bind_run, await_run. cbv beta iota.
  destruct (outcome (u_auth u)) as [[|]|e] eqn:Hauth; cbn [negb]; cbv iota.
  - destruct Hnot as [Hnot|Hfile]; [done|].
    rewrite bind_run, path_exists_run. cbv beta iota.
    rewrite (bool_decide_eq_false_2 _ Hfile). cbn [negb]. cbv iota.
    rewrite raise_run.
    pose proof (upload_handler_no_transfer u m name t FileNotFoundError
                  (meanwhile_state (u_auth u) w)) as Hh.
    match goal with
    | |- context [?h (meanwhile_state (u_auth u) w)] =>
        match h with
        | bind _ _ =>
            destruct (h (meanwhile_state (u_auth u) w)) as [[r2 w2] ev2]
        end
    end.
    unfold events in Hh. simpl in Hh. by no_transfer.
  - rewrite bind_run, edit_text_run. cbv beta iota.
    destruct (outcome (u_auth_edit u)) as [[]|e] eqn:Hedit.
    + rewrite ret_run. by no_transfer.
    + pose proof (upload_handler_no_transfer u m name t e
                    (meanwhile_state (u_auth_edit u)
                       (meanwhile_state (u_auth u) w))) as Hh.
      match goal with
      | |- context [?h (meanwhile_state (u_auth_edit u) ?w1)] =>
          match h with
          | bind _ _ =>
              destruct (h (meanwhile_state (u_auth_edit u) w1))
                as [[r2 w2] ev2]
          end
      end.
      unfold events in Hh. simpl in Hh. by no_transfer.
  - pose proof (upload_handler_no_transfer u m name t e
                  (meanwhile_state (u_auth u) w)) as Hh.
    match goal with
    | |- context [?h (meanwhile_state (u_auth u) w)] =>
        match h with
        | bind _ _ =>
            destruct (h (meanwhile_state (u_auth u) w)) as [[r2 w2] ev2]
        end
    end.
    unfold events in Hh. simpl in Hh. by no_transfer.
Qed.

(** X18. The upload driver creates an upload request or asks for a
    chunk only if the credential provider gave a service and the file was
    there when it came back: without a service, or with the file
    missing, nothing is transferred. *)
Theorem upload_transfers_only_when_ready
    (u : upload_env) (message : Z) (file_path name task_id : string)
    (w : world) :
  Exists (fun ev => transfer_event ev = true)
         (events (upload_with_progress u message file_path name task_id w)) ->
  outcome (u_auth u) = Ok true
  /\ file_path ∈ files (meanwhile_state (u_auth u) w).
Proof.
  intros Hex.
  destruct (outcome (u_auth u)) as [[|]|e] eqn:Hauth;
    [destruct (decide (file_path ∈ files (meanwhile_state (u_auth u) w)))
       as [Hfile|Hfile]; [done|]|..];
    exfalso; apply Exists_exists in Hex as (ev & Hin & Hev);
    (assert (Forall (fun ev => transfer_event ev = false)
               (events (upload_with_progress u message file_path name
                                             task_id w))) as Hall
       by (apply upload_not_ready; rewrite ?Hauth; auto));
    rewrite Forall_forall in Hall; specialize (Hall ev Hin); congruence.
Qed.

Lemma upload_transfers_only_when_ready_witness :
  outcome (u_auth sample_upload) = Ok true
  /\ "v.mp4" ∈ files (meanwhile_state (u_auth sample_upload) sample_world).
Proof.
  apply (upload_transfers_only_when_ready sample_upload 5 "v.mp4" "v.mp4"
           "t1" sample_world).
  apply Exists_existsb. vm_compute. reflexivity.
Defined.

(** *** A cancel while uploading *)













(** ** How the task ends *)

Lemma finalize_run t out w :
  exists evs,
    finalize t out w
    = (Ok tt,
       World (active_processes w) (delete t (progress_messages w))
             (if bool_decide (out ∈ files w) then files w ∖ {[out]}
              else files w),
       evs).
Proof.
  unfold finalize. run. cbn [files].
  destruct (bool_decide (out ∈ files w)); run; by eexists.
Qed.

Lemma pipeline_ok_releases e url q name t m out w :
  value (pipeline e url q name t m out w) = Ok tt ->
  active_processes (state (pipeline e url q name t m out w)) !! t = None.
Proof.
  unfold pipeline. rewrite bind_run.
  destruct (start_download e url q name t m out w) as [[[[]|e1] w1] ev1];
    [|done].
  rewrite bind_run.
  destruct (watch_download e name t m w1) as [[[rc|e2] w2] ev2]; [|done].
  rewrite bind_run, is_active_run. cbv beta iota.
  destruct (bool_decide (is_Some (active_processes w2 !! t))) eqn:Hact;
    cbn [negb]; cbv iota.
  - rewrite bind_run, pop_active_run. cbv beta iota.
    set (w3 := World (delete t (active_processes w2)) (progress_messages w2)
                     (files w2)).
    pose proof (conclude_download_guarded e m name t out rc w3) as [_ Hc].
    destruct (Hc (lookup_delete_eq _ _)) as [Hw4 _].
    destruct (conclude_download e m name t out rc w3) as [[r4 w4] ev4].
    by intros _.
  - rewrite log_run. intros _. unfold state. cbn [fst snd].
    apply bool_decide_eq_false in Hact. by apply eq_None_not_Some.
Qed.

(** X20. When the task ends, its process entry is gone unless a task
    error was logged: the entry outlives the task only on the path through
    the exception handler. *)
Theorem process_entry_released_unless_error
    (e : env) (chat_id : Z) (url : string) (quality_param : list string)
    (file_name task_id : string) (initial_msg : Z) (w : world) :
  let x := download_and_upload_task e chat_id url quality_param file_name
                                    task_id initial_msg w in
  active_processes (state x) !! task_id = None
  \/ exists err, EvLog (LTaskError task_id err) ∈ events x.
Proof.
  unfold download_and_upload_task.
  set (out := (file_name +:+ ".mp4")%string).
  rewrite finally_run, try_except_run.
  pose proof (pipeline_ok_releases e url quality_param file_name task_id
                initial_msg out w) as Hp.
  destruct (pipeline e url quality_param file_name task_id initial_msg out w)
    as [[[[]|err] w1] ev1].
  - left. specialize (Hp eq_refl). unfold state in Hp. cbn [fst snd] in Hp.
    destruct (finalize_run task_id out w1) as [evs ->]. exact Hp.
  - right. exists err. unfold on_error. rewrite bind_run, log_run.
    cbv beta iota.
    match goal with
    | |- context [?k w1] =>
        match k with
        | bind _ _ => destruct (k w1) as [[r2 w2] ev2]
        end
    end.
    cbv beta iota.
    destruct (finalize_run task_id out w2) as [evs ->].
    unfold events. cbn [fst snd]. rewrite !elem_of_app, elem_of_cons.
    auto.
Qed.



(** ** The percentage of a progress frame *)

Lemma int_of_nearest_ratio p q z :
  int_of_float (nearest_ratio p q) = Ok z -> 0 <= z.
Proof.
  unfold nearest_ratio. destruct (p =? 0); [by intros [= <-]|].
  destruct (SFdiv_core_binary prec emax p 0 q 0) as [[m e] l].
  unfold binary_round_aux.
  destruct (shr_fexp prec emax m e l) as [mrs' e'].
  destruct (shr_fexp prec emax _ e' loc_Exact) as [mrs'' e''].
  destruct (shr_m mrs'') as [|k|k]; [by intros [= <-]| |done].
  destruct (e'' <=? emax - prec); [|done]. simpl.
  intros [= <-]. destruct e'' as [|j|j].
  - done.
  - apply Z.shiftl_nonneg. lia.
  - apply Z.shiftr_nonneg. lia.
Qed.

(** X22. The percentage read from a progress frame is never negative,
    so the first frame that is parsed always exceeds the initial
    [last_update_pct] of -1. *)
Theorem parse_download_line_percent_not_negative
    (line : chars) (snap : snapshot) :
  parse_download_line line = Ok (Some snap) -> 0 <= snap_percent snap.
Proof.
  unfold parse_download_line.
  destruct (search progress_pattern 4 line) as [g|]; [|done].
  destruct (float_of_str (group g 1)) as [f|e] eqn:Hf; [|done].
  destruct (int_of_float f) as [pct|e] eqn:Hpct; [|done].
  intros [= <-]. simpl. revert Hf. unfold float_of_str.
  destruct (span_digits (group g 1)) as [ip rest].
  destruct rest as [|c fp].
  - destruct ip; [done|]. intros [= <-].
    by apply int_of_nearest_ratio in Hpct.
  - destruct (_ && _); [|done]. intros [= <-].
    by apply int_of_nearest_ratio in Hpct.
Qed.

Lemma parse_download_line_percent_not_negative_witness :
  0 <= snap_percent (Snapshot 42 "100.0MiB" "5.0MiB/s" "00:10").
Proof.
  apply (parse_download_line_percent_not_negative
           (of_string
              "[download]  42.0% of ~100.0MiB at 5.0MiB/s ETA 00:10")).
  vm_compute. reflexivity.
Defined.


(** ** The message that announces the finished upload *)

Lemma not_completed_lawful :
  lawful (only (fun ev => completed_edit ev = false))
         (fun ev => completed_edit ev = false).
Proof. apply only_lawful. by intros [? [] ?| | | | | | | | |]. Qed.

Lemma meanwhile_not_completed {A} (a : awaited A) w :
  Forall (fun ev => completed_edit ev = false) (meanwhile_events a w).
Proof.
  apply (only_forall _ (happen_all (meanwhile a)) w).
  apply (obeys_happen_all _ _ not_completed_lawful).
Qed.

Lemma upload_not_completed u m file name t w :
  Forall (fun ev => completed_edit ev = false)
         (events (upload_with_progress u m file name t w)).
Proof.
  apply only_forall.
  apply (obeys_upload_with_progress _ _ not_completed_lawful).
  by intros [? [] ?| | |[]| | | | | |].
Qed.

Lemma start_download_not_completed e url q name t m out w :
  Forall (fun ev => completed_edit ev = false)
         (events (start_download e url q name t m out w)).
Proof.
  pose proof not_completed_lawful as L.
  apply only_forall. unfold start_download.
  apply (obeys_bind _ _ L); [by apply (obeys_edit_text _ _ L)|].
  intros _. apply (obeys_bind _ _ L); [by apply (obeys_log _ _ L)|].
  intros _. apply (obeys_bind _ _ L); [by apply (obeys_emit _ _ L)|].
  intros _. apply (obeys_bind _ _ L); [apply (obeys_await _ _ L)|].
  intros process w0. by constructor.
Qed.

Lemma watch_download_not_completed e name t m w :
  Forall (fun ev => completed_edit ev = false)
         (events (watch_download e name t m w)).
Proof.
  pose proof not_completed_lawful as L.
  apply only_forall. unfold watch_download.
  apply (obeys_bind _ _ L); [|intros; apply (obeys_await _ _ L)].
  apply (obeys_download_loop _ _ L).
  by intros [? [] ?| | |[]| | | | | |].
Qed.

Lemma on_error_not_completed e name t m err w :
  Forall (fun ev => completed_edit ev = false)
         (events (on_error e name t m err w)).
Proof.
  pose proof not_completed_lawful as L.
  apply only_forall. unfold on_error.
  apply (obeys_bind _ _ L); [by apply (obeys_log _ _ L)|]. intros _.
  apply (obeys_bind _ _ L); [apply (obeys_has_progress_message _ _ L)|].
  intros []; [by apply (obeys_edit_text _ _ L)|apply (obeys_ret _ _ L)].
Qed.

Lemma finalize_not_completed t out w :
  Forall (fun ev => completed_edit ev = false) (events (finalize t out w)).
Proof.
  pose proof not_completed_lawful as L.
  apply only_forall. unfold finalize.
  apply (obeys_bind _ _ L); [apply (obeys_pop_progress_message _ _ L)|].
  intros _.
  apply (obeys_bind _ _ L); [apply (obeys_path_exists _ _ L)|].
  intros []; [|apply (obeys_ret _ _ L)].
  apply (obeys_bind _ _ L); [by apply (obeys_remove _ _ L)|].
  intros _. by apply (obeys_log _ _ L).
Qed.

Lemma not_completed_in ev evs :
  Forall (fun ev => completed_edit ev = false) evs ->
  completed_edit ev = true -> ev ∉ evs.
Proof.
  intros Hall Hev Hin. rewrite Forall_forall in Hall.
  specialize (Hall ev Hin). congruence.
Qed.

(** The event [ev], which is the announcement, is looked for in a
    trace; the parts of the trace that hold no announcement are sifted
    out. *)
Ltac sift Hev :=
  unfold events; cbn [fst snd];
  rewrite ?elem_of_app, ?elem_of_cons, ?elem_of_nil;
  repeat match goal with
    | |- _ \/ _ -> _ =>
        let H := fresh "H" in intros [H|H]; revert H
    | |- False -> _ => intros []
    | |- _ = _ -> _ =>
        intros ->; try (simpl in Hev; discriminate Hev)
    | |- _ ∈ _ -> _ =>
        let H := fresh "H" in
        intros H; exfalso;
        eapply not_completed_in; [|exact Hev|exact H]; eassumption
    end.

(** What [conclude_download] shows when it announces the upload. *)
Lemma conclude_download_completed e m name t out rc w ev :
  ev ∈ events (conclude_download e m name t out rc w) ->
  completed_edit ev = true ->
  rc = 0
  /\ exists status r,
       outcome (cs_chunk (u_last (e_upload e))) = Ok (status, r)
       /\ r <> ∅
       /\ ev = EvEdit m (TCompleted name (r !! "webViewLink") (r !! "id"))
                      (delivered (outcome (e_final_edit e))).
Proof.
  intros Hin Hev. revert Hin. unfold conclude_download.
  rewrite bind_run, path_exists_run. cbv beta iota.
  destruct ((rc =? 0) && bool_decide (out ∈ files w)) eqn:Hc.
  - apply andb_true_iff in Hc as [Hrc _]. apply Z.eqb_eq in Hrc.
    rewrite bind_run, edit_text_run.
    pose proof (meanwhile_not_completed (e_complete_edit e) w) as Hm1.
    destruct (outcome (e_complete_edit e)) as [[]|err]; cbv beta iota;
      [|by sift Hev].
    rewrite bind_run.
    set (w1 := meanwhile_state (e_complete_edit e) w).
    pose proof (upload_not_completed (e_upload e) m out out t w1) as Hu.
    pose proof (upload_returns_response (e_upload e) m out out t w1) as Hr.
    destruct (upload_with_progress (e_upload e) m out out t w1)
      as [[[[r|]|err] w2] ev2]; unfold value, events in Hu, Hr;
      cbn [fst snd] in Hu, Hr; cbv beta iota;
      [|rewrite ret_run; by sift Hev|by sift Hev].
    destruct (Hr r eq_refl) as (_ & _ & status & Hlast).
    destruct (bool_decide (r = ∅)) eqn:Hempty;
      [rewrite ret_run; by sift Hev|].
    apply bool_decide_eq_false in Hempty.
    rewrite edit_text_run.
    pose proof (meanwhile_not_completed (e_final_edit e) w2) as Hm2.
    sift Hev. split; [done|]. by exists status, r.
  - intros Hin. exfalso. revert Hin. apply not_completed_in; [|done].
    match goal with
    | |- context [?f w] =>
        match f with
        | bind _ _ =>
            assert (Forall (fun ev => completed_edit ev = false)
                           (events (f w))) as H;
            [|destruct (f w) as [[r w2] ev2]; exact H]
        end
    end.
    pose proof not_completed_lawful as L. apply only_forall.
    apply (obeys_bind _ _ L); [apply (obeys_await _ _ L)|]. intros raw.
    apply (obeys_bind _ _ L); [apply (obeys_has_progress_message _ _ L)|].
    intros []; [by apply (obeys_edit_text _ _ L)|apply (obeys_ret _ _ L)].
Qed.

Lemma pipeline_completed e url q name t m out w ev :
  ev ∈ events (pipeline e url q name t m out w) ->
  completed_edit ev = true ->
  outcome (e_wait e) = Ok 0
  /\ exists status r,
       outcome (cs_chunk (u_last (e_upload e))) = Ok (status, r)
       /\ r <> ∅
       /\ ev = EvEdit m (TCompleted name (r !! "webViewLink") (r !! "id"))
                      (delivered (outcome (e_final_edit e))).
Proof.
  intros Hin Hev. revert Hin. unfold pipeline. rewrite bind_run.
  pose proof (start_download_not_completed e url q name t m out w) as Hs.
  destruct (start_download e url q name t m out w) as [[[[]|e1] w1] ev1];
    unfold events in Hs; cbn [fst snd] in Hs; [|by sift Hev].
  rewrite bind_run.
  pose proof (watch_download_not_completed e name t m w1) as Hw.
  pose proof (watch_download_value e name t m w1) as Hv.
  destruct (watch_download e name t m w1) as [[[rc|e2] w2] ev2];
    unfold value, events in Hw, Hv; cbn [fst snd] in Hw, Hv;
    [|by sift Hev].
  rewrite bind_run, is_active_run. cbv beta iota.
  destruct (bool_decide (is_Some (active_processes w2 !! t)));
    cbn [negb]; cbv iota; [|rewrite log_run; by sift Hev].
  rewrite bind_run, pop_active_run. cbv beta iota.
  set (w3 := World (delete t (active_processes w2)) (progress_messages w2)
                   (files w2)).
  pose proof (conclude_download_completed e m name t out rc w3 ev) as Hc.
  destruct (conclude_download e m name t out rc w3) as [[r4 w4] ev4].
  unfold events in Hc. cbn [fst snd] in Hc.
  sift Hev. intros Hin. destruct (Hc Hin Hev) as (-> & Hrest).
  split; [by apply Hv|exact Hrest].
Qed.

(** X23. The message that announces the finished upload is shown only
    when the retrieval process exited with code 0 and the last call for a
    chunk returned a response that is not empty; it is an edit of the
    progress message of the task and carries the name of the task and the
    link and the id of that response. *)
Theorem completed_only_after_upload
    (e : env) (chat_id : Z) (url : string) (quality_param : list string)
    (file_name task_id : string) (initial_msg : Z) (w : world) (ev : event) :
  ev ∈ events (download_and_upload_task e chat_id url quality_param
                 file_name task_id initial_msg w) ->
  completed_edit ev = true ->
  outcome (e_wait e) = Ok 0
  /\ exists status r,
       outcome (cs_chunk (u_last (e_upload e))) = Ok (status, r)
       /\ r <> ∅
       /\ ev = EvEdit initial_msg
                      (TCompleted file_name (r !! "webViewLink") (r !! "id"))
                      (delivered (outcome (e_final_edit e))).
Proof.
  intros Hin Hev. revert Hin. unfold download_and_upload_task.
  set (out := (file_name +:+ ".mp4")%string).
  rewrite finally_run, try_except_run.
  pose proof (pipeline_completed e url quality_param file_name task_id
                initial_msg out w ev) as Hp.
  destruct (pipeline e url quality_param file_name task_id initial_msg out w)
    as [[[[]|err] w1] ev1]; unfold events in Hp; cbn [fst snd] in Hp.
  - pose proof (finalize_not_completed task_id out w1) as Hf.
    destruct (finalize task_id out w1) as [[[[]|err] w2] ev2];
      unfold events in Hf; cbn [fst snd] in Hf; sift Hev;
      intros Hin; by apply Hp.
  - pose proof (on_error_not_completed e file_name task_id initial_msg err w1)
      as Ho.
    destruct (on_error e file_name task_id initial_msg err w1)
      as [[r2 w2] ev2]; unfold events in Ho; cbn [fst snd] in Ho.
    pose proof (finalize_not_completed task_id out w2) as Hf.
    destruct (finalize task_id out w2) as [[[[]|err'] w3] ev3];
      unfold events in Hf; cbn [fst snd] in Hf; sift Hev;
      intros Hin; by apply Hp.
Qed.

Lemma completed_only_after_upload_witness :
  outcome (e_wait finished_download) = Ok 0
  /\ exists status r,
       outcome (cs_chunk (u_last (e_upload finished_download)))
       = Ok (status, r)
       /\ r <> ∅
       /\ EvEdit 5 (TCompleted "v" (Some "https://drive/F1") (Some "F1")) true
          = EvEdit 5 (TCompleted "v" (r !! "webViewLink") (r !! "id"))
                   (delivered (outcome (e_final_edit finished_download))).
Proof.
  apply (completed_only_after_upload finished_download 1 "http://u"
           ["-f"; "best"] "v" "t1" 5 fresh_world).
  - apply (list_elem_of_lookup_2 _ 11). vm_compute. reflexivity.
  - reflexivity.
Defined.

(** ** The retrieval process *)

Lemma no_spawn_lawful :
  lawful (only (fun ev => spawned_command ev = None))
         (fun ev => spawned_command ev = None).
Proof. apply only_lawful. by intros []. Qed.

Lemma spawned_app ev1 ev2 : spawned (ev1 ++ ev2) = spawned ev1 ++ spawned ev2.
Proof. apply omap_app. Qed.

Lemma spawned_cons ev evs : spawned (ev :: evs) = spawned [ev] ++ spawned evs.
Proof. apply (spawned_app [ev] evs). Qed.

Lemma spawned_none evs :
  Forall (fun ev => spawned_command ev = None) evs -> spawned evs = [].
Proof.
  induction 1 as [|ev evs Hev _ IH]; [done|].
  unfold spawned in *. simpl. by rewrite Hev.
Qed.

Lemma meanwhile_spawns_nothing {A} (a : awaited A) w :
  spawned (meanwhile_events a w) = [].
Proof.
  apply spawned_none, (only_forall _ (happen_all (meanwhile a)) w).
  apply (obeys_happen_all _ _ no_spawn_lawful).
Qed.

Lemma download_loop_spawns_nothing m name t reads : forall buffer last w,
  spawned (events (download_loop m name t reads buffer last w)) = [].
Proof.
  pose proof no_spawn_lawful as L.
  intros buffer last w. apply spawned_none, only_forall. clear w.
  revert buffer last.
  induction reads as [|step reads IH]; intros buffer last; simpl.
  - apply (obeys_bind _ _ L); [apply (obeys_is_active _ _ L)|].
    intros []; [apply (obeys_ret _ _ L)|by apply (obeys_log _ _ L)].
  - apply (obeys_bind _ _ L); [apply (obeys_is_active _ _ L)|].
    intros []; cbn [negb]; [|by apply (obeys_log _ _ L)].
    apply (obeys_bind _ _ L); [apply (obeys_await _ _ L)|].
    intros [text|]; [|apply (obeys_ret _ _ L)].
    destruct (contains_char _ _); [|apply IH].
    apply (obeys_bind _ _ L); [apply (obeys_lift _ _ L)|].
    intros found. apply (obeys_bind _ _ L); [|intros; apply IH].
    destruct found as [snap|]; [|apply (obeys_ret _ _ L)].
    destruct (_ >? _); [|apply (obeys_ret _ _ L)].
    apply (obeys_bind _ _ L); [|intros; apply (obeys_ret _ _ L)].
    by apply (obeys_notify_download _ _ L).
Qed.

Lemma start_download_spawns e url q name t m out w :
  let cmd := command_line q out (transform_mediaset_url url) in
  spawned (events (start_download e url q name t m out w)) = []
  \/ spawned (events (start_download e url q name t m out w)) = [cmd].
Proof.
  unfold start_download. rewrite bind_run, edit_text_run.
  destruct (outcome (e_start_edit e)) as [[]|err]; cbv beta iota.
  - right. rewrite bind_run, log_run. cbv beta iota.
    rewrite bind_run, emit_run. cbv beta iota.
    rewrite bind_run, await_run.
    destruct (outcome (e_spawn e)) as [process|err]; cbv beta iota;
      rewrite ?set_active_run; unfold events; cbn [fst snd];
      by rewrite !spawned_app, spawned_cons, !meanwhile_spawns_nothing.
  - left. unfold events. cbn [fst snd].
    by rewrite spawned_cons, !meanwhile_spawns_nothing.
Qed.

Lemma upload_driver_no_spawn ev :
  upload_driver_event ev = true -> spawned_command ev = None.
Proof. by destruct ev. Qed.

Lemma orchestrator_no_spawn ev :
  orchestrator_event ev = true -> spawned_command ev = None.
Proof. by destruct ev. Qed.

Lemma watch_download_spawns_nothing e name t m w :
  spawned (events (watch_download e name t m w)) = [].
Proof.
  unfold watch_download. rewrite events_bind.
  destruct (value _); [|apply download_loop_spawns_nothing].
  rewrite spawned_app, download_loop_spawns_nothing, await_run.
  apply meanwhile_spawns_nothing.
Qed.

Lemma conclude_download_spawns_nothing e m name t out rc w :
  spawned (events (conclude_download e m name t out rc w)) = [].
Proof.
  apply spawned_none, only_forall.
  apply (obeys_conclude_download _ _ no_spawn_lawful
           upload_driver_no_spawn orchestrator_no_spawn).
Qed.

Lemma on_error_spawns_nothing e name t m err w :
  spawned (events (on_error e name t m err w)) = [].
Proof.
  apply spawned_none, only_forall.
  apply (obeys_on_error _ _ no_spawn_lawful orchestrator_no_spawn).
Qed.

Lemma finalize_spawns_nothing t out w :
  spawned (events (finalize t out w)) = [].
Proof.
  apply spawned_none, only_forall.
  apply (obeys_finalize _ _ no_spawn_lawful orchestrator_no_spawn).
Qed.

Lemma pipeline_spawns e url q name t m out w :
  spawned (events (pipeline e url q name t m out w))
  = spawned (events (start_download e url q name t m out w)).
Proof.
  unfold pipeline. rewrite events_bind.
  destruct (value (start_download e url q name t m out w)) as [[]|e1];
    [|done].
  rewrite spawned_app, events_bind.
  set (w1 := state (start_download e url q name t m out w)).
  destruct (value (watch_download e name t m w1)) as [rc|e2];
    [|by rewrite watch_download_spawns_nothing, app_nil_r].
  rewrite spawned_app, watch_download_spawns_nothing.
  rewrite events_bind, is_active_run. cbn [value state events fst snd].
  destruct (bool_decide _); cbn [negb];
    [|by rewrite !app_nil_l, app_nil_r].
  rewrite events_bind, pop_active_run. cbn [value state events fst snd].
  rewrite !app_nil_l.
  by rewrite conclude_download_spawns_nothing, app_nil_r.
Qed.

(** X24. In every run the task starts the retrieval tool at most once,
    and then with the command line yt-dlp, the quality parameters, the
    remux and header options, the output file <name>.mp4 and the
    rewritten URL, in which no manifest form occurs. *)
Theorem task_spawns_retrieval_once
    (e : env) (chat_id : Z) (url : string) (quality_param : list string)
    (file_name task_id : string) (initial_msg : Z) (w : world) :
  let evs := events (download_and_upload_task e chat_id url quality_param
                       file_name task_id initial_msg w) in
  let url_to_download := transform_mediaset_url url in
  (spawned evs = []
   \/ spawned evs
      = [["yt-dlp"] ++ quality_param
         ++ ["--remux-video"; "mp4";
             "--add-header"; "Origin: https://www.mediasetinfinity.es";
             "--add-header"; "Referer: https://www.mediasetinfinity.es";
             "-o"; (file_name +:+ ".mp4")%string; url_to_download]])
  /\ has_manifest url_to_download = false.
Proof.
  intros evs url_to_download. split.
  - subst evs. unfold download_and_upload_task.
    set (out := (file_name +:+ ".mp4")%string).
    assert (spawned (events (try_except
                       (pipeline e url quality_param file_name task_id
                                 initial_msg out)
                       (on_error e file_name task_id initial_msg) w))
            = spawned (events (start_download e url quality_param file_name
                                 task_id initial_msg out w))) as Htry.
    { rewrite events_try_except.
      destruct (value _); [apply pipeline_spawns|].
      by rewrite spawned_app, on_error_spawns_nothing, app_nil_r,
        pipeline_spawns. }
    rewrite finally_run.
    destruct (try_except _ _ w) as [[r w1] ev1].
    pose proof (finalize_spawns_nothing task_id out w1) as Hf.
    destruct (finalize task_id out w1) as [[[[]|err] w2] ev2];
      unfold events in *; cbn [fst snd] in *;
      rewrite spawned_app, Hf, app_nil_r, Htry;
      apply start_download_spawns.
  - subst url_to_download. unfold has_manifest.
    rewrite transform_msub, of_to_string.
    apply manifest_free_has_none, msub_manifest_free.
Qed.
(** ** When an upload is attempted *)

(** X25. In every run of a task that starts without a process entry,
    an upload is attempted only if the retrieval process returned code 0,
    and not at all if a cancel found the process entry of the task and
    logged its teardown; and the step that follows the download attempts
    an upload only for return code 0 with the output file in place. *)
Theorem upload_only_after_successful_download
    (e : env) (chat_id : Z) (url : string) (quality_param : list string)
    (file_name task_id : string) (initial_msg : Z) (w : world) :
  active_processes w !! task_id = None ->
  let evs := events (download_and_upload_task e chat_id url quality_param
                       file_name task_id initial_msg w) in
  (Exists (fun ev => upload_event ev = true) evs ->
   outcome (e_wait e) = Ok 0)
  /\ (Exists (fun ev => teardown_of task_id ev = true) evs ->
      Forall (fun ev => upload_event ev = false) evs)
  /\ (forall returncode w1,
         Exists (fun ev => upload_event ev = true)
                (events (conclude_download e initial_msg file_name task_id
                           (file_name +:+ ".mp4") returncode w1)) ->
         returncode = 0 /\ (file_name +:+ ".mp4")%string ∈ files w1).
Proof.
  intros Hw evs.
  destruct (task_shape e chat_id url quality_param file_name task_id
              initial_msg w Hw) as [H|[Hrc H]]; fold evs in H.
  - split_and!.
    + intros Hex. by apply upload_excluded in Hex.
    + intros _. exact H.
    + intros rc w1. apply conclude_download_enters.
  - split_and!.
    + done.
    + intros Hex. by apply teardown_excluded in Hex.
    + intros rc w1. apply conclude_download_enters.
Qed.

Lemma upload_only_after_successful_download_witness :
  Forall (fun ev => upload_event ev = false)
    (events (download_and_upload_task cancelled_download 1 "http://u"
               ["-f"; "best"] "v" "t1" 5 fresh_world)).
Proof.
  apply (upload_only_after_successful_download cancelled_download 1
           "http://u" ["-f"; "best"] "v" "t1" 5 fresh_world eq_refl).
  apply Exists_existsb. vm_compute. reflexivity.
Defined.

(** X27. After a download with return code 0 and the output file in
    place, once the message that announces it is delivered the upload
    driver is run on the output file, under the name of that file. *)
Theorem upload_follows_announced_download
    (e : env) (message : Z) (file_name task_id output_filename : string)
    (w : world) (u : unit) :
  output_filename ∈ files w ->
  outcome (e_complete_edit e) = Ok u ->
  exists rest,
    events (conclude_download e message file_name task_id output_filename
                              0 w)
    = EvEdit message (TDownloadComplete file_name) true
      :: meanwhile_events (e_complete_edit e) w
      ++ events (upload_with_progress (e_upload e) message output_filename
                   output_filename task_id
                   (meanwhile_state (e_complete_edit e) w))
      ++ rest.
Proof.
  intros Hfile Hu. unfold conclude_download. run.
  rewrite (bool_decide_eq_true_2 _ Hfile). cbn [Z.eqb andb].
  cbv iota. run. rewrite Hu. cbv beta iota. simpl delivered.
  set (w1 := meanwhile_state (e_complete_edit e) w).
  destruct (upload_with_progress _ _ _ _ _ w1) as [[[[r|]|err] w2] ev2];
    cbv beta iota.
  - destruct (bool_decide (r = ∅)); run.
    + exists []. unfold events. by simpl.
    + destruct (outcome (e_final_edit e)) as [[]|err];
        eexists; unfold events; simpl; reflexivity.
  - run. exists []. unfold events. by simpl.
  - exists []. unfold events. simpl. by rewrite app_nil_r.
Qed.

Lemma upload_follows_announced_download_witness :
  exists rest,
    events (conclude_download finished_download 5 "v" "t1" "v.mp4" 0
                              uploading_world)
    = EvEdit 5 (TDownloadComplete "v") true
      :: meanwhile_events (e_complete_edit finished_download)
           uploading_world
      ++ events (upload_with_progress (e_upload finished_download) 5
                   "v.mp4" "v.mp4" "t1"
                   (meanwhile_state (e_complete_edit finished_download)
                      uploading_world))
      ++ rest.
Proof.
  apply (upload_follows_announced_download finished_download 5 "v" "t1"
           "v.mp4" uploading_world tt).
  - apply (bool_decide_unpack _). vm_compute. exact I.
  - reflexivity.
Defined.
